(** * Preemptive priority scheduling simulator: the simulation engine

    A shallow embedding of [runPrioritySimulation] and of the metric
    computation of [handleSubmit] (the TypeScript source of the
    PriorityScheduler application), followed by the properties of the
    engine stated in its specification.

    JavaScript numbers that hold ticks, bursts and priorities are modelled
    as [Z]; the one fractional quantity, the CPU utilisation, is computed
    with binary64 floats, which is what a JavaScript number is.

    The [processes] array of the engine holds object references: a process
    picked from the ready queue is the very object stored in [processes].
    Two models of the engine are given.  In the value-level model a
    reference is an index into the list [processes].  The reference-level
    model keeps an explicit object store, in which the caller's objects and
    the engine's copies live side by side; it is the one that can say what
    the engine does to its caller's objects. *)

From Stdlib Require Import ZArith Lia Bool List.
From Stdlib Require Import Floats.
From stdpp Require Import base option list strings pretty gmap sorting.

Open Scope Z_scope.

(** ** 1. Type definitions *)

(** [interface Process].  The type of the [startTimes] field is a
    parameter: a list of ticks in a value, an array reference in a stored
    object. *)
Record ProcessOf (T : Type) := mkProcess {
  id : Z;
  pid : string;
  arrival : Z;
  burst : Z;
  priority : Z;          (* lower number means higher priority *)
  remaining : Z;
  completionTime : Z;
  turnaroundTime : Z;
  waitingTime : Z;
  startTimes : T
}.
Arguments mkProcess {T}.
Arguments id {T}.
Arguments pid {T}.
Arguments arrival {T}.
Arguments burst {T}.
Arguments priority {T}.
Arguments remaining {T}.
Arguments completionTime {T}.
Arguments turnaroundTime {T}.
Arguments waitingTime {T}.
Arguments startTimes {T}.

Abbreviation Process := (ProcessOf (list Z)).

(** [interface GanttSegment]; [id?: number] is absent on idle segments. *)
Record GanttSegment := mkSegment {
  seg_pid : string;
  seg_start : Z;
  seg_end : Z;
  seg_id : option Z
}.

(** [interface Metrics] *)
Record Metrics := mkMetrics {
  avgTAT : float;
  avgWT : float;
  cpuUtil : float;
  metricsTotalTime : Z
}.

(** The local variables of [runPrioritySimulation]; [P] is what the
    [processes] array holds. *)
Record SimStateOf (P : Type) := mkState {
  processes : list P;
  currentTime : Z;
  ganttChart : list GanttSegment;
  idleTime : Z;
  lastProcessId : option string;   (* [string | null] *)
  isIdle : bool
}.
Arguments mkState {P}.
Arguments processes {P}.
Arguments currentTime {P}.
Arguments ganttChart {P}.
Arguments idleTime {P}.
Arguments lastProcessId {P}.
Arguments isIdle {P}.

Abbreviation SimState := (SimStateOf Process).

(** The object returned by [runPrioritySimulation]. *)
Record SimResultOf (P : Type) := mkResult {
  res_processes : list P;
  gantt : list GanttSegment;
  totalTime : Z;
  res_idleTime : Z
}.
Arguments mkResult {P}.
Arguments res_processes {P}.
Arguments gantt {P}.
Arguments totalTime {P}.
Arguments res_idleTime {P}.

Abbreviation SimResult := (SimResultOf Process).

(** Field assignments on a process object. *)
Definition set_remaining {T} (v : Z) (p : ProcessOf T) : ProcessOf T :=
  mkProcess (id p) (pid p) (arrival p) (burst p) (priority p) v
            (completionTime p) (turnaroundTime p) (waitingTime p) (startTimes p).

Definition set_completionTime {T} (v : Z) (p : ProcessOf T) : ProcessOf T :=
  mkProcess (id p) (pid p) (arrival p) (burst p) (priority p) (remaining p)
            v (turnaroundTime p) (waitingTime p) (startTimes p).

Definition set_turnaroundTime {T} (v : Z) (p : ProcessOf T) : ProcessOf T :=
  mkProcess (id p) (pid p) (arrival p) (burst p) (priority p) (remaining p)
            (completionTime p) v (waitingTime p) (startTimes p).

Definition set_waitingTime {T} (v : Z) (p : ProcessOf T) : ProcessOf T :=
  mkProcess (id p) (pid p) (arrival p) (burst p) (priority p) (remaining p)
            (completionTime p) (turnaroundTime p) v (startTimes p).

Definition set_startTimes {T U} (v : U) (p : ProcessOf T) : ProcessOf U :=
  mkProcess (id p) (pid p) (arrival p) (burst p) (priority p) (remaining p)
            (completionTime p) (turnaroundTime p) (waitingTime p) v.

Definition set_end (v : Z) (g : GanttSegment) : GanttSegment :=
  mkSegment (seg_pid g) (seg_start g) v (seg_id g).

(** ** 2. Core simulation logic, on values *)

(** [p.remaining > 0] and [processes.some(p => p.remaining > 0)] *)
Definition hasWork {T} (p : ProcessOf T) : bool := 0 <? remaining p.

Definition anyRemaining (ps : list Process) : bool := existsb hasWork ps.

(** [p.arrival <= currentTime && p.remaining > 0] *)
Definition isReady {T} (t : Z) (p : ProcessOf T) : bool :=
  (arrival p <=? t) && (0 <? remaining p).

(** [processes.filter(...)]: the ready queue holds references to the
    objects of [processes], here each paired with its index. *)
Definition readyQueue (ps : list Process) (t : Z) : list (nat * Process) :=
  filter (fun ip => isReady t ip.2) (imap pair ps).

(** The comparator handed to [readyQueue.sort]. *)
Definition compareFn {T} (a b : ProcessOf T) : Z :=
  if bool_decide (priority a ≠ priority b) then priority a - priority b
  else arrival a - arrival b.

(** [Array.prototype.sort] is stable: with a consistent comparator its
    result is the one of any stable sort, here insertion from the right.
    An element moves in front of the ones it does not compare greater to. *)
Fixpoint insertBy {A} (cmp : A → A → Z) (x : A) (l : list A) : list A :=
  match l with
  | [] => [x]
  | y :: l' => if cmp x y <=? 0 then x :: l else y :: insertBy cmp x l'
  end.

Definition stableSort {A} (cmp : A → A → Z) (l : list A) : list A :=
  foldr (insertBy cmp) [] l.

(** [ganttChart[ganttChart.length - 1].end = e]: a [TypeError] ([None])
    when the chart is empty. *)
Definition extendLast (g : list GanttSegment) (e : Z) : option (list GanttSegment) :=
  let k := (length g - 1)%nat in
  seg ← g !! k; Some (<[k := set_end e seg]> g).

(** The bookkeeping of an idle tick (lines 47-52): the new chart. *)
Definition chartIdle (g : list GanttSegment) (idle : bool) (t : Z) : option (list GanttSegment) :=
  if idle then extendLast g (t + 1)
  else Some (g ++ [mkSegment "IDLE" t (t + 1) None]).

(** The running process of a tick: [readyQueue[0]] after the sort. *)
Definition runningProcess (s : SimState) : option (nat * Process) :=
  head (stableSort (fun a b => compareFn a.2 b.2)
                   (readyQueue (processes s) (currentTime s))).

(** Lines 79-87 on the running process, with [t'] the clock after
    [currentTime++]. *)
Definition execute {T} (t' : Z) (p : ProcessOf T) : ProcessOf T :=
  let p2 := set_remaining (remaining p - 1) p in
  if remaining p2 =? 0 then
    let pc := set_completionTime t' p2 in
    let pt := set_turnaroundTime (completionTime pc - arrival pc) pc in
    set_waitingTime (turnaroundTime pt - burst pt) pt
  else p2.

(** [if (runningProcess.startTimes.length === 0) startTimes.push(t)] *)
Definition recordStart (t : Z) (p : Process) : Process :=
  if (length (startTimes p) =? 0)%nat then set_startTimes (startTimes p ++ [t]) p else p.

(** One iteration of the [while] loop; [None] is a thrown [TypeError]. *)
Definition tick (s : SimState) : option SimState :=
  let t := currentTime s in
  match readyQueue (processes s) t with
  | [] =>
      g ← chartIdle (ganttChart s) (isIdle s) t;
      Some (mkState (processes s) (t + 1) g (idleTime s + 1) None true)
  | _ :: _ =>
      '(i, p) ← runningProcess s;
      '(g, idle, p1) ←
        (if bool_decide (Some (pid p) ≠ lastProcessId s) then
           Some (ganttChart s ++ [mkSegment (pid p) t (t + 1) (Some (id p))],
                 false, recordStart t p)
         else
           g ← extendLast (ganttChart s) (t + 1); Some (g, isIdle s, p));
      Some (mkState (<[i := execute (t + 1) p1]> (processes s)) (t + 1) g
                    (idleTime s) (Some (pid p)) idle)
  end.

(** The [while] loop, with a bound on the number of iterations. *)
Fixpoint loop (fuel : nat) (s : SimState) : option SimState :=
  if anyRemaining (processes s) then
    match fuel with
    | O => None
    | S n => s' ← tick s; loop n s'
    end
  else Some s.

(** [JSON.parse(JSON.stringify(initialProcesses))] builds fresh objects
    with the same contents: on values it is the identity. *)
Definition deepCopy (ps : list Process) : list Process := ps.

Definition initState (initialProcesses : list Process) : SimState :=
  mkState (deepCopy initialProcesses) 0 [] 0 None false.

(** [ganttChart.length > 0 ? ganttChart[ganttChart.length - 1].end : 0] *)
Definition totalExecutionTime (g : list GanttSegment) : Z :=
  if (0 <? length g)%nat then from_option seg_end 0 (g !! (length g - 1)%nat) else 0.

Definition finish {P} (s : SimStateOf P) : SimResultOf P :=
  mkResult (processes s) (ganttChart s) (totalExecutionTime (ganttChart s)) (idleTime s).

(** A bound on the number of iterations: idle ticks only happen before the
    last arrival, and every other tick consumes one unit of remaining work. *)
Definition maxArrival (ps : list Process) : Z :=
  foldr (fun p m => Z.max (arrival p) m) 0 ps.

Definition sumZ {A} (f : A → Z) (l : list A) : Z :=
  foldr (fun x acc => f x + acc) 0 l.

Definition workLeft (ps : list Process) : Z :=
  sumZ (fun p => Z.max 0 (remaining p)) ps.

Definition ticksBound (ps : list Process) (t : Z) : nat :=
  Z.to_nat (Z.max 0 (maxArrival ps - t) + workLeft ps).

Definition runPrioritySimulation (initialProcesses : list Process) : option SimResult :=
  let s0 := initState initialProcesses in
  s ← loop (ticksBound (processes s0) 0) s0; Some (finish s).

(** The states at the head of the loop during a run on [ps]. *)
Inductive reachable (ps : list Process) : SimState → Prop :=
| reach_init : reachable ps (initState ps)
| reach_tick s s' :
    reachable ps s → anyRemaining (processes s) = true → tick s = Some s' →
    reachable ps s'.

(** The processes selected tick by tick ([None] for an idle tick). *)
Fixpoint trace (fuel : nat) (s : SimState) : list (option string) :=
  if anyRemaining (processes s) then
    match fuel, tick s with
    | S n, Some s' => ((fun ip => pid ip.2) <$> runningProcess s) :: trace n s'
    | _, _ => []
    end
  else [].

Definition schedule (initialProcesses : list Process) : list (option string) :=
  let s0 := initState initialProcesses in
  trace (ticksBound (processes s0) 0) s0.

(** ** 3. Initial data *)

(** A record as [addProcess] and [initialProcesses] build them. *)
Definition newProcess (i : Z) (name : string) (a b pr : Z) : Process :=
  mkProcess i name a b pr b 0 0 0 [].

Definition P1 := newProcess 1 "P1" 0 8 2.
Definition P2 := newProcess 2 "P2" 1 4 1.
Definition P3 := newProcess 3 "P3" 2 9 4.

Definition initialProcesses : list Process := [P1; P2; P3].

Definition initialMetrics : Metrics := mkMetrics 0 0 0 0.

(** ** 4. The React component: [handleProcessChange] and [handleSubmit] *)

(** [{ ...p, [field]: numValue }] for the three editable fields. *)
Inductive Field := FArrival | FBurst | FPriority.

Definition set_field {T} (f : Field) (v : Z) (p : ProcessOf T) : ProcessOf T :=
  match f with
  | FArrival =>
      mkProcess (id p) (pid p) v (burst p) (priority p) (remaining p)
                (completionTime p) (turnaroundTime p) (waitingTime p) (startTimes p)
  | FBurst =>
      mkProcess (id p) (pid p) (arrival p) v (priority p) (remaining p)
                (completionTime p) (turnaroundTime p) (waitingTime p) (startTimes p)
  | FPriority =>
      mkProcess (id p) (pid p) (arrival p) (burst p) v (remaining p)
                (completionTime p) (turnaroundTime p) (waitingTime p) (startTimes p)
  end.

(** [handleProcessChange] on a parsed integer: rejected edits leave the
    list as it is. *)
Definition handleProcessChange (index : nat) (f : Field) (numValue : Z)
    (inputProcesses : list Process) : list Process :=
  match f with
  | FBurst | FPriority =>
      if numValue <=? 0 then inputProcesses
      else imap (fun i p => if (i =? index)%nat then set_field f numValue p else p) inputProcesses
  | FArrival =>
      if numValue <? 0 then inputProcesses
      else imap (fun i p => if (i =? index)%nat then set_field f numValue p else p) inputProcesses
  end.

(** An integer-valued JavaScript number as a binary64 float (exact below
    2^53). *)
Definition toNumber (z : Z) : float :=
  if z <? 0 then (- of_uint63 (Uint63.of_Z (- z)))%float
  else of_uint63 (Uint63.of_Z z).

(** [totalTime > 0 ? ((totalTime - idleTime) / totalTime) * 100 : 0] *)
Definition cpuUtilization (totalTime idleTime : Z) : float :=
  if 0 <? totalTime then
    (toNumber (totalTime - idleTime) / toNumber totalTime * 100)%float
  else 0%float.

(** The same expression without its guard. *)
Definition cpuUtilizationUnguarded (totalTime idleTime : Z) : float :=
  (toNumber (totalTime - idleTime) / toNumber totalTime * 100)%float.

(** [p.burst <= 0 || p.priority <= 0 || p.arrival < 0]; the [isNaN] tests
    are always false on integers. *)
Definition invalidProcess (p : Process) : bool :=
  (burst p <=? 0) || (priority p <=? 0) || (arrival p <? 0).

(** What [handleSubmit] leaves in the component's state. *)
Record Submitted := mkSubmitted {
  errorMessage : string;
  resultProcesses : option (list Process);   (* [None]: left unchanged *)
  shownGantt : list GanttSegment;
  metrics : Metrics
}.

Definition handleSubmit (inputProcesses : list Process) : option Submitted :=
  if (length inputProcesses =? 0)%nat then
    Some (mkSubmitted "Please add at least one process." None [] initialMetrics)
  else
    match List.find invalidProcess inputProcesses with
    | Some p =>
        Some (mkSubmitted
                ("Error in " +:+ pid p +:+
                 ": All values must be valid positive numbers (Burst and Priority >= 1, Arrival >= 0).")
                None [] initialMetrics)
    | None =>
        let sortedProcesses := stableSort (fun a b => arrival a - arrival b) inputProcesses in
        r ← runPrioritySimulation sortedProcesses;
        let totalTAT := sumZ turnaroundTime (res_processes r) in
        let totalWT := sumZ waitingTime (res_processes r) in
        let n := toNumber (Z.of_nat (length (res_processes r))) in
        Some (mkSubmitted "" (Some (res_processes r)) (gantt r)
                (mkMetrics (toNumber totalTAT / n)%float (toNumber totalWT / n)%float
                           (cpuUtilization (totalTime r) (res_idleTime r))
                           (totalTime r)))
    end.

(** ** 5. Core simulation logic, on an object store *)

Abbreviation loc := positive.

(** The store: process objects, whose [startTimes] field refers to an
    array object, and the arrays of ticks. *)
Record Heap := mkHeap {
  objects : gmap loc (ProcessOf loc);
  arrays : gmap loc (list Z)
}.

(** The value of the object at [l], its array included. *)
Definition readObject (h : Heap) (l : loc) : option Process :=
  o ← objects h !! l; a ← arrays h !! startTimes o; Some (set_startTimes a o).

(** [JSON.stringify] of an array of process references: the values. *)
Definition stringify (h : Heap) (ls : list loc) : option (list Process) :=
  mapM (readObject h) ls.

(** [JSON.parse] allocates a fresh object, with a fresh array, for every
    serialised record. *)
Definition allocProcess (v : Process) (h : Heap) : loc * Heap :=
  let la := fresh (dom (arrays h)) in
  let lo := fresh (dom (objects h)) in
  (lo, mkHeap (<[lo := set_startTimes la v]> (objects h))
              (<[la := startTimes v]> (arrays h))).

Fixpoint parse (vs : list Process) (h : Heap) : list loc * Heap :=
  match vs with
  | [] => ([], h)
  | v :: vs' =>
      let '(l, h1) := allocProcess v h in
      let '(ls, h2) := parse vs' h1 in
      (l :: ls, h2)
  end.

Abbreviation RefState := (SimStateOf loc).

(** The objects behind an array of references, each with its reference. *)
Definition lookupAll (h : Heap) (ls : list loc) : option (list (loc * ProcessOf loc)) :=
  mapM (fun l => pair l <$> objects h !! l) ls.

Definition anyRemainingRef (h : Heap) (ls : list loc) : option bool :=
  os ← lookupAll h ls; Some (existsb (fun lo => hasWork lo.2) os).

Definition readyQueueRef (h : Heap) (ls : list loc) (t : Z) : option (list (loc * ProcessOf loc)) :=
  os ← lookupAll h ls; Some (filter (fun lo => isReady t lo.2) os).

(** [runningProcess.startTimes.push(t)] when the array is empty. *)
Definition recordStartRef (t : Z) (o : ProcessOf loc) (h : Heap) : option Heap :=
  a ← arrays h !! startTimes o;
  Some (if (length a =? 0)%nat
        then mkHeap (objects h) (<[startTimes o := a ++ [t]]> (arrays h))
        else h).

Definition tickRef (hs : Heap * RefState) : option (Heap * RefState) :=
  let '(h, s) := hs in
  let t := currentTime s in
  q ← readyQueueRef h (processes s) t;
  match q with
  | [] =>
      g ← chartIdle (ganttChart s) (isIdle s) t;
      Some (h, mkState (processes s) (t + 1) g (idleTime s + 1) None true)
  | _ :: _ =>
      '(l, o) ← head (stableSort (fun a b => compareFn a.2 b.2) q);
      '(g, idle, h1) ←
        (if bool_decide (Some (pid o) ≠ lastProcessId s) then
           h1 ← recordStartRef t o h;
           Some (ganttChart s ++ [mkSegment (pid o) t (t + 1) (Some (id o))], false, h1)
         else
           g ← extendLast (ganttChart s) (t + 1); Some (g, isIdle s, h));
      Some (mkHeap (<[l := execute (t + 1) o]> (objects h1)) (arrays h1),
            mkState (processes s) (t + 1) g (idleTime s) (Some (pid o)) idle)
  end.

Fixpoint loopRef (fuel : nat) (hs : Heap * RefState) : option (Heap * RefState) :=
  b ← anyRemainingRef hs.1 (processes hs.2);
  if b : bool then
    match fuel with
    | O => None
    | S n => hs' ← tickRef hs; loopRef n hs'
    end
  else Some hs.

(** The engine called on the references [initialProcesses] in store [h]:
    the store it leaves and the object it returns. *)
Definition runPrioritySimulationRef (h : Heap) (initialProcesses : list loc)
    : option (Heap * SimResultOf loc) :=
  vs ← stringify h initialProcesses;
  let '(ls, h1) := parse vs h in
  '(h2, s) ← loopRef (ticksBound vs 0) (h1, mkState ls 0 [] 0 None false);
  Some (h2, finish s).

(** A caller's store holding the records [vs], and the references to them. *)
Definition storeOf (vs : list Process) : list loc * Heap := parse vs (mkHeap ∅ ∅).

(** ** 6. Specification vocabulary *)

(** The three ways an iteration of the loop can go. *)
Inductive tickCase (s s' : SimState) : Prop :=
| case_idle g :
    readyQueue (processes s) (currentTime s) = [] →
    chartIdle (ganttChart s) (isIdle s) (currentTime s) = Some g →
    s' = mkState (processes s) (currentTime s + 1) g (idleTime s + 1) None true →
    tickCase s s'
| case_switch i p :
    runningProcess s = Some (i, p) →
    Some (pid p) ≠ lastProcessId s →
    s' = mkState (<[i := execute (currentTime s + 1) (recordStart (currentTime s) p)]> (processes s))
                 (currentTime s + 1)
                 (ganttChart s ++ [mkSegment (pid p) (currentTime s) (currentTime s + 1) (Some (id p))])
                 (idleTime s) (Some (pid p)) false →
    tickCase s s'
| case_continue i p g :
    runningProcess s = Some (i, p) →
    Some (pid p) = lastProcessId s →
    extendLast (ganttChart s) (currentTime s + 1) = Some g →
    s' = mkState (<[i := execute (currentTime s + 1) p]> (processes s))
                 (currentTime s + 1) g (idleTime s) (Some (pid p)) (isIdle s) →
    tickCase s s'.

(** The lexicographic key of the comparator. *)
Definition keyLe {T} (a b : ProcessOf T) : Prop :=
  priority a < priority b ∨ (priority a = priority b ∧ arrival a ≤ arrival b).

(** The input contract of the engine: the records that the validation of
    [handleSubmit] lets through. *)
Definition validProcess (p : Process) : Prop :=
  1 ≤ burst p ∧ 1 ≤ priority p ∧ 0 ≤ arrival p.

Definition validInput (ps : list Process) : Prop := Forall validProcess ps.

(** A record whose remaining work is its whole burst, as the records of
    [initialProcesses] and [addProcess] are. *)
Definition unstarted (p : Process) : Prop := remaining p = burst p.

(** The fields no statement of the engine assigns. *)
Definition sameIdentity {T U} (p0 : ProcessOf T) (p : ProcessOf U) : Prop :=
  id p = id p0 ∧ pid p = pid p0 ∧ arrival p = arrival p0 ∧
  burst p = burst p0 ∧ priority p = priority p0.

(** How the copy [p] of the input record [p0] stands at clock [t]: either
    untouched, or partly executed, each executed unit lying after the
    arrival, with its completion fields set once nothing remains. *)
Definition tracks (t : Z) (p0 p : Process) : Prop :=
  sameIdentity p0 p ∧
  (p = p0 ∨
   (0 ≤ remaining p < remaining p0 ∧
    arrival p0 + (remaining p0 - remaining p) ≤ t ∧
    (remaining p = 0 →
     completionTime p ≤ t ∧
     arrival p0 + remaining p0 ≤ completionTime p ∧
     turnaroundTime p = completionTime p - arrival p0 ∧
     waitingTime p = turnaroundTime p - burst p0))).

(** Timelines: [covers a g b] when the segments of [g], in order, are non
    empty and tile the interval from [a] to [b]. *)
Fixpoint covers (a : Z) (g : list GanttSegment) (b : Z) : Prop :=
  match g with
  | [] => a = b
  | x :: g' => seg_start x = a ∧ seg_start x < seg_end x ∧ covers (seg_end x) g' b
  end.

(** No two neighbours with the same label. *)
Fixpoint alternating (g : list GanttSegment) : Prop :=
  match g with
  | x :: g' => match g' with y :: _ => seg_pid x ≠ seg_pid y | [] => True end ∧ alternating g'
  | [] => True
  end.

Definition lastLabel (g : list GanttSegment) : option string := seg_pid <$> last g.

Definition inSegment (t : Z) (x : GanttSegment) : Prop :=
  seg_start x ≤ t < seg_end x.

(** What makes [extendLast] safe. *)
Definition chartSafe (s : SimState) : Prop :=
  isIdle s = true ∨ lastProcessId s ≠ None → ganttChart s ≠ [].

(** The flags of the loop against the last segment of the chart. *)
Definition flagsAgree (s : SimState) : Prop :=
  (isIdle s = true → lastLabel (ganttChart s) = Some "IDLE") ∧
  (isIdle s = false → lastLabel (ganttChart s) ≠ Some "IDLE") ∧
  (∀ x, lastProcessId s = Some x → lastLabel (ganttChart s) = Some x) ∧
  (lastProcessId s = None → isIdle s = true ∨ ganttChart s = []).

(** The clock against the idle counter and the executed work. *)
Definition clockInv (ps : list Process) (s : SimState) : Prop :=
  currentTime s + sumZ remaining (processes s) = idleTime s + sumZ remaining ps ∧
  0 ≤ idleTime s ≤ currentTime s ∧
  idleTime s ≤ maxArrival ps.

(** What holds at the head of the loop throughout a run on [ps]. *)
Definition engineInv (ps : list Process) (s : SimState) : Prop :=
  Forall2 (tracks (currentTime s)) ps (processes s) ∧
  clockInv ps s ∧
  covers 0 (ganttChart s) (currentTime s) ∧
  chartSafe s.

(** No process is named like the idle segment. *)
Definition noIdleName (ps : list Process) : Prop :=
  Forall (λ p, pid p ≠ "IDLE") ps.

(** A timeline that tiles the ticks from 0 to [total]: non-empty segments,
    each starting where its predecessor ends, every tick below [total] in
    a segment, every tick of a segment below [total], no tick in two. *)
Definition tiles (g : list GanttSegment) (total : Z) : Prop :=
  (∀ k x, g !! k = Some x → seg_start x < seg_end x) ∧
  (∀ x, g !! 0%nat = Some x → seg_start x = 0) ∧
  (∀ k x y, g !! k = Some x → g !! S k = Some y → seg_end x = seg_start y) ∧
  (∀ t, 0 ≤ t < total ↔ ∃ k x, g !! k = Some x ∧ inSegment t x) ∧
  (∀ t j k x y, g !! j = Some x → g !! k = Some y →
                inSegment t x → inSegment t y → j = k).

(** Neighbouring segments carry different labels. *)
Definition noRepeat (g : list GanttSegment) : Prop :=
  ∀ k x y, g !! k = Some x → g !! S k = Some y → seg_pid x ≠ seg_pid y.

(** Two processes that tie on the comparator, [i] before [j] in the
    input, both with work to do. *)
Definition tied (ps : list Process) (i j : nat) : Prop :=
  (i < j)%nat ∧
  ∃ pi pj, ps !! i = Some pi ∧ ps !! j = Some pj ∧
           priority pi = priority pj ∧ arrival pi = arrival pj.

(** The copy of the later of two tied processes is untouched until the
    earlier has completed, and completes after it. *)
Definition tieOrder (ps : list Process) (i j : nat) (s : SimState) : Prop :=
  ∀ pj qi qj, ps !! j = Some pj → processes s !! i = Some qi → processes s !! j = Some qj →
    qj = pj ∨
    (remaining qi = 0 ∧ completionTime qi ≤ currentTime s ∧
     (remaining qj = 0 → completionTime qi < completionTime qj)).

(** ** 7. Scenarios *)

(** Scenario B with the last segment of P1 ending at tick [c]. *)
Definition scenarioB (c : Z) : Prop :=
  ∃ r p1 p2,
    runPrioritySimulation [P1; P2] = Some r ∧
    schedule [P1; P2] =
      Some "P1" :: replicate 4 (Some "P2") ++ replicate (Z.to_nat (c - 5)) (Some "P1") ∧
    gantt r = [mkSegment "P1" 0 1 (Some 1); mkSegment "P2" 1 5 (Some 2);
               mkSegment "P1" 5 c (Some 1)] ∧
    res_processes r = [p1; p2] ∧
    completionTime p2 = 5 ∧ completionTime p1 = c.

(** Scenario C: one process that arrives at tick 3. *)
Definition scenarioC : list Process := [newProcess 1 "P1" 3 2 1].

(** A process that carries the label of idle segments. *)
Definition idleNamed : list Process := [newProcess 1 "IDLE" 1 1 1].

(** The form after the burst of P1 is edited from 8 to 3, and from 8 to
    20: [handleProcessChange] leaves [remaining] at 8. *)
Definition loweredBurst : list Process := handleProcessChange 0 FBurst 3 initialProcesses.
Definition raisedBurst : list Process := handleProcessChange 0 FBurst 20 initialProcesses.

(** Two processes with the same priority and the same arrival. *)
Definition twins : list Process := [newProcess 1 "P1" 0 2 1; newProcess 2 "P2" 0 2 1].

(** Scenario B after its first tick: P1 has run one unit, P2 has just
    arrived. *)
Definition preemptionState : SimState :=
  mkState [mkProcess 1 "P1" 0 8 2 7 0 0 0 [0]; P2] 1
          [mkSegment "P1" 0 1 (Some 1)] 0 (Some "P1") false.

(** ** 8. Vocabulary of the reference-level model *)

(** The store [h] extends [h0]: every object and every array of [h0] is in
    [h], with the same contents. *)
Definition extends (h0 h : Heap) : Prop :=
  objects h0 ⊆ objects h ∧ arrays h0 ⊆ arrays h.

(** The references [ls] are the engine's own: they and the arrays of their
    objects are not in the caller's store [h0]. *)
Definition private (h0 h : Heap) (ls : list loc) : Prop :=
  Forall (λ l, objects h0 !! l = None ∧
               ∃ o, objects h !! l = Some o ∧ arrays h0 !! startTimes o = None) ls.

(** The value of a stored object. *)
Definition valueOf (h : Heap) (o : ProcessOf loc) : Process :=
  set_startTimes (default [] (arrays h !! startTimes o)) o.

(** The references [ls] stand for the list of values [vs]: distinct
    objects with distinct arrays, read as the records of [vs]. *)
Definition represents (h : Heap) (ls : list loc) (vs : list Process) : Prop :=
  NoDup ls ∧
  Forall2 (λ l v, readObject h l = Some v) ls vs ∧
  ∀ i j li lj oi oj, ls !! i = Some li → ls !! j = Some lj →
    objects h !! li = Some oi → objects h !! lj = Some oj →
    startTimes oi = startTimes oj → i = j.

(** A state of the reference-level engine against a state of the
    value-level one. *)
Definition refines (hs : Heap * RefState) (s : SimState) : Prop :=
  represents hs.1 (processes hs.2) (processes s) ∧
  currentTime hs.2 = currentTime s ∧ ganttChart hs.2 = ganttChart s ∧
  idleTime hs.2 = idleTime s ∧ lastProcessId hs.2 = lastProcessId s ∧
  isIdle hs.2 = isIdle s.

(** The three ways an iteration goes on the store. *)
Inductive tickRefCase (h : Heap) (s : RefState) : Heap → RefState → Prop :=
| ref_idle g :
    readyQueueRef h (processes s) (currentTime s) = Some [] →
    chartIdle (ganttChart s) (isIdle s) (currentTime s) = Some g →
    tickRefCase h s h (mkState (processes s) (currentTime s + 1) g (idleTime s + 1) None true)
| ref_switch q l o h1 :
    readyQueueRef h (processes s) (currentTime s) = Some q →
    head (stableSort (λ a b : loc * ProcessOf loc, compareFn a.2 b.2) q) = Some (l, o) →
    Some (pid o) ≠ lastProcessId s →
    recordStartRef (currentTime s) o h = Some h1 →
    tickRefCase h s
      (mkHeap (<[l:=execute (currentTime s + 1) o]> (objects h1)) (arrays h1))
      (mkState (processes s) (currentTime s + 1)
               (ganttChart s ++ [mkSegment (pid o) (currentTime s) (currentTime s + 1) (Some (id o))])
               (idleTime s) (Some (pid o)) false)
| ref_continue q l o g :
    readyQueueRef h (processes s) (currentTime s) = Some q →
    head (stableSort (λ a b : loc * ProcessOf loc, compareFn a.2 b.2) q) = Some (l, o) →
    Some (pid o) = lastProcessId s →
    extendLast (ganttChart s) (currentTime s + 1) = Some g →
    tickRefCase h s
      (mkHeap (<[l:=execute (currentTime s + 1) o]> (objects h)) (arrays h))
      (mkState (processes s) (currentTime s + 1) g (idleTime s) (Some (pid o)) (isIdle s)).

(** ** 9. The rest of the component: the form, the chart, the table *)

(** The state that the handlers of the form share: [inputProcesses] and
    [processCounter]. *)
Record Form := mkForm {
  inputProcesses : list Process;
  processCounter : Z
}.

(** [useState(initialProcesses)] and [useState(4)] *)
Definition initialForm : Form := mkForm initialProcesses 4.

(** The template [`P${processCounter}`]: the letter P and the decimal
    digits of the counter. *)
Definition pidOf (n : Z) : string := "P" +:+ pretty n.

(** [addProcess]: [prev[prev.length - 1]] is [undefined] on an empty
    form.  The updater of [setInputProcesses] and the one of
    [setProcessCounter] that it queues are each applied once, as React does
    outside its development-only double invocation; the id and the pid are
    read from the [processCounter] of the render. *)
Definition addProcess (f : Form) : Form :=
  let prev := inputProcesses f in
  let lastP := prev !! (length prev - 1)%nat in
  let defaultAT := match lastP with Some p => arrival p + 1 | None => 0 end in
  let defaultP := match lastP with Some p => Z.max 1 (priority p + 1) | None => 1 end in
  let newProcess :=
    mkProcess (processCounter f) (pidOf (processCounter f)) defaultAT 5 defaultP 5 0 0 0 [] in
  mkForm (prev ++ [newProcess]) (processCounter f + 1).

(** [removeProcess]: [prev.filter(p => p.id !== id)] *)
Definition removeProcess (i : Z) (f : Form) : Form :=
  mkForm (filter (fun p => id p ≠ i) (inputProcesses f)) (processCounter f).

(** [handleProcessChange] as a step of the form. *)
Definition changeProcess (index : nat) (fld : Field) (numValue : Z) (f : Form) : Form :=
  mkForm (handleProcessChange index fld numValue (inputProcesses f)) (processCounter f).

(** The forms that the three handlers produce from the initial one (the
    edits being those whose text parses to an integer). *)
Inductive formReachable : Form → Prop :=
| form_initial : formReachable initialForm
| form_add f : formReachable f → formReachable (addProcess f)
| form_remove i f : formReachable f → formReachable (removeProcess i f)
| form_change k fld v f : formReachable f → formReachable (changeProcess k fld v f).

(** [COLOR_CLASSES] and [getColorClass]; [%] is the remainder that takes
    the sign of the dividend, an index below 0 reads [undefined]
    ([None]). *)
Definition COLOR_CLASSES : list string :=
  ["bg-red-400"; "bg-orange-400"; "bg-yellow-400"; "bg-lime-400";
   "bg-green-400"; "bg-sky-400"; "bg-indigo-400"; "bg-violet-400"].

Definition getColorClass (i : option Z) : option string :=
  match i with
  | None => Some "bg-gray-200 text-gray-700"
  | Some n =>
      if n =? 0 then Some "bg-gray-200 text-gray-700"
      else
        let k := Z.rem (n - 1) (Z.of_nat (length COLOR_CLASSES)) in
        if k <? 0 then None else COLOR_CLASSES !! Z.to_nat k
  end.

(** What the [GanttChart] memo renders: a bar per segment and the time
    markers; [None] is the placeholder paragraph of an empty chart. *)
Record Bar := mkBar {
  bar_key : nat;
  bar_label : string;
  bar_width : Z;
  bar_color : option string
}.

Record Marker := mkMarker {
  marker_time : Z;     (* the key and the text of the marker *)
  marker_left : Z
}.

Record Chart := mkChart {
  chartWidth : Z;
  bars : list Bar;
  timeMarkers : list Marker
}.

Definition unitWidth : Z := 40.

(** [segment.pid === 'IDLE' ? 'color-idle' : getColorClass(segment.id)] *)
Definition colorClass (x : GanttSegment) : option string :=
  if bool_decide (seg_pid x = "IDLE") then Some "color-idle" else getColorClass (seg_id x).

(** [if (!timeMarkers.some(m => m.key === segment.end.toString())) push] *)
Definition pushMarker (ms : list Marker) (x : GanttSegment) : list Marker :=
  if existsb (fun m => marker_time m =? seg_end x) ms then ms
  else ms ++ [mkMarker (seg_end x) (seg_end x * unitWidth)].

Definition GanttChart (gantt : list GanttSegment) (totalTime : Z) : option Chart :=
  if (length gantt =? 0)%nat then None
  else Some (mkChart (totalTime * unitWidth)
               (imap (fun index x =>
                        mkBar index (seg_pid x) ((seg_end x - seg_start x) * unitWidth)
                              (colorClass x)) gantt)
               (foldl pushMarker [mkMarker 0 0] gantt)).

(** A chart whose bars and markers line up with the timeline [g] of
    total time [total]: the chart is [total] * 40 wide; there is a bar per
    segment, in order, keyed by its index, labelled with the pid and 40
    wide per tick of the segment, so at least 40 wide; the widths add up to
    the width of the chart; there is a marker at 0 and one per segment, at
    the end of the segment, each at the right edge of the bars before
    it. *)
Definition alignedChart (g : list GanttSegment) (total : Z) (c : Chart) : Prop :=
  chartWidth c = total * 40 ∧
  length (bars c) = length g ∧
  (∀ i x, g !! i = Some x →
          ∃ b, bars c !! i = Some b ∧ bar_key b = i ∧ bar_label b = seg_pid x ∧
               bar_width b = (seg_end x - seg_start x) * 40) ∧
  Forall (λ b, 40 ≤ bar_width b) (bars c) ∧
  sumZ bar_width (bars c) = chartWidth c ∧
  timeMarkers c
  = mkMarker 0 0 :: ((λ x, mkMarker (seg_end x) (seg_end x * 40)) <$> g) ∧
  ∀ k m, timeMarkers c !! k = Some m →
         marker_left m = sumZ bar_width (take k (bars c)).

(** What the [ResultsTable] memo renders: a row per result, in the order
    of the ids; [x || '-'] shows a dash for 0. *)
Inductive Cell := Dash | Num (z : Z).

Definition orDash (z : Z) : Cell := if z =? 0 then Dash else Num z.

Record Row := mkRow {
  row_pid : string;
  row_color : option string;
  row_arrival : Z;
  row_burst : Z;
  row_priority : Z;
  row_CT : Cell;
  row_TAT : Cell;
  row_WT : Cell
}.

Definition rowOf (p : Process) : Row :=
  mkRow (pid p) (getColorClass (Some (id p))) (arrival p) (burst p) (priority p)
        (orDash (completionTime p)) (orDash (turnaroundTime p)) (orDash (waitingTime p)).

Definition ResultsTable (resultProcesses : list Process) : list Row :=
  rowOf <$> stableSort (fun a b => id a - id b) resultProcesses.

(** ** 10. More vocabulary of the engine *)

(** The ticks that a segment contributes to the idle time: its length when
    it carries no process id. *)
Definition idleLen (x : GanttSegment) : Z :=
  match seg_id x with None => seg_end x - seg_start x | Some _ => 0 end.

(** The ticks that a segment contributes to the process named [label]. *)
Definition runLen (label : string) (x : GanttSegment) : Z :=
  if bool_decide (seg_pid x = label) then seg_end x - seg_start x else 0.

(** Where a segment of the chart comes from: an idle stretch before the
    last arrival, or a stretch of one of the input records, after its
    arrival. *)
Definition segKnown (ps : list Process) (x : GanttSegment) : Prop :=
  (seg_id x = None ∧ seg_pid x = "IDLE" ∧ seg_end x ≤ maxArrival ps) ∨
  (∃ p0, p0 ∈ ps ∧ seg_pid x = pid p0 ∧ seg_id x = Some (id p0) ∧
         arrival p0 ≤ seg_start x).

(** The chart against the idle counter and the flags of the loop. *)
Definition idleInv (ps : list Process) (s : SimState) : Prop :=
  Forall (segKnown ps) (ganttChart s) ∧
  sumZ idleLen (ganttChart s) = idleTime s ∧
  (isIdle s = true → ∃ y, last (ganttChart s) = Some y ∧ seg_id y = None) ∧
  (∀ x, lastProcessId s = Some x →
        ∃ y, last (ganttChart s) = Some y ∧ seg_pid y = x ∧ seg_id y ≠ None).

(** The chart against the work done on one record, and its first
    dispatch: the segments labelled with the pid add up to the executed
    work; an untouched record has no segment, a touched one that came with
    no start time has the start of its first segment as its one start
    time. *)
Definition workEntry (g : list GanttSegment) (t : Z) (p0 p : Process) : Prop :=
  sumZ (runLen (pid p0)) g = remaining p0 - remaining p ∧
  ((p = p0 ∧ ∀ x, x ∈ g → seg_pid x ≠ pid p0) ∨
   (startTimes p0 = [] →
    ∃ t0, startTimes p = [t0] ∧ arrival p0 ≤ t0 ∧
          t0 + (remaining p0 - remaining p) ≤ t ∧
          (remaining p = 0 → t0 + remaining p0 ≤ completionTime p) ∧
          (∃ x, x ∈ g ∧ seg_start x = t0 ∧ seg_pid x = pid p0) ∧
          (∀ x, x ∈ g → seg_pid x = pid p0 → t0 ≤ seg_start x))).

Definition workInv (ps : list Process) (s : SimState) : Prop :=
  ∀ i p0 p, ps !! i = Some p0 → processes s !! i = Some p →
            workEntry (ganttChart s) (currentTime s) p0 p.

(** The label of the segment an iteration writes. *)
Definition tickLabel (s : SimState) : string :=
  match runningProcess s with
  | None => "IDLE"
  | Some (_, p) => pid p
  end.

(** Removing what the engine reads of [burst] only to derive the waiting
    time. *)
Definition eraseBurst (p : Process) : Process :=
  mkProcess (id p) (pid p) (arrival p) 0 (priority p) (remaining p)
            (completionTime p) (turnaroundTime p) 0 (startTimes p).

Definition eraseState (s : SimState) : SimState :=
  mkState (eraseBurst <$> processes s) (currentTime s) (ganttChart s)
          (idleTime s) (lastProcessId s) (isIdle s).

Definition eraseEntry (ip : nat * Process) : nat * Process := (ip.1, eraseBurst ip.2).

(** What a form edit may change in a record: the edited field. *)
Definition editedOnly (fld : Field) (p p' : Process) : Prop :=
  id p' = id p ∧ pid p' = pid p ∧ remaining p' = remaining p ∧
  completionTime p' = completionTime p ∧ turnaroundTime p' = turnaroundTime p ∧
  waitingTime p' = waitingTime p ∧ startTimes p' = startTimes p ∧
  (fld ≠ FArrival → arrival p' = arrival p) ∧
  (fld ≠ FBurst → burst p' = burst p) ∧
  (fld ≠ FPriority → priority p' = priority p).

(** The burst a record was created with: the one of its initial record,
    or the 5 of [addProcess]. *)
Definition createdBurst (i : Z) : Z :=
  match List.find (λ q, id q =? i) initialProcesses with
  | Some q => burst q
  | None => 5
  end.

(** The records of a form as the handlers keep them. *)
Definition formRecord (counter : Z) (p : Process) : Prop :=
  validProcess p ∧ pid p = pidOf (id p) ∧ 1 ≤ id p < counter ∧
  remaining p = createdBurst (id p) ∧ startTimes p = [].

Definition formInv (f : Form) : Prop :=
  4 ≤ processCounter f ∧
  Forall (formRecord (processCounter f)) (inputProcesses f) ∧
  NoDup (id <$> inputProcesses f).

(** The chart [g] shows label [l] at tick [t]. *)
Definition shows (g : list GanttSegment) (t : Z) (l : string) : Prop :=
  ∃ x, x ∈ g ∧ inSegment t x ∧ seg_pid x = l.

(** ** 11. Reordering the input *)

(** Two records that the comparator of the engine cannot tell apart. *)
Definition tiedKey (a b : Process) : Prop :=
  priority a = priority b ∧ arrival a = arrival b.

(** The list with its elements at [k] and [k + 1] exchanged. *)
Definition swapAt (k : nat) (l : list Process) : list Process :=
  match l !! k, l !! S k with
  | Some a, Some b => <[k := b]> (<[S k := a]> l)
  | _, _ => l
  end.

(** The index of an element after the exchange. *)
Definition tr (k i : nat) : nat :=
  if decide (i = k) then S k else if decide (i = S k) then k else i.

Definition swapState (k : nat) (s : SimState) : SimState :=
  mkState (swapAt k (processes s)) (currentTime s) (ganttChart s)
          (idleTime s) (lastProcessId s) (isIdle s).

(** The elements at [k] and [k + 1] exist and are not tied. *)
Definition swappable (k : nat) (l : list Process) : Prop :=
  (S k < length l)%nat ∧
  ∀ a b, l !! k = Some a → l !! S k = Some b → ¬ tiedKey a b.

(** [l'] is [l] after exchanges of neighbours that are not tied: the
    records in another order, tied records in the same order. *)
Inductive reorders : list Process → list Process → Prop :=
| reorders_refl l : reorders l l
| reorders_step k l l' : swappable k l → reorders (swapAt k l) l' → reorders l l'.

(** * Proofs *)

(** ** The stable sort and its first element *)

Section Sorting.
Context {A : Type} (cmp : A → A → Z).
Hypothesis cmp_trans : ∀ a b c, cmp a b ≤ 0 → cmp b c ≤ 0 → cmp a c ≤ 0.
Hypothesis cmp_total : ∀ a b, 0 < cmp a b → cmp b a ≤ 0.

Lemma cmp_refl a : cmp a a ≤ 0.
Proof. destruct (Z_lt_le_dec 0 (cmp a a)); [by apply cmp_total | done]. Qed.

Lemma head_insertBy x l :
  head (insertBy cmp x l) =
  Some (match head l with
        | Some y => if cmp x y <=? 0 then x else y
        | None => x
        end).
Proof. destruct l as [|y l]; simpl; [done|]. by destruct (cmp x y <=? 0). Qed.

Lemma stableSort_cons x l :
  stableSort cmp (x :: l) = insertBy cmp x (stableSort cmp l).
Proof. done. Qed.

Lemma head_stableSort_None l : head (stableSort cmp l) = None ↔ l = [].
Proof.
  destruct l as [|x l]; [done|].
  rewrite stableSort_cons, head_insertBy. split; intros ?; discriminate.
Qed.

(** The head of the sorted list is the first of the least elements. *)
Lemma head_stableSort_split l x :
  head (stableSort cmp l) = Some x →
  ∃ l1 l2, l = l1 ++ x :: l2 ∧
           Forall (λ y, 0 < cmp y x) l1 ∧ Forall (λ y, cmp x y ≤ 0) l2.
Proof.
  revert x. induction l as [|a l IH]; intros x; [done|].
  rewrite stableSort_cons, head_insertBy.
  destruct (head (stableSort cmp l)) as [y|] eqn:Hy.
  - destruct (IH y eq_refl) as (l1 & l2 & -> & H1 & H2).
    destruct (Z.leb_spec (cmp a y) 0) as [Hle|Hgt]; intros [= <-].
    + exists [], (l1 ++ y :: l2). split; [done|]. split; [constructor|].
      rewrite Forall_app, Forall_cons. split_and!.
      * eapply Forall_impl; [exact H1|]. simpl. intros z Hz.
        eapply cmp_trans; [exact Hle|]. by apply cmp_total.
      * done.
      * eapply Forall_impl; [exact H2|]. simpl. intros z Hz.
        by eapply cmp_trans.
    + exists (a :: l1), l2. split; [done|]. split; [by constructor|done].
  - apply head_stableSort_None in Hy as ->. intros [= <-].
    exists [], []. repeat constructor.
Qed.
End Sorting.

Lemma stableSort_fmap {A B} (f : A → B) (cmpA : A → A → Z) (cmpB : B → B → Z) l :
  (∀ a b, cmpA a b = cmpB (f a) (f b)) →
  f <$> stableSort cmpA l = stableSort cmpB (f <$> l).
Proof.
  intros Hc. induction l as [|x l IH]; [done|].
  rewrite fmap_cons, !stableSort_cons, <- IH.
  generalize (stableSort cmpA l). intros k.
  induction k as [|y k IHk]; csimpl; [done|].
  rewrite <- Hc. destruct (cmpA x y <=? 0); csimpl; [done|]. by f_equal.
Qed.

(** ** The validation of [handleSubmit] *)

Lemma validProcess_iff p : validProcess p ↔ invalidProcess p = false.
Proof.
  unfold validProcess, invalidProcess.
  rewrite !orb_false_iff, !Z.leb_gt, Z.ltb_ge. lia.
Qed.

Lemma find_invalid_None ps : List.find invalidProcess ps = None ↔ validInput ps.
Proof.
  unfold validInput. induction ps as [|p ps IH]; simpl.
  - split; [constructor|done].
  - rewrite Forall_cons, validProcess_iff, <- IH.
    destruct (invalidProcess p); intuition congruence.
Qed.

(** ** The comparator *)

Lemma compareFn_le {T} (a b : ProcessOf T) : compareFn a b ≤ 0 ↔ keyLe a b.
Proof. unfold compareFn, keyLe. case_bool_decide; lia. Qed.

Lemma compareFn_trans {T} (a b c : ProcessOf T) :
  compareFn a b ≤ 0 → compareFn b c ≤ 0 → compareFn a c ≤ 0.
Proof. rewrite !compareFn_le. unfold keyLe. lia. Qed.

Lemma compareFn_total {T} (a b : ProcessOf T) :
  0 < compareFn a b → compareFn b a ≤ 0.
Proof. unfold compareFn. repeat case_bool_decide; lia. Qed.

(** ** The ready queue *)

Lemma isReady_true {T} t (p : ProcessOf T) :
  isReady t p = true ↔ arrival p ≤ t ∧ 0 < remaining p.
Proof. unfold isReady. rewrite andb_true_iff, Z.leb_le, Z.ltb_lt. done. Qed.

Lemma elem_of_readyQueue ps t i p :
  (i, p) ∈ readyQueue ps t ↔ ps !! i = Some p ∧ isReady t p = true.
Proof.
  unfold readyQueue. rewrite list_elem_of_filter, elem_of_lookup_imap. simpl.
  rewrite Is_true_true. split.
  - intros (? & j & q & [= -> ->] & ?). done.
  - intros [? ?]. split; [done|]. by exists i, p.
Qed.

Lemma imap_pair_sorted {B} (l : list B) k :
  StronglySorted (λ a b : nat * B, (a.1 < b.1)%nat) (imap (λ i, pair (k + i)%nat) l).
Proof.
  revert k. induction l as [|x l IH]; intros k; simpl; [constructor|].
  constructor.
  - erewrite imap_ext; [apply (IH (S k))|]. intros; simpl. f_equal. lia.
  - apply Forall_forall. intros [j y] (i & z & [= -> ->] & _)%elem_of_lookup_imap.
    simpl. lia.
Qed.

Lemma StronglySorted_filter {B} (R : relation B) (P : B → Prop) `{∀ x, Decision (P x)} l :
  StronglySorted R l → StronglySorted R (filter P l).
Proof.
  induction 1 as [|x l Hs IH Hall]; [constructor|].
  rewrite filter_cons. case_decide; [|done].
  constructor; [done|]. apply Forall_forall. intros y [_ Hy]%list_elem_of_filter.
  by eapply Forall_forall in Hall.
Qed.

Lemma readyQueue_sorted ps t :
  StronglySorted (λ a b : nat * Process, (a.1 < b.1)%nat) (readyQueue ps t).
Proof.
  unfold readyQueue. apply StronglySorted_filter.
  erewrite imap_ext; [apply (imap_pair_sorted ps 0)|]. done.
Qed.

Lemma readyQueue_nil ps t :
  readyQueue ps t = [] ↔ ∀ i p, ps !! i = Some p → isReady t p = false.
Proof.
  split.
  - intros Hq i p Hi. destruct (isReady t p) eqn:Hr; [|done].
    assert ((i, p) ∈ readyQueue ps t) as Hin by by apply elem_of_readyQueue.
    rewrite Hq in Hin. by apply not_elem_of_nil in Hin.
  - intros Hn. destruct (readyQueue ps t) as [|[i p] q] eqn:Hq; [done|].
    assert ((i, p) ∈ readyQueue ps t) as Hin by (rewrite Hq; left).
    apply elem_of_readyQueue in Hin as [Hi Hr]. by rewrite (Hn i p Hi) in Hr.
Qed.

(** ** The running process *)

Lemma runningProcess_None s :
  runningProcess s = None ↔ readyQueue (processes s) (currentTime s) = [].
Proof. unfold runningProcess. apply head_stableSort_None. Qed.

(** The running process is a ready process of [processes], least for the
    key (priority, arrival), and the first such in the order of the array. *)
Lemma runningProcess_spec s i p :
  runningProcess s = Some (i, p) →
  processes s !! i = Some p ∧ isReady (currentTime s) p = true ∧
  ∀ j q, processes s !! j = Some q → isReady (currentTime s) q = true →
         keyLe p q ∧ (keyLe q p → (i ≤ j)%nat).
Proof.
  unfold runningProcess. intros Hh.
  apply head_stableSort_split in Hh as (l1 & l2 & Hq & H1 & H2);
    [|intros; by eapply compareFn_trans|intros; by apply compareFn_total].
  assert ((i, p) ∈ readyQueue (processes s) (currentTime s)) as Hin
    by (rewrite Hq; set_solver).
  apply elem_of_readyQueue in Hin as [Hi Hr]. split_and!; [done..|].
  intros j q Hj Hrq.
  assert ((j, q) ∈ readyQueue (processes s) (currentTime s)) as Hjq
    by by apply elem_of_readyQueue.
  pose proof (readyQueue_sorted (processes s) (currentTime s)) as Hs.
  rewrite Hq in Hs, Hjq.
  apply elem_of_app in Hjq as [Hjq|Hjq].
  - eapply Forall_forall in H1; [|exact Hjq]. simpl in H1. split.
    + apply compareFn_le. by apply compareFn_total.
    + intros Hle%compareFn_le. lia.
  - apply elem_of_cons in Hjq as [[= -> ->]|Hjq].
    + split; [|done]. apply compareFn_le.
      apply (cmp_refl compareFn); intros; by apply compareFn_total.
    + eapply Forall_forall in H2; [|exact Hjq]. simpl in H2. split.
      * by apply compareFn_le.
      * intros _.
        apply StronglySorted_app in Hs as (_ & _ & Hs).
        apply StronglySorted_cons in Hs as [Hall _].
        eapply Forall_forall in Hall; [|exact Hjq]. simpl in Hall. lia.
Qed.

(** ** The cases of an iteration *)

Lemma tick_cases s s' : tick s = Some s' ↔ tickCase s s'.
Proof.
  unfold tick. split.
  - destruct (readyQueue (processes s) (currentTime s)) as [|x q] eqn:Hq.
    + destruct (chartIdle _ _ _) as [g|] eqn:Hg; simpl; [|done].
      intros [= <-]. by eapply case_idle.
    + destruct (runningProcess s) as [[i p]|] eqn:Hrun; simpl; [|done].
      case_bool_decide as Hne; simpl.
      * intros [= <-]. by eapply case_switch.
      * destruct (extendLast _ _) as [g|] eqn:Hg; simpl; [|done].
        intros [= <-]. eapply case_continue; eauto.
  - intros [g Hq Hg ->|i p Hrun Hne ->|i p g Hrun He Hg ->].
    + rewrite Hq, Hg. done.
    + destruct (readyQueue _ _) eqn:Hq;
        [apply runningProcess_None in Hq; congruence|].
      rewrite Hrun. simpl. by rewrite bool_decide_true.
    + destruct (readyQueue _ _) eqn:Hq;
        [apply runningProcess_None in Hq; congruence|].
      rewrite Hrun. simpl. rewrite bool_decide_false by (intros ?; done).
      rewrite Hg. done.
Qed.

(** ** Field lemmas *)

Lemma execute_remaining {T} t (p : ProcessOf T) :
  remaining (execute t p) = remaining p - 1.
Proof. unfold execute. simpl. by destruct (_ =? 0). Qed.

Lemma execute_sameIdentity {T} t (p : ProcessOf T) : sameIdentity p (execute t p).
Proof. unfold execute, sameIdentity. simpl. by destruct (_ =? 0). Qed.

Lemma recordStart_remaining t p : remaining (recordStart t p) = remaining p.
Proof. unfold recordStart. by destruct (_ =? _)%nat. Qed.

Lemma recordStart_sameIdentity t p : sameIdentity p (recordStart t p).
Proof. unfold recordStart, sameIdentity. by destruct (_ =? _)%nat. Qed.

Lemma sameIdentity_trans {T U V} (a : ProcessOf T) (b : ProcessOf U) (c : ProcessOf V) :
  sameIdentity a b → sameIdentity b c → sameIdentity a c.
Proof. unfold sameIdentity. intros (?&?&?&?&?) (?&?&?&?&?). split_and!; congruence. Qed.

(** ** Sums and array updates *)

Lemma sumZ_insert {A} (f : A → Z) l i x y :
  l !! i = Some x → sumZ f (<[i:=y]> l) = sumZ f l - f x + f y.
Proof.
  revert i. induction l as [|a l IH]; intros [|i] Hi; simplify_eq/=; [lia|].
  rewrite (IH i Hi). lia.
Qed.

Lemma sumZ_ext {A B} (f : A → Z) (g : B → Z) l k :
  Forall2 (λ x y, f x = g y) l k → sumZ f l = sumZ g k.
Proof. induction 1; simpl; congruence. Qed.

Lemma sumZ_nonneg {A} (f : A → Z) l : (∀ x, x ∈ l → 0 ≤ f x) → 0 ≤ sumZ f l.
Proof.
  induction l as [|a l IH]; intros H; simpl; [done|].
  assert (0 ≤ f a) by (apply H; left).
  assert (0 ≤ sumZ f l) by (apply IH; intros; apply H; by right). lia.
Qed.

Lemma Forall2_update_r {A B} (R R' : A → B → Prop) l k i y y' :
  Forall2 R l k → k !! i = Some y →
  (∀ x z, R x z → R' x z) →
  (∀ x, l !! i = Some x → R x y → R' x y') →
  Forall2 R' l (<[i:=y']> k).
Proof.
  intros HF Hk Hw HR.
  destruct (Forall2_lookup_r _ _ _ _ _ HF Hk) as (x & Hl & Hxy).
  rewrite <- (list_insert_id l i x Hl). apply Forall2_insert; [|auto].
  eapply Forall2_impl; [exact HF|done].
Qed.

Lemma maxArrival_nonneg ps : 0 ≤ maxArrival ps.
Proof. induction ps; simpl; lia. Qed.

Lemma maxArrival_ge ps i p : ps !! i = Some p → arrival p ≤ maxArrival ps.
Proof.
  revert i. induction ps as [|a ps IH]; intros [|i] Hi; simplify_eq/=; [lia|].
  specialize (IH i Hi). lia.
Qed.

Lemma maxArrival_ext ps ps' :
  Forall2 (λ p p', arrival p = arrival p') ps ps' → maxArrival ps = maxArrival ps'.
Proof. induction 1; simpl; congruence. Qed.

Lemma anyRemaining_true ps :
  anyRemaining ps = true ↔ ∃ i p, ps !! i = Some p ∧ 0 < remaining p.
Proof.
  unfold anyRemaining. rewrite existsb_exists. unfold hasWork. split.
  - intros (p & Hin & Hp). apply list_elem_of_In, list_elem_of_lookup in Hin as [i Hi].
    exists i, p. split; [done|]. lia.
  - intros (i & p & Hi & Hp). exists p. split; [|lia].
    apply list_elem_of_In, list_elem_of_lookup. by exists i.
Qed.

Lemma anyRemaining_false ps :
  anyRemaining ps = false ↔ ∀ i p, ps !! i = Some p → remaining p ≤ 0.
Proof.
  rewrite <- not_true_iff_false, anyRemaining_true. split.
  - intros Hn i p Hi. destruct (Z_lt_le_dec 0 (remaining p)); [|done].
    exfalso. apply Hn. eauto.
  - intros Hall (i & p & Hi & Hp). specialize (Hall i p Hi). lia.
Qed.

(** ** The chart *)

Lemma extendLast_snoc g x e : extendLast (g ++ [x]) e = Some (g ++ [set_end e x]).
Proof.
  unfold extendLast. rewrite length_app. simpl.
  replace (length g + 1 - 1)%nat with (length g) by lia.
  rewrite list_lookup_middle by done. simpl.
  rewrite insert_app_r_alt by lia. by rewrite Nat.sub_diag.
Qed.

Lemma snoc_cases {A} (l : list A) : l = [] ∨ ∃ l0 x, l = l0 ++ [x].
Proof. destruct l as [|a l] using rev_ind; [by left|right; eauto]. Qed.

Lemma extendLast_Some g e :
  g ≠ [] → ∃ g0 x, g = g0 ++ [x] ∧ extendLast g e = Some (g0 ++ [set_end e x]).
Proof.
  intros Hg. destruct (snoc_cases g) as [->|(g0 & x & ->)]; [done|].
  exists g0, x. by rewrite extendLast_snoc.
Qed.

Lemma extendLast_inv g e g' :
  extendLast g e = Some g' → ∃ g0 x, g = g0 ++ [x] ∧ g' = g0 ++ [set_end e x].
Proof.
  destruct (snoc_cases g) as [->|(g0 & x & ->)]; [done|].
  rewrite extendLast_snoc. intros [= <-]. eauto.
Qed.

Lemma covers_app a g1 g2 c :
  covers a (g1 ++ g2) c ↔ ∃ b, covers a g1 b ∧ covers b g2 c.
Proof.
  revert a. induction g1 as [|x g1 IH]; intros a; simpl.
  - split; [intros H; by exists a|intros (b & -> & H); done].
  - rewrite IH. split.
    + intros (? & ? & b & ? & ?). eauto.
    + intros (b & (? & ? & ?) & ?). eauto.
Qed.

Lemma covers_le a g b : covers a g b → a ≤ b.
Proof.
  revert a. induction g as [|x g IH]; simpl; intros a; [lia|].
  intros (<- & ? & H%IH). lia.
Qed.

Lemma lastLabel_snoc g x : lastLabel (g ++ [x]) = Some (seg_pid x).
Proof. unfold lastLabel. by rewrite last_snoc. Qed.

Lemma alternating_snoc g x :
  alternating (g ++ [x]) ↔ alternating g ∧ lastLabel g ≠ Some (seg_pid x).
Proof.
  induction g as [|a g IH].
  - unfold lastLabel. simpl. intuition congruence.
  - change (alternating ((a :: g) ++ [x])) with
      (match g ++ [x] with y :: _ => seg_pid a ≠ seg_pid y | [] => True end ∧
       alternating (g ++ [x])).
    rewrite IH. destruct g as [|b g].
    + unfold lastLabel. simpl. intuition congruence.
    + change (lastLabel (a :: b :: g)) with (lastLabel (b :: g)). simpl. tauto.
Qed.

Lemma totalExecutionTime_covers g b : covers 0 g b → totalExecutionTime g = b.
Proof.
  unfold totalExecutionTime.
  destruct (snoc_cases g) as [->|(g0 & x & ->)]; simpl; [done|].
  intros (c & _ & Hx)%covers_app. simpl in Hx.
  rewrite length_app. simpl.
  replace (length g0 + 1 - 1)%nat with (length g0) by lia.
  rewrite list_lookup_middle by done.
  destruct (0 <? length g0 + 1)%nat eqn:E; [simpl; lia|].
  apply Nat.ltb_ge in E. lia.
Qed.

Lemma tickCase_chart_nonempty s s' : tickCase s s' → ganttChart s' ≠ [].
Proof.
  intros [g Hq Hg ->|i p Hrun Hne ->|i p g Hrun He Hg ->]; simpl.
  - unfold chartIdle in Hg. destruct (isIdle s).
    + apply extendLast_inv in Hg as (g0 & x & _ & ->). by destruct g0.
    + injection Hg as <-. by destruct (ganttChart s).
  - by destruct (ganttChart s).
  - apply extendLast_inv in Hg as (g0 & x & _ & ->). by destruct g0.
Qed.

(** With a chart the flags can rely on, an iteration throws nothing. *)
Lemma tick_defined s : chartSafe s → ∃ s', tick s = Some s'.
Proof.
  intros Hsafe. unfold chartSafe in Hsafe.
  destruct (runningProcess s) as [[i p]|] eqn:Hrun.
  - destruct (decide (Some (pid p) = lastProcessId s)) as [He|Hne].
    + destruct (extendLast_Some (ganttChart s) (currentTime s + 1)) as (g0 & x & _ & Hg).
      { apply Hsafe. right. by rewrite <- He. }
      eexists. apply tick_cases. by eapply case_continue.
    + eexists. apply tick_cases. by eapply case_switch.
  - apply runningProcess_None in Hrun.
    destruct (isIdle s) eqn:Hidle.
    + destruct (extendLast_Some (ganttChart s) (currentTime s + 1)) as (g0 & x & _ & Hg).
      { apply Hsafe. by left. }
      eexists. apply tick_cases. eapply case_idle; [done| |done].
      unfold chartIdle. rewrite Hidle. exact Hg.
    + eexists. apply tick_cases. eapply case_idle; [done| |done].
      unfold chartIdle. by rewrite Hidle.
Qed.

Lemma covers_tick s s' :
  tickCase s s' →
  covers 0 (ganttChart s) (currentTime s) → covers 0 (ganttChart s') (currentTime s').
Proof.
  assert (Hext : ∀ g g' t, covers 0 g t → extendLast g (t + 1) = Some g' →
                           covers 0 g' (t + 1)).
  { intros g g' t Hc (g0 & x & -> & ->)%extendLast_inv.
    apply covers_app in Hc as (b & Hb & Hx). apply covers_app. exists b.
    split; [done|]. simpl in *. lia. }
  assert (Hpush : ∀ g t l o, covers 0 g t → covers 0 (g ++ [mkSegment l t (t + 1) o]) (t + 1)).
  { intros g t l o Hc. apply covers_app. exists t. split; [done|]. simpl. lia. }
  intros [g Hq Hg ->|i p Hrun Hne ->|i p g Hrun He Hg ->] Hc; simpl; eauto.
  unfold chartIdle in Hg. destruct (isIdle s); [eauto|]. injection Hg as <-. eauto.
Qed.

Lemma labels_tick s s' :
  tickCase s s' →
  (∀ i p, processes s !! i = Some p → pid p ≠ "IDLE") →
  flagsAgree s ∧ alternating (ganttChart s) →
  flagsAgree s' ∧ alternating (ganttChart s').
Proof.
  assert (Hext : ∀ g g' e, extendLast g e = Some g' →
            lastLabel g' = lastLabel g ∧ (alternating g → alternating g') ∧ g ≠ []).
  { intros g g' e (g0 & x & -> & ->)%extendLast_inv.
    rewrite !lastLabel_snoc, !alternating_snoc. simpl. split_and!; [done..|].
    by destruct g0. }
  intros Hcase Hpid [(Hi1 & Hi0 & Hl1 & Hl0) Halt].
  destruct Hcase as [g Hq Hg ->|i p Hrun Hne ->|i p g Hrun He Hg ->];
    unfold flagsAgree; simpl.
  - unfold chartIdle in Hg. destruct (isIdle s) eqn:Hidle.
    + destruct (Hext _ _ _ Hg) as (-> & Ha & Hne).
      split_and!; [auto|done|done|auto|auto].
    + injection Hg as <-. rewrite lastLabel_snoc, alternating_snoc. simpl.
      split_and!; [done|done|done|auto|done|auto].
  - apply runningProcess_spec in Hrun as (Hp & _). apply Hpid in Hp.
    rewrite lastLabel_snoc, alternating_snoc. simpl.
    split_and!; [done|congruence|done|done|done|].
    destruct (lastProcessId s) as [x|] eqn:Hlast.
    + rewrite (Hl1 x eq_refl). congruence.
    + destruct (Hl0 eq_refl) as [Hidle|Hnil].
      * rewrite (Hi1 Hidle). congruence.
      * by rewrite Hnil.
  - destruct (Hext _ _ _ Hg) as (-> & Ha & _).
    split_and!; [done|done| |done|auto].
    intros x [= <-]. by apply Hl1.
Qed.

(** ** The copies against the input records *)

Lemma tracks_mono t t' p0 p : t ≤ t' → tracks t p0 p → tracks t' p0 p.
Proof.
  intros Ht [Hid [->|(Hr & Ha & Hc)]]; (split; [done|]); [by left|right].
  split_and!; [lia..|]. intros H0. specialize (Hc H0). lia.
Qed.

(** The tick of the running process. *)
Lemma tracks_execute t p0 p p1 :
  tracks t p0 p → isReady t p = true → p1 = p ∨ p1 = recordStart t p →
  tracks (t + 1) p0 (execute (t + 1) p1).
Proof.
  intros [Hid Hst] [Harr Hrem]%isReady_true Hp1.
  assert (sameIdentity p p1 ∧ remaining p1 = remaining p) as [Hid1 Hr1].
  { destruct Hp1 as [->| ->];
      [by split|split; [apply recordStart_sameIdentity|apply recordStart_remaining]]. }
  assert (sameIdentity p0 p1) as Hid01 by by eapply sameIdentity_trans.
  split; [eapply sameIdentity_trans; [exact Hid01|apply execute_sameIdentity]|].
  right. rewrite execute_remaining, Hr1.
  destruct Hid as (_ & _ & Ha & _). destruct Hid01 as (_ & _ & Ha1 & Hb1 & _).
  assert (0 ≤ remaining p - 1 < remaining p0 ∧
          arrival p0 + (remaining p0 - (remaining p - 1)) ≤ t + 1) as [? ?].
  { destruct Hst as [->|(? & ? & _)]; lia. }
  split_and!; [lia..|]. intros Hz.
  unfold execute. simpl. rewrite Hr1.
  destruct (remaining p - 1 =? 0) eqn:E; [simpl|lia]. lia.
Qed.

Lemma tracks_tick ps s s' :
  tickCase s s' →
  Forall2 (tracks (currentTime s)) ps (processes s) →
  Forall2 (tracks (currentTime s')) ps (processes s').
Proof.
  intros [g Hq Hg ->|i p Hrun Hne ->|i p g Hrun He Hg ->] HF; simpl.
  - eapply Forall2_impl; [exact HF|]. intros p0 p. apply tracks_mono. lia.
  - apply runningProcess_spec in Hrun as (Hi & Hr & _).
    eapply Forall2_update_r; [exact HF|exact Hi| |].
    + intros p0 q. apply tracks_mono. lia.
    + intros p0 _ Ht. eapply tracks_execute; [exact Ht|exact Hr|by right].
  - apply runningProcess_spec in Hrun as (Hi & Hr & _).
    eapply Forall2_update_r; [exact HF|exact Hi| |].
    + intros p0 q. apply tracks_mono. lia.
    + intros p0 _ Ht. eapply tracks_execute; [exact Ht|exact Hr|by left].
Qed.

Lemma tracks_maxArrival t ps ps' :
  Forall2 (tracks t) ps ps' → maxArrival ps' = maxArrival ps.
Proof.
  intros HF. symmetry. apply maxArrival_ext.
  eapply Forall2_impl; [exact HF|]. by intros p0 p [(_ & _ & -> & _) _].
Qed.

(** ** The clock *)

Lemma clock_tick ps s s' :
  tickCase s s' → anyRemaining (processes s) = true →
  Forall2 (tracks (currentTime s)) ps (processes s) →
  clockInv ps s → clockInv ps s'.
Proof.
  unfold clockInv.
  intros [g Hq Hg ->|i p Hrun Hne ->|i p g Hrun He Hg ->] Hany HF (Hsum & Hidle & Hmax);
    simpl.
  - apply anyRemaining_true in Hany as (i & p & Hi & Hp).
    pose proof (proj1 (readyQueue_nil _ _) Hq i p Hi) as Hnr.
    assert (currentTime s < arrival p) as Hlt.
    { unfold isReady in Hnr. apply andb_false_iff in Hnr as [H|H]; lia. }
    pose proof (maxArrival_ge _ _ _ Hi) as Hle.
    rewrite (tracks_maxArrival _ _ _ HF) in Hle. lia.
  - apply runningProcess_spec in Hrun as (Hi & _).
    rewrite (sumZ_insert _ _ _ _ _ Hi), execute_remaining, recordStart_remaining. lia.
  - apply runningProcess_spec in Hrun as (Hi & _).
    rewrite (sumZ_insert _ _ _ _ _ Hi), execute_remaining. lia.
Qed.

(** ** The measure of the loop *)

Lemma ticksBound_tick s s' :
  tickCase s s' → anyRemaining (processes s) = true →
  (ticksBound (processes s') (currentTime s') < ticksBound (processes s) (currentTime s))%nat.
Proof.
  assert (Hw : ∀ ps, 0 ≤ workLeft ps).
  { intros ps. apply sumZ_nonneg. intros; lia. }
  assert (Hrun : ∀ i p p', runningProcess s = Some (i, p) →
            remaining p' = remaining p - 1 → arrival p' = arrival p →
            (ticksBound (<[i:=p']> (processes s)) (currentTime s + 1)
             < ticksBound (processes s) (currentTime s))%nat).
  { intros i p p' (Hi & [_ Hr]%isReady_true & _)%runningProcess_spec Hrem Harr.
    pose proof (Hw (<[i:=p']> (processes s))) as Hw'.
    unfold ticksBound, workLeft in *.
    rewrite (sumZ_insert _ _ _ _ _ Hi), Hrem in *.
    assert (maxArrival (<[i:=p']> (processes s)) = maxArrival (processes s)) as ->.
    { symmetry. apply maxArrival_ext.
      eapply (Forall2_update_r eq); [|exact Hi|by intros ?? ->|by intros ?? ->].
      apply Forall_Forall2_diag, Forall_forall. done. }
    specialize (Hw (processes s)). unfold workLeft in Hw. lia. }
  intros [g Hq Hg ->|i p Hr Hne ->|i p g Hr He Hg ->] Hany; simpl.
  - apply anyRemaining_true in Hany as (i & p & Hi & Hp).
    pose proof (proj1 (readyQueue_nil _ _) Hq i p Hi) as Hnr.
    assert (currentTime s < arrival p) as Hlt.
    { unfold isReady in Hnr. apply andb_false_iff in Hnr as [H|H]; lia. }
    pose proof (maxArrival_ge _ _ _ Hi) as Hle.
    unfold ticksBound. specialize (Hw (processes s)). lia.
  - eapply Hrun; [exact Hr|..].
    + by rewrite execute_remaining, recordStart_remaining.
    + destruct (execute_sameIdentity (currentTime s + 1) (recordStart (currentTime s) p))
        as (_ & _ & -> & _).
      by destruct (recordStart_sameIdentity (currentTime s) p) as (_ & _ & -> & _).
  - eapply Hrun; [exact Hr|..].
    + by rewrite execute_remaining.
    + by destruct (execute_sameIdentity (currentTime s + 1) p) as (_ & _ & -> & _).
Qed.

(** ** Invariants of a run *)

Lemma sameIdentity_refl {T} (p : ProcessOf T) : sameIdentity p p.
Proof. by repeat split. Qed.

Lemma reachable_inv ps s : reachable ps s → engineInv ps s.
Proof.
  induction 1 as [|s s' Hreach (HF & Hclock & Hcov & Hsafe) Hany Htick].
  - unfold engineInv, initState, deepCopy, clockInv, chartSafe. simpl. split_and!.
    + apply Forall_Forall2_diag, Forall_forall. intros p _.
      split; [apply sameIdentity_refl|by left].
    + lia.
    + done.
    + done.
    + apply maxArrival_nonneg.
    + done.
    + intros [?|?]; done.
  - apply tick_cases in Htick. split_and!.
    + by eapply tracks_tick.
    + by eapply clock_tick.
    + by eapply covers_tick.
    + intros _. by eapply tickCase_chart_nonempty.
Qed.

Lemma reachable_labels ps s :
  noIdleName ps → reachable ps s → flagsAgree s ∧ alternating (ganttChart s).
Proof.
  intros Hname. induction 1 as [|s s' Hreach IH Hany Htick].
  - unfold flagsAgree, lastLabel. simpl. split_and!; auto; done.
  - apply tick_cases in Htick. eapply labels_tick; [exact Htick| |exact IH].
    intros i p Hi. destruct (reachable_inv _ _ Hreach) as (HF & _).
    destruct (Forall2_lookup_r _ _ _ _ _ HF Hi) as (p0 & Hp0 & (_ & Hpid & _) & _).
    rewrite Hpid. eapply Forall_lookup_1 in Hname; [|exact Hp0]. done.
Qed.

(** ** Termination *)

Lemma loop_total ps n s :
  reachable ps s → (ticksBound (processes s) (currentTime s) ≤ n)%nat →
  ∃ s', loop n s = Some s' ∧ reachable ps s' ∧ anyRemaining (processes s') = false.
Proof.
  revert s. induction n as [|n IH]; intros s Hreach Hbound.
  - simpl. destruct (anyRemaining (processes s)) eqn:Hany; [|eauto].
    destruct (tick_defined s) as [s' Hs']; [apply (reachable_inv _ _ Hreach)|].
    pose proof (ticksBound_tick s s' (proj1 (tick_cases _ _) Hs') Hany). lia.
  - simpl. destruct (anyRemaining (processes s)) eqn:Hany; [|eauto].
    destruct (tick_defined s) as [s' Hs']; [apply (reachable_inv _ _ Hreach)|].
    pose proof (ticksBound_tick s s' (proj1 (tick_cases _ _) Hs') Hany).
    rewrite Hs'. simpl. apply IH; [by eapply reach_tick|lia].
Qed.

(** The engine returns on every input, in a state of the run in which no
    process has work left; the total it reports is the final clock. *)
Lemma run_total ps :
  ∃ s, runPrioritySimulation ps = Some (finish s) ∧
       reachable ps s ∧ anyRemaining (processes s) = false ∧
       totalTime (finish s) = currentTime s.
Proof.
  destruct (loop_total ps (ticksBound (processes (initState ps)) 0) (initState ps))
    as (s & Hloop & Hreach & Hdone); [constructor|done|].
  exists s. unfold runPrioritySimulation. rewrite Hloop. simpl. split_and!; [done..|].
  apply totalExecutionTime_covers, (reachable_inv _ _ Hreach).
Qed.

(** ** Timelines, pointwise *)

Lemma covers_facts g : ∀ a b, covers a g b →
  (∀ k x, g !! k = Some x → seg_start x < seg_end x ∧ a ≤ seg_start x ∧ seg_end x ≤ b) ∧
  (∀ x, g !! 0%nat = Some x → seg_start x = a) ∧
  (∀ k x y, g !! k = Some x → g !! S k = Some y → seg_end x = seg_start y) ∧
  (∀ t, a ≤ t < b → ∃ k x, g !! k = Some x ∧ inSegment t x) ∧
  (∀ j k x y, (j < k)%nat → g !! j = Some x → g !! k = Some y → seg_end x ≤ seg_start y).
Proof.
  induction g as [|z g IH]; intros a b Hc.
  - simpl in Hc. subst b. split_and!; try done. intros; lia.
  - destruct Hc as (Ha & Hlt & Hc). pose proof (covers_le _ _ _ Hc) as Hle.
    destruct (IH _ _ Hc) as (I1 & I2 & I3 & I4 & I5). split_and!.
    + intros [|k] x Hx; simplify_eq/=; [lia|].
      destruct (I1 k x Hx) as (? & ? & ?). lia.
    + by intros x [= ->].
    + intros [|k] x y Hx Hy; simplify_eq/=; [|by eapply I3].
      symmetry. by apply I2.
    + intros t Ht. destruct (Z_lt_le_dec t (seg_end z)) as [Hin|Hout].
      * exists 0%nat, z. split; [done|]. unfold inSegment. lia.
      * destruct (I4 t) as (k & x & Hx & Hin); [lia|]. by exists (S k), x.
    + intros [|j] [|k] x y Hjk Hx Hy; simplify_eq/=; try lia.
      * destruct (I1 k y Hy) as (? & ? & ?). lia.
      * eapply (I5 j k); [lia|done..].
Qed.

Lemma covers_tiles g b : covers 0 g b → tiles g b.
Proof.
  intros (I1 & I2 & I3 & I4 & I5)%covers_facts. unfold tiles. split_and!.
  - intros k x Hx. by destruct (I1 k x Hx).
  - done.
  - done.
  - intros t. split; [apply I4|].
    intros (k & x & Hx & Hin). destruct (I1 k x Hx) as (? & ? & ?).
    unfold inSegment in Hin. lia.
  - intros t j k x y Hx Hy Hinx Hiny. unfold inSegment in *.
    destruct (lt_eq_lt_dec j k) as [[Hlt|Heq]|Hgt]; [|done|].
    + pose proof (I5 j k x y Hlt Hx Hy). lia.
    + pose proof (I5 k j y x Hgt Hy Hx). lia.
Qed.

Lemma alternating_noRepeat g : alternating g → noRepeat g.
Proof.
  unfold noRepeat. induction g as [|a g IH]; [done|].
  intros [Hab Halt] [|k] x y Hx Hy; simplify_eq/=.
  - by destruct g; simplify_eq/=.
  - by eapply IH.
Qed.

Lemma sumZ_zero {A} (f : A → Z) l : (∀ i x, l !! i = Some x → f x = 0) → sumZ f l = 0.
Proof.
  induction l as [|a l IH]; intros H; simpl; [done|].
  rewrite (H 0%nat a eq_refl), IH; [done|]. intros i x Hi. by apply (H (S i)).
Qed.

(** ** Results of a run on records with their whole burst left *)

(** On a valid input whose records have their whole burst left, every
    copy ends with nothing left and its completion fields set. *)
Lemma final_records ps s :
  validInput ps → Forall unstarted ps →
  reachable ps s → anyRemaining (processes s) = false →
  Forall2 (λ p0 p, sameIdentity p0 p ∧ remaining p = 0 ∧
                   completionTime p ≤ currentTime s ∧
                   arrival p0 + burst p0 ≤ completionTime p ∧
                   turnaroundTime p = completionTime p - arrival p0 ∧
                   waitingTime p = turnaroundTime p - burst p0)
          ps (processes s).
Proof.
  intros Hvalid Hfresh Hreach Hdone.
  destruct (reachable_inv _ _ Hreach) as (HF & _).
  apply Forall2_same_length_lookup. split; [by eapply Forall2_length|].
  intros i p0 p Hp0 Hp.
  pose proof (Forall2_lookup_lr _ _ _ _ _ _ HF Hp0 Hp) as [Hid Hst].
  pose proof (proj1 (anyRemaining_false _) Hdone i p Hp) as Hle.
  eapply Forall_lookup_1 in Hvalid as (Hb & _); [|exact Hp0].
  eapply Forall_lookup_1 in Hfresh; [|exact Hp0]. unfold unstarted in Hfresh.
  destruct Hst as [->|(Hr & _ & Hc)]; [lia|].
  assert (remaining p = 0) as H0 by lia.
  destruct (Hc H0) as (? & ? & ? & ?). split_and!; [done..| |done|done]. lia.
Qed.

Lemma final_clock ps s :
  validInput ps → Forall unstarted ps →
  reachable ps s → anyRemaining (processes s) = false →
  currentTime s = sumZ burst ps + idleTime s ∧ 0 ≤ idleTime s ≤ maxArrival ps.
Proof.
  intros Hvalid Hfresh Hreach Hdone.
  pose proof (final_records _ _ Hvalid Hfresh Hreach Hdone) as HF.
  destruct (reachable_inv _ _ Hreach) as (_ & (Hsum & Hidle & Hmax) & _).
  rewrite (sumZ_zero remaining (processes s)) in Hsum.
  - rewrite (sumZ_ext remaining burst ps ps) in Hsum; [lia|].
    apply Forall_Forall2_diag. eapply Forall_impl; [exact Hfresh|done].
  - intros i p Hp. by destruct (Forall2_lookup_r _ _ _ _ _ HF Hp) as (? & _ & _ & ? & _).
Qed.

(** ** What an iteration does to the array of processes *)

Lemma tick_processes s s' :
  tickCase s s' →
  currentTime s' = currentTime s + 1 ∧
  ((runningProcess s = None ∧ processes s' = processes s) ∨
   (∃ i p p1, runningProcess s = Some (i, p) ∧
              (p1 = p ∨ p1 = recordStart (currentTime s) p) ∧
              processes s' = <[i:=execute (currentTime s + 1) p1]> (processes s))).
Proof.
  intros [g Hq Hg ->|i p Hrun Hne ->|i p g Hrun He Hg ->]; simpl; (split; [done|]).
  - left. by rewrite runningProcess_None.
  - right. exists i, p, (recordStart (currentTime s) p). auto.
  - right. exists i, p, p. auto.
Qed.

Lemma execute_completionTime {T} t (p : ProcessOf T) :
  remaining (execute t p) = 0 → completionTime (execute t p) = t.
Proof.
  rewrite execute_remaining. unfold execute. simpl. intros ->. done.
Qed.

(** While the earlier of two tied processes has work left, the later one
    is not the running process. *)
Lemma tied_waits ps s i j q :
  reachable ps s → tied ps i j → runningProcess s = Some (j, q) →
  ∃ qi, processes s !! i = Some qi ∧ remaining qi ≤ 0.
Proof.
  intros Hreach (Hij & pi & pj & Hpi & Hpj & Hprio & Harr) Hrun.
  destruct (reachable_inv _ _ Hreach) as (HF & _).
  apply runningProcess_spec in Hrun as (Hq & [Hqa Hqr]%isReady_true & Hmin).
  destruct (Forall2_lookup_l _ _ _ _ _ HF Hpi) as (qi & Hqi & (_ & _ & Hai & _ & Hpri) & _).
  pose proof (Forall2_lookup_lr _ _ _ _ _ _ HF Hpj Hq) as ((_ & _ & Haj & _ & Hprj) & _).
  exists qi. split; [done|].
  destruct (Z_lt_le_dec 0 (remaining qi)) as [Hpos|]; [exfalso|done].
  destruct (Hmin i qi Hqi) as [_ Hfirst].
  { apply isReady_true. lia. }
  assert (i ≥ j)%nat; [|lia]. apply Hfirst. unfold keyLe. right. lia.
Qed.

Lemma tieOrder_tick ps s s' i j :
  reachable ps s → tied ps i j →
  (∀ pi, ps !! i = Some pi → 0 < remaining pi) →
  tickCase s s' → tieOrder ps i j s → tieOrder ps i j s'.
Proof.
  intros Hreach Htied Hwork Hcase Hord pj qi' qj' Hpj Hqi' Hqj'.
  destruct (reachable_inv _ _ Hreach) as (HF & _).
  destruct (tick_processes _ _ Hcase) as [Ht [[_ Hps]|(k & p & p1 & Hrun & Hp1 & Hps)]];
    rewrite Ht; rewrite Hps in Hqi', Hqj'.
  - destruct (Hord pj qi' qj' Hpj Hqi' Hqj') as [?|(? & ? & ?)]; [by left|right].
    split_and!; [done|lia|done].
  - pose proof Hrun as (Hk & [_ Hkr]%isReady_true & _)%runningProcess_spec.
    pose proof (lookup_lt_Some _ _ _ Hk) as Hlen.
    destruct (decide (k = j)) as [->|Hkj].
    + rewrite list_lookup_insert_eq in Hqj' by done. injection Hqj' as <-.
      destruct Htied as (Hij & pi & pj' & Hpi & Hpj' & Hkey).
      rewrite list_lookup_insert_ne in Hqi' by lia.
      destruct (tied_waits ps s i j p Hreach) as (qi & Hqi & Hle); [|done|].
      { split; [done|]. by exists pi, pj'. }
      rewrite Hqi in Hqi'. injection Hqi' as <-.
      pose proof (Forall2_lookup_lr _ _ _ _ _ _ HF Hpi Hqi) as [_ Hst].
      specialize (Hwork pi Hpi).
      destruct Hst as [->|(? & _ & Hc)]; [lia|]. right.
      assert (remaining qi = 0) as H0 by lia. destruct (Hc H0) as (? & _).
      split_and!; [done|lia|]. intros Hz. rewrite (execute_completionTime _ _ Hz). lia.
    + rewrite list_lookup_insert_ne in Hqj' by done.
      destruct (decide (k = i)) as [->|Hki].
      * destruct (Hord pj p qj' Hpj Hk Hqj') as [?|(? & _)]; [by left|lia].
      * rewrite list_lookup_insert_ne in Hqi' by done.
        destruct (Hord pj qi' qj' Hpj Hqi' Hqj') as [?|(? & ? & ?)]; [by left|right].
        split_and!; [done|lia|done].
Qed.

Lemma reachable_tieOrder ps s i j :
  tied ps i j → (∀ pi, ps !! i = Some pi → 0 < remaining pi) →
  reachable ps s → tieOrder ps i j s.
Proof.
  intros Htied Hwork. induction 1 as [|s s' Hreach IH Hany Htick].
  - intros pj qi qj Hpj _ Hqj. left. unfold initState, deepCopy in Hqj. simpl in Hqj.
    congruence.
  - apply tick_cases in Htick. by eapply tieOrder_tick.
Qed.

(** A run goes through one state per tick. *)
Lemma reachable_unique ps s1 s2 :
  reachable ps s1 → reachable ps s2 → currentTime s1 = currentTime s2 → s1 = s2.
Proof.
  intros H1. revert s2.
  induction H1 as [|s1 s1' Hr1 IH Hany1 Ht1]; intros s2 H2 Htime.
  - destruct H2 as [|s2 s2' Hr2 Hany2 Ht2]; [done|].
    destruct (reachable_inv _ _ Hr2) as (_ & (_ & ? & _) & _).
    apply tick_cases, tick_processes in Ht2 as [Ht2 _].
    unfold initState in Htime. simpl in Htime. lia.
  - destruct (reachable_inv _ _ Hr1) as (_ & (_ & ? & _) & _).
    pose proof Ht1 as [Ht1' _]%tick_cases%tick_processes.
    destruct H2 as [|s2 s2' Hr2 Hany2 Ht2].
    + unfold initState in Htime. simpl in Htime. lia.
    + pose proof Ht2 as [Ht2' _]%tick_cases%tick_processes.
      assert (s1 = s2) as -> by (apply IH; [done|lia]). congruence.
Qed.

(** * The properties of the specification *)

(** ** Scenario B *)

(** C1, as stated, does not hold: in scenario B process P1 does not
    complete at tick 13.  After its first tick 7 units remain, and they run
    over ticks 5 to 11. *)
Lemma scenarioB_not_13 : ¬ scenarioB 13.
Proof.
  intros (r & p1 & p2 & Hr & _ & _ & Hps & _ & Hc).
  vm_compute in Hr. injection Hr as <-.
  simpl in Hps. injection Hps as <- <-. simpl in Hc. discriminate.
Qed.

(** C1, amended: in scenario B, P1 runs tick 0, P2 preempts it and runs
    ticks 1 to 4 (completion time 5), P1 resumes at tick 5 and completes at
    tick 12; the timeline is [P1,0,1), [P2,1,5), [P1,5,12). *)
Theorem scenarioB_completes_at_12 : scenarioB 12.
Proof.
  eexists _, _, _. split; [vm_compute; reflexivity|].
  split; [vm_compute; reflexivity|]. repeat split.
Qed.

(** ** The total time *)

(** C2, as stated, does not hold: in scenario C the only burst is 2 and
    the total time is 5, the processor being idle until tick 3. *)
Lemma idle_gap_exceeds_bursts :
  validInput scenarioC ∧ Forall unstarted scenarioC ∧
  ∃ r, runPrioritySimulation scenarioC = Some r ∧ sumZ burst scenarioC < totalTime r.
Proof.
  split_and!.
  - repeat constructor; simpl; lia.
  - by repeat constructor.
  - eexists. split; [vm_compute; reflexivity|]. simpl. lia.
Qed.

(** C2, amended: on a valid input whose records have their whole burst
    left, the total time is at most the sum of the bursts plus the latest
    arrival. *)
Theorem total_bounded_by_bursts_and_arrival ps :
  validInput ps → Forall unstarted ps →
  ∃ r, runPrioritySimulation ps = Some r ∧
       totalTime r ≤ sumZ burst ps + maxArrival ps.
Proof.
  intros Hvalid Hfresh. destruct (run_total ps) as (s & Hrun & Hreach & Hdone & Htot).
  exists (finish s). split; [done|]. rewrite Htot.
  destruct (final_clock _ _ Hvalid Hfresh Hreach Hdone). lia.
Qed.

(** The bound on scenario C: 5 ≤ 2 + 3. *)
Lemma total_bounded_scenarioC :
  ∃ r, runPrioritySimulation scenarioC = Some r ∧
       totalTime r ≤ sumZ burst scenarioC + maxArrival scenarioC.
Proof.
  apply (total_bounded_by_bursts_and_arrival scenarioC).
  - repeat constructor; simpl; lia.
  - repeat constructor.
Defined.

(** On a valid input whose records have their whole burst left, the sum
    of the bursts plus the idle ticks is the total time. *)
Lemma bursts_plus_idle_is_total ps :
  validInput ps → Forall unstarted ps →
  ∃ r, runPrioritySimulation ps = Some r ∧
       sumZ burst ps + res_idleTime r = totalTime r.
Proof.
  intros Hvalid Hfresh. destruct (run_total ps) as (s & Hrun & Hreach & Hdone & Htot).
  exists (finish s). split; [done|]. rewrite Htot.
  destruct (final_clock _ _ Hvalid Hfresh Hreach Hdone). simpl. lia.
Qed.

(** C4: the form after the burst of P1 is edited from 8 to 3 is a valid
    input; its bursts sum to 16 and no tick is idle, but the engine runs
    the 8 units that [remaining] still holds and reports a total of 21. *)
Theorem stale_remaining_breaks_total :
  validInput loweredBurst ∧
  (∃ r, runPrioritySimulation loweredBurst = Some r ∧
        sumZ burst loweredBurst = 16 ∧ res_idleTime r = 0 ∧ totalTime r = 21) ∧
  (∃ u, handleSubmit loweredBurst = Some u ∧
        errorMessage u = "" ∧ metricsTotalTime (metrics u) = 21).
Proof.
  split_and!.
  - repeat constructor; simpl; lia.
  - eexists. split; [vm_compute; reflexivity|]. done.
  - eexists. split; [vm_compute; reflexivity|]. done.
Qed.

(** ** Completion times *)

(** On a valid input whose records have their whole burst left, every
    process completes no earlier than its arrival plus its burst, and
    exactly then if and only if its waiting time is 0. *)
Lemma completion_after_arrival_plus_burst ps :
  validInput ps → Forall unstarted ps →
  ∃ r, runPrioritySimulation ps = Some r ∧
       Forall2 (λ p0 p, arrival p0 + burst p0 ≤ completionTime p ∧
                        (completionTime p = arrival p0 + burst p0 ↔ waitingTime p = 0))
               ps (res_processes r).
Proof.
  intros Hvalid Hfresh. destruct (run_total ps) as (s & Hrun & Hreach & Hdone & Htot).
  exists (finish s). split; [done|]. simpl.
  eapply Forall2_impl; [exact (final_records _ _ Hvalid Hfresh Hreach Hdone)|].
  simpl. intros p0 p (_ & _ & _ & ? & ? & ?). lia.
Qed.

(** C7: the form after the burst of P1 is edited from 8 to 20 is a valid
    input; P1 arrives at 0 with burst 20, yet the engine completes it at
    tick 12, with a waiting time of -8. *)
Theorem stale_remaining_breaks_completion :
  validInput raisedBurst ∧
  (∃ r p, runPrioritySimulation raisedBurst = Some r ∧
          res_processes r !! 0%nat = Some p ∧
          arrival p + burst p = 20 ∧ completionTime p = 12 ∧ waitingTime p = -8) ∧
  (∃ u ps p, handleSubmit raisedBurst = Some u ∧ errorMessage u = "" ∧
             resultProcesses u = Some ps ∧ ps !! 0%nat = Some p ∧
             completionTime p = 12 ∧ waitingTime p = -8).
Proof.
  split_and!.
  - repeat constructor; simpl; lia.
  - eexists _, _. split; [vm_compute; reflexivity|]. done.
  - eexists _, _, _. split; [vm_compute; reflexivity|]. done.
Qed.

(** ** The timeline *)

(** C3, as stated, does not hold: a process whose pid is the label of
    idle segments gets a segment of its own next to an idle one, and the
    two carry the same label. *)
Lemma idle_named_process_repeats_label :
  validInput idleNamed ∧ Forall unstarted idleNamed ∧
  ∃ r x y, runPrioritySimulation idleNamed = Some r ∧
           gantt r !! 0%nat = Some x ∧ gantt r !! 1%nat = Some y ∧
           seg_pid x = seg_pid y.
Proof.
  split_and!.
  - repeat constructor; simpl; lia.
  - by repeat constructor.
  - eexists _, _, _. split; [vm_compute; reflexivity|]. done.
Qed.

(** C3, amended: on every input the segments of the returned timeline are
    non-empty, each starts where its predecessor ends, and together they
    tile the ticks from 0 to the total time without overlap; when no
    process is named IDLE, neighbouring segments carry different labels. *)
Theorem timeline_tiles_total ps :
  ∃ r, runPrioritySimulation ps = Some r ∧
       tiles (gantt r) (totalTime r) ∧
       (noIdleName ps → noRepeat (gantt r)).
Proof.
  destruct (run_total ps) as (s & Hrun & Hreach & Hdone & Htot).
  exists (finish s). split; [done|]. rewrite Htot. simpl. split.
  - apply covers_tiles, (reachable_inv _ _ Hreach).
  - intros Hname. apply alternating_noRepeat.
    by destruct (reachable_labels _ _ Hname Hreach).
Qed.

(** The timeline of the initial form. *)
Lemma timeline_tiles_initialProcesses :
  ∃ r, runPrioritySimulation initialProcesses = Some r ∧
       tiles (gantt r) (totalTime r) ∧ noRepeat (gantt r).
Proof.
  destruct (timeline_tiles_total initialProcesses) as (r & Hr & Ht & Hn).
  exists r. split_and!; [exact Hr|exact Ht|]. apply Hn.
  repeat constructor; simpl; discriminate.
Defined.

(** ** The selection *)

(** C5: at every tick of a run at which a process is selected, it is a
    ready process and no ready process has a strictly smaller priority
    value.  Whatever ran at the tick before, a process is not selected
    against a ready process of strictly smaller priority value, and a
    ready process whose priority value is strictly the smallest is the one
    selected.  The selected process is the one that executes during the
    tick, for one unit. *)
Theorem highest_priority_ready_runs ps s i p :
  reachable ps s → runningProcess s = Some (i, p) →
  (processes s !! i = Some p ∧ arrival p ≤ currentTime s ∧ 0 < remaining p) ∧
  (∀ j q, processes s !! j = Some q → arrival q ≤ currentTime s → 0 < remaining q →
          priority p ≤ priority q) ∧
  (∀ j q k r, processes s !! j = Some q → arrival q ≤ currentTime s → 0 < remaining q →
              processes s !! k = Some r → priority q < priority r → i ≠ k) ∧
  (∀ j q, processes s !! j = Some q → arrival q ≤ currentTime s → 0 < remaining q →
          (∀ k r, k ≠ j → processes s !! k = Some r → arrival r ≤ currentTime s →
                  0 < remaining r → priority q < priority r) →
          i = j) ∧
  ∃ s' p', tick s = Some s' ∧ currentTime s' = currentTime s + 1 ∧
           processes s' !! i = Some p' ∧ remaining p' = remaining p - 1 ∧
           ∀ k, k ≠ i → processes s' !! k = processes s !! k.
Proof.
  intros Hreach Hrun.
  pose proof Hrun as (Hi & [Ha Hr]%isReady_true & Hmin)%runningProcess_spec.
  assert (Hprio : ∀ j q, processes s !! j = Some q → arrival q ≤ currentTime s →
                         0 < remaining q → priority p ≤ priority q).
  { intros j q Hj Hqa Hqr. destruct (Hmin j q Hj) as [Hle _].
    - apply isReady_true. lia.
    - unfold keyLe in Hle. lia. }
  split_and!; [done..| | |].
  - intros j q k r Hj Hqa Hqr Hk Hlt ->.
    specialize (Hprio j q Hj Hqa Hqr). simplify_eq. lia.
  - intros j q Hj Hqa Hqr Hleast. destruct (decide (i = j)) as [|Hij]; [done|].
    specialize (Hprio j q Hj Hqa Hqr).
    specialize (Hleast i p Hij Hi Ha Hr). lia.
  - destruct (tick_defined s) as [s' Hs']; [apply (reachable_inv _ _ Hreach)|].
    pose proof Hs' as Hc%tick_cases.
    destruct (tick_processes _ _ Hc) as [Ht [[Hnone _]|(k & q & p1 & Hrun' & Hp1 & Hps)]];
      [congruence|].
    rewrite Hrun in Hrun'. injection Hrun' as <- <-.
    exists s', (execute (currentTime s + 1) p1). split_and!; [done..| | |].
    + rewrite Hps. apply list_lookup_insert_eq. by eapply lookup_lt_Some.
    + rewrite execute_remaining. destruct Hp1 as [->| ->]; [done|].
      by rewrite recordStart_remaining.
    + intros k Hk. rewrite Hps. by apply list_lookup_insert_ne.
Qed.

(** Scenario B reaches [preemptionState] with its first tick. *)
Lemma preemptionState_reachable : reachable [P1; P2] preemptionState.
Proof. eapply reach_tick; [apply reach_init|reflexivity|reflexivity]. Defined.

(** At tick 1 of scenario B the process selected is P2, which has just
    arrived and has the smaller priority value; it runs that tick. *)
Lemma preemption_at_tick_1 :
  (∀ j q, processes preemptionState !! j = Some q →
          arrival q ≤ currentTime preemptionState → 0 < remaining q →
          priority P2 ≤ priority q) ∧
  ∃ s' p', tick preemptionState = Some s' ∧ currentTime s' = 2 ∧
           processes s' !! 1%nat = Some p' ∧ remaining p' = 3.
Proof.
  destruct (highest_priority_ready_runs [P1; P2] preemptionState 1 P2
              preemptionState_reachable eq_refl)
    as (_ & Hmin & _ & _ & s' & p' & H1 & H2 & H3 & H4 & _).
  split; [exact Hmin|]. exists s', p'. split_and!; [exact H1|exact H2|exact H3|exact H4].
Defined.

(** C6: of two processes with the same priority and the same arrival, the
    later in the input is never the running process while the earlier has
    work left, so all ticks of the earlier come first; when both have work
    to do the earlier completes first.  The run itself is determined by
    the input: it goes through exactly one state per tick. *)
Theorem tied_processes_run_in_input_order ps i j :
  tied ps i j →
  (∀ s q, reachable ps s → runningProcess s = Some (j, q) →
          ∃ qi, processes s !! i = Some qi ∧ remaining qi ≤ 0) ∧
  (∃ r, runPrioritySimulation ps = Some r ∧
        ∀ pi pj ri rj, ps !! i = Some pi → ps !! j = Some pj →
                       0 < remaining pi → 0 < remaining pj →
                       res_processes r !! i = Some ri → res_processes r !! j = Some rj →
                       completionTime ri < completionTime rj) ∧
  (∀ s1 s2, reachable ps s1 → reachable ps s2 →
            currentTime s1 = currentTime s2 → s1 = s2).
Proof.
  intros Htied. split_and!.
  - intros s q Hreach Hrun. by eapply tied_waits.
  - destruct (run_total ps) as (s & Hrun & Hreach & Hdone & Htot).
    exists (finish s). split; [done|]. simpl.
    intros pi pj ri rj Hpi Hpj Hwi Hwj Hri Hrj.
    destruct (reachable_inv _ _ Hreach) as (HF & _).
    pose proof (Forall2_lookup_lr _ _ _ _ _ _ HF Hpj Hrj) as [_ Hst].
    pose proof (proj1 (anyRemaining_false _) Hdone j rj Hrj) as Hle.
    destruct (reachable_tieOrder ps s i j Htied) with (3 := Hpj) (4 := Hri) (5 := Hrj)
      as [->|(_ & _ & Hlt)]; [|done|lia|].
    + intros pi' Hpi'. congruence.
    + apply Hlt. destruct Hst as [->|(? & _)]; lia.
  - apply reachable_unique.
Qed.

(** Of two tied processes given in the order P1, P2, P1 completes first. *)
Lemma twins_run_in_input_order :
  ∃ r ri rj, runPrioritySimulation twins = Some r ∧
             res_processes r !! 0%nat = Some ri ∧ res_processes r !! 1%nat = Some rj ∧
             completionTime ri < completionTime rj.
Proof.
  destruct (tied_processes_run_in_input_order twins 0 1) as (_ & (r & Hr & Hlt) & _).
  { split; [lia|]. eexists _, _. repeat split. }
  pose proof Hr as Hr'. vm_compute in Hr'. injection Hr' as Hr'.
  exists r. eexists _, _. split; [exact Hr|].
  split; [by rewrite <- Hr'|]. split; [by rewrite <- Hr'|].
  eapply (Hlt _ _ _ _ eq_refl eq_refl); [reflexivity|reflexivity| |]; by rewrite <- Hr'.
Defined.

(** ** CPU utilisation *)

(** C8: submitting a non-empty form of valid records reports no error and
    publishes the total time of the engine's run on the sorted form and
    its CPU utilisation: (totalTime - idleTime) / totalTime * 100 in
    binary64 when the total time is positive, 0 when it is 0; the idle time
    lies between 0 and the total time, so the total is never negative.  An
    empty form or a form with an invalid record is reported and gets the
    initial metrics, with utilisation 0.  The operands of the quotient are
    the binary64 values of the two integers.  Scenario C, idle for 3 of its
    5 ticks, is shown 40; the initial form, never idle in 21 ticks, is
    shown 100; 3 busy ticks of 4 give 75.  On the empty list the engine
    returns an empty timeline and a total of 0, for which the utilisation
    is 0, where the unguarded quotient would be NaN; [handleSubmit] does
    not even call the engine then and keeps the initial metrics. *)
Theorem cpu_utilization_guarded :
  (∀ ps, ps ≠ [] → validInput ps →
     ∃ u r, handleSubmit ps = Some u ∧ errorMessage u = "" ∧
            runPrioritySimulation (stableSort (λ a b, arrival a - arrival b) ps) = Some r ∧
            metricsTotalTime (metrics u) = totalTime r ∧
            0 ≤ res_idleTime r ≤ totalTime r ∧
            (0 < totalTime r →
             cpuUtil (metrics u) =
             (toNumber (totalTime r - res_idleTime r) / toNumber (totalTime r) * 100)%float) ∧
            (totalTime r = 0 → cpuUtil (metrics u) = 0%float)) ∧
  (∀ ps, ps = [] ∨ ¬ validInput ps →
     ∃ u, handleSubmit ps = Some u ∧ errorMessage u ≠ "" ∧ metrics u = initialMetrics) ∧
  (∀ ps, ∃ r, runPrioritySimulation ps = Some r ∧ 0 ≤ res_idleTime r ≤ totalTime r) ∧
  (∀ z, 0 ≤ z < 2 ^ 63 → Prim2SF (toNumber z) = binary_normalize prec emax z 0 false) ∧
  (∃ u, handleSubmit scenarioC = Some u ∧ errorMessage u = "" ∧
        metricsTotalTime (metrics u) = 5 ∧ cpuUtil (metrics u) = 40%float) ∧
  (∃ u, handleSubmit initialProcesses = Some u ∧ errorMessage u = "" ∧
        metricsTotalTime (metrics u) = 21 ∧ cpuUtil (metrics u) = 100%float) ∧
  cpuUtilization 4 1 = 75%float ∧
  runPrioritySimulation [] = Some (mkResult [] [] 0 0) ∧
  cpuUtilization 0 0 = 0%float ∧
  PrimFloat.is_nan (cpuUtilizationUnguarded 0 0) = true ∧
  metrics <$> handleSubmit [] = Some initialMetrics ∧
  cpuUtil initialMetrics = 0%float.
Proof.
  assert (Hrun : ∀ ps, ∃ s, runPrioritySimulation ps = Some (finish s) ∧
                            totalTime (finish s) = currentTime s ∧
                            0 ≤ idleTime s ≤ currentTime s).
  { intros ps. destruct (run_total ps) as (s & Hrun & Hreach & _ & Htot).
    destruct (reachable_inv _ _ Hreach) as (_ & (_ & ? & _) & _). by exists s. }
  split_and!; [| | | | | |reflexivity..].
  - intros ps Hne Hvalid. unfold handleSubmit. destruct ps as [|p0 ps]; [done|].
    simpl length. cbn [Nat.eqb].
    apply find_invalid_None in Hvalid. rewrite Hvalid.
    destruct (Hrun (stableSort (λ a b, arrival a - arrival b) (p0 :: ps)))
      as (s & Hr & Htot & Hidle).
    rewrite Hr. cbn [mbind option_bind]. eexists _, (finish s). split; [done|].
    cbn [errorMessage metrics metricsTotalTime cpuUtil]. rewrite Htot.
    cbn [res_idleTime finish]. split_and!; [done|done|done|lia|lia| |].
    + intros Hpos. unfold cpuUtilization.
      destruct (Z.ltb_spec 0 (currentTime s)); [done|lia].
    + intros Hz. unfold cpuUtilization.
      destruct (Z.ltb_spec 0 (currentTime s)); [lia|done].
  - intros ps Hbad. unfold handleSubmit. destruct ps as [|p0 ps]; [by eexists|].
    simpl length. cbn [Nat.eqb].
    destruct (List.find invalidProcess (p0 :: ps)) as [p|] eqn:Hf; [by eexists|].
    apply find_invalid_None in Hf. by destruct Hbad.
  - intros ps. destruct (Hrun ps) as (s & Hr & Htot & Hidle).
    exists (finish s). split; [done|]. rewrite Htot. done.
  - intros z Hz. unfold toNumber. destruct (Z.ltb_spec z 0); [lia|].
    rewrite of_uint63_spec. f_equal. rewrite Uint63.of_Z_spec.
    apply Z.mod_small. exact Hz.
  - eexists. split; [vm_compute; reflexivity|]. split_and!; [done|reflexivity..].
  - eexists. split; [vm_compute; reflexivity|]. split_and!; [done|reflexivity..].
Qed.

(** ** The returned records *)

(** C10: the returned list has the length and the order of the input, and
    each returned record has the id, pid, arrival, burst and priority of
    the input record at its position; the five other fields are the only
    ones that can differ. *)
Theorem result_keeps_identity ps :
  ∃ r, runPrioritySimulation ps = Some r ∧
       length (res_processes r) = length ps ∧
       Forall2 sameIdentity ps (res_processes r).
Proof.
  destruct (run_total ps) as (s & Hrun & Hreach & Hdone & Htot).
  exists (finish s). split; [done|]. simpl.
  destruct (reachable_inv _ _ Hreach) as (HF & _).
  split; [symmetry; by eapply Forall2_length|].
  eapply Forall2_impl; [exact HF|]. by intros p0 p [? _].
Qed.

(** * The engine on an object store *)

(** ** The caller's store is left alone *)

Lemma elem_of_insertBy {A} (cmp : A → A → Z) x y l :
  y ∈ insertBy cmp x l ↔ y = x ∨ y ∈ l.
Proof.
  induction l as [|z l IH]; simpl.
  - rewrite list_elem_of_singleton, elem_of_nil. tauto.
  - destruct (cmp x z <=? 0); rewrite !elem_of_cons; [tauto|].
    rewrite IH. tauto.
Qed.

Lemma elem_of_stableSort {A} (cmp : A → A → Z) x l :
  x ∈ stableSort cmp l ↔ x ∈ l.
Proof.
  induction l as [|z l IH]; [done|].
  rewrite stableSort_cons, elem_of_insertBy, elem_of_cons, IH. done.
Qed.

Lemma extends_refl h : extends h h.
Proof. by split. Qed.

Lemma extends_trans h0 h1 h2 : extends h0 h1 → extends h1 h2 → extends h0 h2.
Proof. intros [? ?] [? ?]. split; by etrans. Qed.

Lemma allocProcess_spec v h l h' :
  allocProcess v h = (l, h') →
  extends h h' ∧ objects h !! l = None ∧
  ∃ la, arrays h !! la = None ∧
        objects h' = <[l:=set_startTimes la v]> (objects h) ∧
        arrays h' = <[la:=startTimes v]> (arrays h).
Proof.
  unfold allocProcess. intros [= <- <-].
  assert (objects h !! fresh (dom (objects h)) = None) as Ho
    by (apply not_elem_of_dom, is_fresh).
  assert (arrays h !! fresh (dom (arrays h)) = None) as Ha
    by (apply not_elem_of_dom, is_fresh).
  split_and!; [|done|eauto].
  split; simpl; by apply insert_subseteq.
Qed.

Lemma parse_cons v vs h :
  parse (v :: vs) h =
  let '(l, h1) := allocProcess v h in
  let '(ls, h2) := parse vs h1 in (l :: ls, h2).
Proof. done. Qed.

Lemma parse_frame vs : ∀ h0 h ls h',
  extends h0 h → parse vs h = (ls, h') →
  extends h h' ∧ private h0 h' ls.
Proof.
  induction vs as [|v vs IH]; intros h0 h ls h' Hext.
  - intros [= <- <-]. split; [apply extends_refl|constructor].
  - rewrite parse_cons. destruct (allocProcess v h) as [l h1] eqn:Hal.
    destruct (parse vs h1) as [ls' h2] eqn:Hp. intros [= <- <-].
    apply allocProcess_spec in Hal as (Hext1 & Hfree & la & Hla & Hobj & Harr).
    destruct (IH h0 h1 ls' h2) as [Hext2 Hpriv]; [by eapply extends_trans|done|].
    split; [by eapply extends_trans|]. constructor; [|done].
    destruct Hext as [Ho Ha]. split.
    + eapply lookup_weaken_None; [exact Hfree|exact Ho].
    + exists (set_startTimes la v). split.
      * eapply lookup_weaken; [|apply Hext2]. rewrite Hobj. apply lookup_insert_eq.
      * simpl. eapply lookup_weaken_None; [exact Hla|exact Ha].
Qed.

Lemma lookupAll_elem h ls os l o :
  lookupAll h ls = Some os → (l, o) ∈ os → l ∈ ls ∧ objects h !! l = Some o.
Proof.
  intros HF%mapM_Some_1 [k Hk]%list_elem_of_lookup.
  destruct (Forall2_lookup_r _ _ _ _ _ HF Hk) as (l' & Hl' & Heq).
  apply fmap_Some in Heq as (o' & Ho' & [= -> ->]).
  split; [|done]. apply list_elem_of_lookup. eauto.
Qed.

(** The object picked by a tick is one of the engine's. *)
Lemma selected_ref h ls t q l o :
  readyQueueRef h ls t = Some q →
  head (stableSort (λ a b : loc * ProcessOf loc, compareFn a.2 b.2) q) = Some (l, o) →
  l ∈ ls ∧ objects h !! l = Some o.
Proof.
  unfold readyQueueRef. intros Hq Hh.
  destruct (lookupAll h ls) as [os|] eqn:Hos; simplify_eq/=.
  apply head_Some_elem_of, elem_of_stableSort, list_elem_of_filter in Hh as [_ Hin].
  by eapply lookupAll_elem.
Qed.

Lemma tickRef_cases h s h' s' :
  tickRef (h, s) = Some (h', s') ↔ tickRefCase h s h' s'.
Proof.
  unfold tickRef. split.
  - destruct (readyQueueRef h (processes s) (currentTime s)) as [q|] eqn:Hq; [|done].
    simpl. destruct q as [|x q].
    + destruct (chartIdle _ _ _) as [g|] eqn:Hg; simpl; [|done].
      intros [= <- <-]. by eapply ref_idle.
    + destruct (head _) as [[l o]|] eqn:Hh; simpl; [|done].
      case_bool_decide as Hne; simpl.
      * destruct (recordStartRef _ _ _) as [h1|] eqn:Hrec; simpl; [|done].
        intros [= <- <-]. by eapply ref_switch.
      * destruct (extendLast _ _) as [g|] eqn:Hg; simpl; [|done].
        intros [= <- <-]. eapply ref_continue; eauto.
  - intros [g Hq Hg|q l o h1 Hq Hh Hne Hrec|q l o g Hq Hh He Hg]; rewrite Hq; simpl.
    + by rewrite Hg.
    + destruct q as [|x q]; [done|]. rewrite Hh. simpl.
      rewrite bool_decide_true by done. by rewrite Hrec.
    + destruct q as [|x q]; [done|]. rewrite Hh. simpl.
      rewrite bool_decide_false by (intros ?; done). by rewrite Hg.
Qed.

Lemma recordStartRef_spec t o h h1 :
  recordStartRef t o h = Some h1 →
  ∃ a, arrays h !! startTimes o = Some a ∧ objects h1 = objects h ∧
       arrays h1 = <[startTimes o := if (length a =? 0)%nat then a ++ [t] else a]> (arrays h).
Proof.
  unfold recordStartRef. destruct (arrays h !! startTimes o) as [a|] eqn:Ha; [|done].
  simpl. intros [= <-]. exists a. destruct (length a =? 0)%nat; simpl; [done|].
  split_and!; [done..|]. by rewrite insert_id.
Qed.

Lemma execute_startTimes {T} t (p : ProcessOf T) : startTimes (execute t p) = startTimes p.
Proof. unfold execute. simpl. by destruct (_ =? 0). Qed.

(** An iteration writes to the engine's own objects and arrays only. *)
Lemma tickRef_frame h0 h s h' s' :
  extends h0 h → private h0 h (processes s) →
  tickRefCase h s h' s' →
  extends h0 h' ∧ private h0 h' (processes s') ∧ processes s' = processes s.
Proof.
  assert (Hwrite : ∀ h1 l o,
    extends h0 h1 → private h0 h1 (processes s) →
    l ∈ processes s → objects h1 !! l = Some o →
    let h2 := mkHeap (<[l:=execute (currentTime s + 1) o]> (objects h1)) (arrays h1) in
    extends h0 h2 ∧ private h0 h2 (processes s)).
  { intros h1 l o [Ho Ha] Hpriv Hl Hlo. simpl.
    pose proof (proj1 (Forall_forall _ _) Hpriv l Hl) as (Hnone & o' & Ho' & Harr).
    simplify_eq. split.
    - split; simpl; [|done]. by apply insert_subseteq_r.
    - unfold private. eapply Forall_impl; [exact Hpriv|]. simpl.
      intros l' (? & o' & Hl' & ?). split; [done|].
      destruct (decide (l = l')) as [<-|Hne].
      + exists (execute (currentTime s + 1) o). rewrite lookup_insert_eq.
        split; [done|]. rewrite execute_startTimes. congruence.
      + exists o'. by rewrite lookup_insert_ne. }
  intros Hext Hpriv [g Hq Hg|q l o h1 Hq Hh Hne Hrec|q l o g Hq Hh He Hg]; simpl.
  - done.
  - destruct (selected_ref _ _ _ _ _ _ Hq Hh) as [Hl Hlo].
    apply recordStartRef_spec in Hrec as (a & Ha & Hobj & Harr).
    pose proof (proj1 (Forall_forall _ _) Hpriv l Hl) as (Hnone & o' & Ho' & Hfree).
    simplify_eq.
    destruct (Hwrite h1 l o) as [? ?]; [| |done|by rewrite Hobj|done].
    + destruct Hext as [Ho Hb]. split; [by rewrite Hobj|].
      rewrite Harr. by apply insert_subseteq_r.
    + unfold private. eapply Forall_impl; [exact Hpriv|]. simpl.
      intros l' (? & o' & Hl' & ?). split; [done|]. exists o'. by rewrite Hobj.
  - destruct (selected_ref _ _ _ _ _ _ Hq Hh) as [Hl Hlo].
    destruct (Hwrite h l o) as [? ?]; done.
Qed.

Lemma loopRef_unfold n hs :
  loopRef n hs =
  match anyRemainingRef hs.1 (processes hs.2) with
  | Some true => match n with O => None | S k => hs' ← tickRef hs; loopRef k hs' end
  | Some false => Some hs
  | None => None
  end.
Proof. destruct n; simpl; by destruct (anyRemainingRef _ _) as [[|]|]. Qed.

Lemma loopRef_frame h0 n : ∀ h s h' s',
  extends h0 h → private h0 h (processes s) →
  loopRef n (h, s) = Some (h', s') →
  extends h0 h' ∧ processes s' = processes s.
Proof.
  induction n as [|n IH]; intros h s h' s' Hext Hpriv; rewrite loopRef_unfold;
    cbn [fst snd]; destruct (anyRemainingRef h (processes s)) as [[|]|];
    try done; try by intros [= <- <-].
  destruct (tickRef (h, s)) as [[h1 s1]|] eqn:Ht; [|done].
  apply tickRef_cases in Ht.
  destruct (tickRef_frame _ _ _ _ _ Hext Hpriv Ht) as (Hext1 & Hpriv1 & Hps).
  cbn [mbind option_bind]. intros Hl.
  destruct (IH _ _ _ _ Hext1 Hpriv1 Hl) as [? ?]. split; [done|congruence].
Qed.

(** Whatever the engine returns, the store it leaves extends the store it
    was called in. *)
Lemma run_frame h args h' r :
  runPrioritySimulationRef h args = Some (h', r) → extends h h'.
Proof.
  unfold runPrioritySimulationRef.
  destruct (stringify h args) as [vs|]; simpl; [|done].
  destruct (parse vs h) as [ls h1] eqn:Hp.
  destruct (parse_frame vs h h ls h1 (extends_refl h) Hp) as [Hext Hpriv].
  destruct (loopRef _ _) as [[h2 s]|] eqn:Hl; simpl; [|done].
  intros [= <- <-].
  by destruct (loopRef_frame h _ h1 (mkState ls 0 [] 0 None false) _ _ Hext Hpriv Hl).
Qed.

(** ** The store against the values *)

Lemma readObject_Some h l v :
  readObject h l = Some v ↔
  ∃ o a, objects h !! l = Some o ∧ arrays h !! startTimes o = Some a ∧
         v = set_startTimes a o.
Proof.
  unfold readObject. split.
  - destruct (objects h !! l) as [o|]; simpl; [|done].
    destruct (arrays h !! startTimes o) as [a|] eqn:Ha; simpl; [|done].
    intros [= <-]. eauto.
  - intros (o & a & -> & Ha & ->). simpl. by rewrite Ha.
Qed.

Lemma readObject_weaken h h' l v :
  extends h h' → readObject h l = Some v → readObject h' l = Some v.
Proof.
  intros [Ho Ha]. rewrite !readObject_Some. intros (o & a & Hl & Hs & ->).
  exists o, a. split_and!; [by eapply lookup_weaken..|done].
Qed.

Lemma execute_set_startTimes {T U} t (a : U) (o : ProcessOf T) :
  set_startTimes a (execute t o) = execute t (set_startTimes a o).
Proof. unfold execute. simpl. by destruct (_ =? 0). Qed.

Lemma recordStart_set_startTimes {T} t a (o : ProcessOf T) :
  recordStart t (set_startTimes a o) =
  set_startTimes (if (length a =? 0)%nat then a ++ [t] else a) o.
Proof. unfold recordStart. simpl. by destruct (_ =? _)%nat. Qed.

(** Writing the object at position [i] and its array. *)
Lemma represents_update h ls vs i l o a o' a' :
  represents h ls vs → ls !! i = Some l →
  objects h !! l = Some o → arrays h !! startTimes o = Some a →
  startTimes o' = startTimes o →
  represents (mkHeap (<[l:=o']> (objects h)) (<[startTimes o:=a']> (arrays h)))
             ls (<[i:=set_startTimes a' o']> vs).
Proof.
  intros (Hnd & HF & Hinj) Hi Hl Ha Hst. split_and!; [done| |].
  - apply Forall2_same_length_lookup. split; [rewrite length_insert; by eapply Forall2_length|].
    intros j lj vj Hlj Hvj. apply readObject_Some. simpl.
    destruct (decide (i = j)) as [<-|Hne].
    + simplify_eq. apply list_lookup_insert_Some in Hvj as [(_ & <- & _)|[? _]]; [|done].
      exists o', a'. rewrite lookup_insert_eq, Hst, lookup_insert_eq. done.
    + rewrite list_lookup_insert_ne in Hvj by done.
      pose proof (Forall2_lookup_lr _ _ _ _ _ _ HF Hlj Hvj) as Hr.
      apply readObject_Some in Hr as (oj & aj & Hoj & Haj & ->).
      assert (l ≠ lj) as Hll.
      { intros ->. apply Hne. by eapply NoDup_lookup. }
      assert (startTimes o ≠ startTimes oj) as Hss.
      { intros Heq. apply Hne. by eapply (Hinj i j). }
      exists oj, aj. by rewrite !lookup_insert_ne.
  - simpl. intros j k lj lk oj ok Hj Hk Hoj Hok Heq.
    assert (∀ m lm om, ls !! m = Some lm → <[l:=o']> (objects h) !! lm = Some om →
                       ∃ om', objects h !! lm = Some om' ∧ startTimes om' = startTimes om)
      as Hback.
    { intros m lm om Hm Hom. destruct (decide (l = lm)) as [<-|Hne].
      - rewrite lookup_insert_eq in Hom. injection Hom as <-. eauto.
      - rewrite lookup_insert_ne in Hom by done. eauto. }
    destruct (Hback j lj oj Hj Hoj) as (oj' & Hoj' & Hsj).
    destruct (Hback k lk ok Hk Hok) as (ok' & Hok' & Hsk).
    eapply (Hinj j k); [done..|]. congruence.
Qed.

(** What [JSON.parse] builds stands for the serialised values. *)
Lemma parse_represents vs : ∀ h ls h',
  parse vs h = (ls, h') → represents h' ls vs.
Proof.
  induction vs as [|v vs IH]; intros h ls h'.
  - intros [= <- <-]. split_and!; [constructor|constructor|]. by intros [|?].
  - rewrite parse_cons. destruct (allocProcess v h) as [l h1] eqn:Hal.
    destruct (parse vs h1) as [ls' h2] eqn:Hp. intros [= <- <-].
    destruct (IH _ _ _ Hp) as (Hnd & HF & Hinj).
    destruct (parse_frame vs h1 h1 ls' h2 (extends_refl _) Hp) as [Hext Hpriv].
    apply allocProcess_spec in Hal as (_ & _ & la & _ & Hobj & Harr).
    assert (objects h1 !! l = Some (set_startTimes la v)) as Hl1
      by (rewrite Hobj; apply lookup_insert_eq).
    assert (arrays h1 !! la = Some (startTimes v)) as Ha1
      by (rewrite Harr; apply lookup_insert_eq).
    pose proof Hext as [Ho Ha].
    pose proof (lookup_weaken _ _ _ _ Hl1 Ho) as Hl2.
    pose proof (lookup_weaken _ _ _ _ Ha1 Ha) as Ha2.
    pose proof (proj1 (Forall_forall _ _) Hpriv) as Hp'.
    split_and!.
    + constructor; [|done]. intros Hin%Hp'. destruct Hin as (Hnone & _). congruence.
    + constructor; [|done]. apply readObject_Some.
      exists (set_startTimes la v), (startTimes v). split_and!; [done..|].
      by destruct v.
    + intros [|i] [|j] li lj oi oj Hi Hj Hoi Hoj Heq; simplify_eq/=; try done.
      * exfalso. assert (lj ∈ ls') as Hin by (apply list_elem_of_lookup; eauto).
        destruct (Hp' lj Hin) as (_ & o & Ho' & Hfree). simplify_eq/=; congruence.
      * exfalso. assert (li ∈ ls') as Hin by (apply list_elem_of_lookup; eauto).
        destruct (Hp' li Hin) as (_ & o & Ho' & Hfree). simplify_eq/=; congruence.
      * f_equal. by eapply (Hinj i j).
Qed.

Lemma filter_fmap_equiv {A B} (f : A → B) (P : B → Prop) (Q : A → Prop)
    `{∀ x, Decision (P x)} `{∀ x, Decision (Q x)} (l : list A) :
  (∀ x, Q x ↔ P (f x)) → filter P (f <$> l) = f <$> filter Q l.
Proof.
  intros HPQ. induction l as [|x l IH]; [done|].
  rewrite fmap_cons, !filter_cons, IH.
  destruct (decide (P (f x))) as [HP|HP], (decide (Q x)) as [HQ|HQ];
    try done; by apply HPQ in HQ || apply HPQ in HP.
Qed.

Lemma head_fmap_comm {A B} (f : A → B) (l : list A) : head (f <$> l) = f <$> head l.
Proof. by destruct l. Qed.

Lemma existsb_fmap {A B} (f : A → B) (b : B → bool) (l : list A) :
  existsb b (f <$> l) = existsb (λ x, b (f x)) l.
Proof. induction l as [|x l IH]; [done|]. csimpl. by rewrite IH. Qed.

Lemma imap_pair_snd {A} (l : list A) : snd <$> imap pair l = l.
Proof.
  rewrite fmap_imap.
  assert (∀ g : nat → nat, imap (λ n, snd ∘ pair (g n)) l = l) as Hg.
  { induction l as [|x l IH]; intros g; [done|].
    rewrite imap_cons. simpl. f_equal. apply (IH (g ∘ S)). }
  apply (Hg (λ n, n)).
Qed.

(** The objects behind the engine's references, with their values. *)
Lemma represents_lookupAll h ls vs :
  represents h ls vs →
  ∃ os, lookupAll h ls = Some os ∧ os.*1 = ls ∧
        vs = (λ lo, valueOf h lo.2) <$> os ∧
        Forall (λ lo, objects h !! lo.1 = Some lo.2 ∧
                      is_Some (arrays h !! startTimes lo.2)) os.
Proof.
  intros (_ & HF & _). unfold lookupAll.
  induction HF as [|l v ls vs Hr HF (os & Hos & Hfst & Hvs & Hall)].
  - exists []. by repeat split.
  - apply readObject_Some in Hr as (o & a & Hl & Ha & ->).
    exists ((l, o) :: os). split_and!.
    + apply mapM_Some_2. constructor; [by rewrite Hl|by apply mapM_Some_1].
    + csimpl. by f_equal.
    + csimpl. f_equal; [|done]. unfold valueOf. by rewrite Ha.
    + constructor; [|done]. simpl. split; [done|by eexists].
Qed.

Lemma anyRemaining_refines h ls vs :
  represents h ls vs → anyRemainingRef h ls = Some (anyRemaining vs).
Proof.
  intros (os & Hos & _ & -> & _)%represents_lookupAll.
  unfold anyRemainingRef, anyRemaining. rewrite Hos. simpl. f_equal.
  by rewrite existsb_fmap.
Qed.

(** The ready queue of the store and the ready queue of the values are two
    views of the same positions, and so are their sorted heads. *)
Lemma running_refines h ls s t :
  represents h ls (processes s) → t = currentTime s →
  ∃ q, readyQueueRef h ls t = Some q ∧
       match runningProcess s with
       | None => q = []
       | Some (i, p) =>
           ∃ l o a,
             head (stableSort (λ a b : loc * ProcessOf loc, compareFn a.2 b.2) q) = Some (l, o) ∧
             ls !! i = Some l ∧ objects h !! l = Some o ∧
             arrays h !! startTimes o = Some a ∧ p = set_startTimes a o
       end.
Proof.
  intros Hrep ->.
  destruct (represents_lookupAll _ _ _ Hrep) as (os & Hos & Hfst & Hvs & Hall).
  unfold readyQueueRef, runningProcess, readyQueue. rewrite Hos, Hvs. simpl.
  eexists. split; [done|].
  set (F := λ x : nat * (loc * ProcessOf loc), (x.1, valueOf h x.2.2)).
  set (Q := filter (λ x : nat * (loc * ProcessOf loc), isReady (currentTime s) x.2.2)
                   (imap pair os)).
  assert (filter (λ ip : nat * Process, isReady (currentTime s) ip.2)
                 (imap pair ((λ lo, valueOf h lo.2) <$> os)) = F <$> Q) as ->.
  { rewrite imap_fmap. subst Q.
    rewrite <- (filter_fmap_equiv F (λ ip : nat * Process, isReady (currentTime s) ip.2)
                  (λ x : nat * (loc * ProcessOf loc), isReady (currentTime s) x.2.2)) by done.
    f_equal. rewrite fmap_imap. by apply imap_ext. }
  assert (filter (λ lo : loc * ProcessOf loc, isReady (currentTime s) lo.2) os = snd <$> Q)
    as ->.
  { subst Q.
    rewrite <- (filter_fmap_equiv snd (λ lo : loc * ProcessOf loc, isReady (currentTime s) lo.2)
                  (λ x : nat * (loc * ProcessOf loc), isReady (currentTime s) x.2.2)) by done.
    by rewrite imap_pair_snd. }
  rewrite <- (stableSort_fmap F (λ a b, compareFn a.2.2 b.2.2)) by done.
  rewrite <- (stableSort_fmap snd (λ a b, compareFn a.2.2 b.2.2)) by done.
  rewrite !head_fmap_comm.
  destruct (head (stableSort _ Q)) as [[i [l o]]|] eqn:Hh; simpl.
  - apply head_Some_elem_of, elem_of_stableSort in Hh. subst Q.
    apply list_elem_of_filter in Hh as [_ Hin].
    apply elem_of_lookup_imap in Hin as (i' & lo & [= <- <-] & Hi).
    pose proof (proj1 (Forall_forall _ _) Hall (l, o)) as [Hl [a Ha]].
    { apply list_elem_of_lookup. eauto. }
    simpl in Hl, Ha. exists l, o, a. split_and!; [done| |done|done|].
    + rewrite <- Hfst, list_lookup_fmap, Hi. done.
    + unfold valueOf. by rewrite Ha.
  - apply head_stableSort_None in Hh. by rewrite Hh.
Qed.

(** An iteration on the values is matched by an iteration on the store. *)
Lemma tick_refines h sR s s' :
  refines (h, sR) s → tickCase s s' →
  ∃ h' sR', tickRefCase h sR h' sR' ∧ refines (h', sR') s'.
Proof.
  intros (Hrep & Ht & Hg & Hi & Hl & Hb) Hcase.
  destruct sR as [ls tR gR iR lR bR]. simpl in *. subst tR gR iR lR bR.
  destruct (running_refines h ls s (currentTime s) Hrep eq_refl) as (q & Hq & Hsel).
  destruct Hcase as [g Hnil Hg ->|i p Hrun Hne ->|i p g Hrun He Hg ->].
  - apply runningProcess_None in Hnil. rewrite Hnil in Hsel. subst q.
    eexists _, _. split; [eapply ref_idle; [exact Hq|exact Hg]|].
    split; [exact Hrep|by repeat split].
  - rewrite Hrun in Hsel. destruct Hsel as (l & o & a & Hh & Hil & Ho & Ha & ->).
    destruct (recordStartRef (currentTime s) o h) as [h1|] eqn:Hrec;
      [|unfold recordStartRef in Hrec; by rewrite Ha in Hrec].
    eexists _, _. split; [eapply ref_switch; [exact Hq|exact Hh|exact Hne|exact Hrec]|].
    apply recordStartRef_spec in Hrec as (a' & Ha' & Hobj & Harr).
    rewrite Ha in Ha'. injection Ha' as <-.
    split; [simpl|by repeat split]. rewrite Hobj, Harr.
    rewrite recordStart_set_startTimes, <- execute_set_startTimes.
    eapply represents_update; [done..|]. apply execute_startTimes.
  - rewrite Hrun in Hsel. destruct Hsel as (l & o & a & Hh & Hil & Ho & Ha & ->).
    eexists _, _. split; [eapply ref_continue; [exact Hq|exact Hh|exact He|exact Hg]|].
    split; [simpl|by repeat split].
    rewrite <- (insert_id (arrays h) (startTimes o) a) at 1 by done.
    rewrite <- execute_set_startTimes.
    eapply represents_update; [done..|]. apply execute_startTimes.
Qed.

Lemma loop_unfold n s :
  loop n s =
  if anyRemaining (processes s) then
    match n with O => None | S k => s' ← tick s; loop k s' end
  else Some s.
Proof. by destruct n. Qed.

Lemma loop_refines n : ∀ h sR s s',
  refines (h, sR) s → loop n s = Some s' →
  ∃ h' sR', loopRef n (h, sR) = Some (h', sR') ∧ refines (h', sR') s'.
Proof.
  induction n as [|n IH]; intros h sR s s' Href;
    rewrite loopRef_unfold, loop_unfold; cbn [fst snd];
    rewrite (anyRemaining_refines h (processes sR) (processes s)) by apply Href;
    destruct (anyRemaining (processes s)); try done;
    try (intros [= <-]; by eauto).
  destruct (tick s) as [s1|] eqn:Ht; [|done]. cbn [mbind option_bind].
  apply tick_cases in Ht.
  destruct (tick_refines _ _ _ _ Href Ht) as (h1 & sR1 & Hc & Href1).
  apply tickRef_cases in Hc. rewrite Hc. cbn [mbind option_bind]. by apply IH.
Qed.

(** The engine on the store returns, and what it returns reads as the
    result of the engine on the values. *)
Lemma run_refines h args vs :
  stringify h args = Some vs →
  ∃ h' r rv,
    runPrioritySimulationRef h args = Some (h', r) ∧
    runPrioritySimulation vs = Some rv ∧
    stringify h' (res_processes r) = Some (res_processes rv) ∧
    gantt r = gantt rv ∧ totalTime r = totalTime rv ∧ res_idleTime r = res_idleTime rv.
Proof.
  intros Hs. unfold runPrioritySimulationRef, runPrioritySimulation. rewrite Hs. simpl.
  destruct (parse vs h) as [ls h1] eqn:Hp.
  destruct (loop_total vs (ticksBound vs 0) (initState vs)) as (s & Hloop & _);
    [constructor|done|].
  assert (refines (h1, mkState ls 0 [] 0 None false) (initState vs)) as Href0.
  { split; [simpl; by eapply parse_represents|by repeat split]. }
  destruct (loop_refines _ _ _ _ _ Href0 Hloop) as (h2 & sR & HloopR & Href).
  unfold initState, deepCopy in *. simpl in *. rewrite Hloop, HloopR. simpl.
  destruct Href as ((_ & HF & _) & Ht & Hg & Hi & _). simpl in *.
  eexists _, _, _. split_and!; [done|done| |simpl..].
  - simpl. by apply mapM_Some_2.
  - done.
  - by rewrite Hg.
  - done.
Qed.

(** ** The caller's records *)

(** C9: called on references to records of the caller's store, the engine
    returns, and the store it leaves holds every object and every array of
    the caller's store with the contents they had before the call: the
    caller's list reads back as the same records, field by field,
    [startTimes] included. *)
Theorem caller_records_unchanged h args vs :
  stringify h args = Some vs →
  ∃ h' r, runPrioritySimulationRef h args = Some (h', r) ∧
          (∀ l o, objects h !! l = Some o → objects h' !! l = Some o) ∧
          (∀ l a, arrays h !! l = Some a → arrays h' !! l = Some a) ∧
          stringify h' args = Some vs.
Proof.
  intros Hs. destruct (run_refines h args vs Hs) as (h' & r & rv & Hrun & _).
  exists h', r. split; [done|].
  pose proof (run_frame _ _ _ _ Hrun) as Hext. pose proof Hext as [Ho Ha].
  split_and!.
  - intros l o Hl. by eapply lookup_weaken.
  - intros l a Hl. by eapply lookup_weaken.
  - apply mapM_Some_2. apply mapM_Some_1 in Hs.
    eapply Forall2_impl; [exact Hs|]. intros l v. by apply readObject_weaken.
Qed.

(** The initial form, held in a store of the caller, reads the same after
    a call of the engine. *)
Lemma caller_records_unchanged_initialProcesses :
  ∃ h' r,
    runPrioritySimulationRef (storeOf initialProcesses).2 (storeOf initialProcesses).1
      = Some (h', r) ∧
    stringify h' (storeOf initialProcesses).1 = Some initialProcesses.
Proof.
  destruct (caller_records_unchanged (storeOf initialProcesses).2
              (storeOf initialProcesses).1 initialProcesses)
    as (h' & r & Hr & _ & _ & Hs); [vm_compute; reflexivity|].
  exists h', r. split; [exact Hr|exact Hs].
Defined.

(** The copy matters: the loop started on the caller's own references
    leaves the caller's records changed. *)
Lemma loop_on_caller_references_mutates :
  ∃ h' s, loopRef 12 ((storeOf [P1; P2]).2,
                      mkState (storeOf [P1; P2]).1 0 [] 0 None false) = Some (h', s) ∧
          stringify h' (storeOf [P1; P2]).1 ≠ Some [P1; P2].
Proof. eexists _, _. split; [vm_compute; reflexivity|]. vm_compute. discriminate. Qed.

(** * More about the engine *)

(** ** The number of iterations *)

Lemma sumZ_app {A} (f : A → Z) l k : sumZ f (l ++ k) = sumZ f l + sumZ f k.
Proof. induction l as [|a l IH]; simpl; lia. Qed.

Lemma work_done ps qs t :
  Forall2 (tracks t) ps qs → Forall (λ q, remaining q ≤ 0) qs →
  sumZ remaining ps - sumZ remaining qs = workLeft ps.
Proof.
  unfold workLeft. induction 1 as [|p0 p ps qs [_ Hst] HF IH]; [done|].
  intros [Hle Hall]%Forall_cons. specialize (IH Hall). simpl.
  destruct Hst as [->|(? & _)]; lia.
Qed.

Lemma trace_unfold n s :
  trace n s =
  if anyRemaining (processes s) then
    match n, tick s with
    | S k, Some s' => ((λ ip : nat * Process, pid ip.2) <$> runningProcess s) :: trace k s'
    | _, _ => []
    end
  else [].
Proof. by destruct n. Qed.

(** The trace of a run has one entry per tick of the clock, the idle ones
    as many as the idle counter grows. *)
Lemma trace_length ps n s :
  reachable ps s → (ticksBound (processes s) (currentTime s) ≤ n)%nat →
  ∃ s', loop n s = Some s' ∧
        currentTime s ≤ currentTime s' ∧ idleTime s ≤ idleTime s' ∧
        length (trace n s) = Z.to_nat (currentTime s' - currentTime s) ∧
        length (filter (λ o, o = None) (trace n s)) = Z.to_nat (idleTime s' - idleTime s).
Proof.
  revert s. induction n as [|n IH]; intros s Hreach Hbound;
    rewrite loop_unfold, trace_unfold;
    destruct (anyRemaining (processes s)) eqn:Hany;
    try (exists s; split_and!; [done|lia|lia|simpl; lia|simpl; lia]).
  - destruct (tick_defined s) as [s' Hs']; [apply (reachable_inv _ _ Hreach)|].
    pose proof (ticksBound_tick s s' (proj1 (tick_cases _ _) Hs') Hany). lia.
  - destruct (tick_defined s) as [s1 Hs1]; [apply (reachable_inv _ _ Hreach)|].
    pose proof Hs1 as Hc%tick_cases.
    pose proof (ticksBound_tick s s1 Hc Hany).
    rewrite Hs1. cbn [mbind option_bind].
    destruct (IH s1) as (s' & Hloop & Hle & Hile & Hlen & Hidle);
      [by eapply reach_tick|lia|].
    exists s'. split; [done|].
    assert (currentTime s1 = currentTime s + 1 ∧
            ((runningProcess s = None ∧ idleTime s1 = idleTime s + 1) ∨
             (is_Some (runningProcess s) ∧ idleTime s1 = idleTime s))) as [Ht Hrun].
    { destruct Hc as [g Hq Hg ->|i p Hrun Hne ->|i p g Hrun He Hg ->]; simpl;
        (split; [done|]); [left|right|right]; rewrite ?Hrun; eauto.
      split; [|done]. by apply runningProcess_None. }
    split_and!; [lia| |simpl; lia|].
    + destruct Hrun as [[_ ?]|[_ ?]]; lia.
    + rewrite filter_cons. destruct Hrun as [[-> Hi]|[[x ->] Hi]]; simpl.
      * lia.
      * lia.
Qed.

(** X1: on every input, valid or not, the engine returns; the total time
    is the idle time plus the sum of the positive [remaining] values on
    entry, the idle time is at most the latest arrival, and the loop makes
    exactly [totalTime] iterations, [idleTime] of which are idle. *)
Theorem loop_iterates_totalTime_times ps :
  ∃ r, runPrioritySimulation ps = Some r ∧
       totalTime r = res_idleTime r + workLeft ps ∧
       0 ≤ res_idleTime r ≤ maxArrival ps ∧
       length (schedule ps) = Z.to_nat (totalTime r) ∧
       length (filter (λ o, o = None) (schedule ps)) = Z.to_nat (res_idleTime r).
Proof.
  destruct (loop_total ps (ticksBound (processes (initState ps)) 0) (initState ps))
    as (s & Hloop & Hreach & Hdone); [constructor|done|].
  destruct (trace_length ps (ticksBound (processes (initState ps)) 0) (initState ps))
    as (s' & Hloop' & _ & _ & Hlen & Hidle); [constructor|done|].
  rewrite Hloop in Hloop'. injection Hloop' as <-.
  destruct (reachable_inv _ _ Hreach) as (HF & (Hsum & Hi & Hmax) & Hcov & _).
  exists (finish s). unfold runPrioritySimulation, schedule.
  cbv zeta. rewrite Hloop, Hlen, Hidle. simpl.
  rewrite (totalExecutionTime_covers _ _ Hcov).
  split_and!; [done| |lia|lia| |].
  - pose proof (work_done _ _ _ HF) as Hw. rewrite <- Hw; [lia|].
    apply Forall_lookup. intros i p Hp. by eapply anyRemaining_false.
  - f_equal. lia.
  - f_equal. lia.
Qed.

(** ** What becomes of each record *)

(** X2: a record that enters with work left is returned with nothing left,
    completed no earlier than its arrival plus the work it entered with
    and no later than the total time, with turnaround and waiting time
    derived from that completion; a record that enters with no work left
    is returned as it came. *)
Theorem records_with_work_complete ps i p0 :
  ps !! i = Some p0 →
  ∃ r p, runPrioritySimulation ps = Some r ∧ res_processes r !! i = Some p ∧
         (remaining p0 ≤ 0 → p = p0) ∧
         (0 < remaining p0 →
          remaining p = 0 ∧
          arrival p0 + remaining p0 ≤ completionTime p ≤ totalTime r ∧
          turnaroundTime p = completionTime p - arrival p0 ∧
          waitingTime p = turnaroundTime p - burst p0).
Proof.
  intros Hp0. destruct (run_total ps) as (s & Hrun & Hreach & Hdone & Htot).
  destruct (reachable_inv _ _ Hreach) as (HF & _).
  destruct (Forall2_lookup_l _ _ _ _ _ HF Hp0) as (p & Hp & _ & Hst).
  pose proof (proj1 (anyRemaining_false _) Hdone i p Hp) as Hle.
  exists (finish s), p. rewrite Htot. split_and!; [done..| |].
  - intros Hnone. destruct Hst as [->|(? & _)]; [done|lia].
  - intros Hwork. destruct Hst as [->|(? & _ & Hc)]; [lia|].
    assert (remaining p = 0) as Hz by lia. destruct (Hc Hz) as (? & ? & ? & ?).
    split_and!; done.
Qed.

(** The record of the initial form whose burst was lowered to 3 still runs
    the 8 units it entered with. *)
Lemma loweredBurst_runs_its_remaining :
  ∃ r p, runPrioritySimulation loweredBurst = Some r ∧
         res_processes r !! 0%nat = Some p ∧
         remaining p = 0 ∧ 0 + 8 ≤ completionTime p ≤ totalTime r.
Proof.
  destruct (records_with_work_complete loweredBurst 0 (mkProcess 1 "P1" 0 3 2 8 0 0 0 []))
    as (r & p & Hr & Hp & _ & Hw); [reflexivity|].
  exists r, p. destruct Hw as (H0 & Hc & _); [simpl; lia|].
  split_and!; [exact Hr|exact Hp|exact H0|apply Hc|apply Hc].
Defined.

(** ** The chart and the idle counter *)

Lemma covers_last g x t :
  covers 0 (g ++ [x]) t → seg_end x = t ∧ seg_start x < t.
Proof. intros (b & _ & Hx)%covers_app. simpl in Hx. lia. Qed.

Lemma idle_tick ps s s' :
  tickCase s s' → anyRemaining (processes s) = true →
  Forall2 (tracks (currentTime s)) ps (processes s) →
  covers 0 (ganttChart s) (currentTime s) →
  idleInv ps s → idleInv ps s'.
Proof.
  intros Hcase Hany HF Hcov (Hknown & Hsum & Hidle & Hlast).
  assert (Hmax : runningProcess s = None → currentTime s + 1 ≤ maxArrival ps).
  { intros Hq%runningProcess_None.
    apply anyRemaining_true in Hany as (i & p & Hi & Hp).
    pose proof (proj1 (readyQueue_nil _ _) Hq i p Hi) as Hnr.
    assert (currentTime s < arrival p) as Hlt.
    { unfold isReady in Hnr. apply andb_false_iff in Hnr as [H|H]; lia. }
    pose proof (maxArrival_ge _ _ _ Hi) as Hle.
    rewrite (tracks_maxArrival _ _ _ HF) in Hle. lia. }
  destruct Hcase as [g Hq Hg ->|i p Hrun Hne ->|i p g Hrun He Hg ->];
    unfold idleInv; simpl.
  - apply runningProcess_None in Hq. specialize (Hmax Hq).
    unfold chartIdle in Hg. destruct (isIdle s) eqn:Hb.
    + apply extendLast_inv in Hg as (g0 & x & Hg0 & ->). rewrite Hg0 in *.
      destruct (Hidle eq_refl) as (y & Hy & Hnone). rewrite last_snoc in Hy.
      injection Hy as <-. destruct (covers_last _ _ _ Hcov) as [He _].
      apply Forall_app in Hknown as [Hk0 Hkx]. apply List.Forall_inv in Hkx.
      rewrite !sumZ_app in *. rewrite last_snoc. split_and!.
      * apply Forall_app. split; [done|]. apply Forall_singleton.
        destruct Hkx as [(? & ? & ?)|(? & _ & _ & ? & _)]; [|congruence].
        left. simpl. done.
      * unfold idleLen in *. simpl in *. rewrite Hnone in *. lia.
      * intros _. by exists (set_end (currentTime s + 1) x).
      * done.
    + injection Hg as <-. rewrite sumZ_app, last_snoc. split_and!.
      * apply Forall_app. split; [done|]. apply Forall_singleton. by left.
      * simpl. unfold idleLen at 2. simpl. lia.
      * intros _. by eexists.
      * done.
  - pose proof Hrun as (Hi & [Ha _]%isReady_true & _)%runningProcess_spec.
    destruct (Forall2_lookup_r _ _ _ _ _ HF Hi) as (p0 & Hp0 & (Hid & Hpid & Harr & _) & _).
    rewrite sumZ_app, last_snoc. split_and!.
    + apply Forall_app. split; [done|]. apply Forall_singleton. right.
      exists p0. simpl. split_and!; [|done|by rewrite Hid|lia].
      apply list_elem_of_lookup. eauto.
    + simpl. unfold idleLen at 2. simpl. lia.
    + done.
    + intros x [= <-]. by eexists.
  - apply extendLast_inv in Hg as (g0 & x & Hg0 & ->). rewrite Hg0 in *.
    destruct (Hlast (pid p) (eq_sym He)) as (y & Hy & Hlabel & Hsome).
    rewrite last_snoc in Hy. injection Hy as <-.
    apply Forall_app in Hknown as [Hk0 Hkx]. apply List.Forall_inv in Hkx.
    rewrite !sumZ_app in *. rewrite last_snoc. split_and!.
    + apply Forall_app. split; [done|]. apply Forall_singleton.
      destruct Hkx as [(? & _)|Hkx]; [done|]. by right.
    + unfold idleLen in *. simpl in *. destruct (seg_id x); [lia|done].
    + intros Hb. destruct (Hidle Hb) as (y & Hy & Hnone).
      rewrite last_snoc in Hy. injection Hy as <-. done.
    + intros z [= <-]. by exists (set_end (currentTime s + 1) x).
Qed.

Lemma reachable_idleInv ps s : reachable ps s → idleInv ps s.
Proof.
  induction 1 as [|s s' Hreach IH Hany Htick].
  - unfold idleInv. simpl. split_and!; [constructor|done|done|done].
  - destruct (reachable_inv _ _ Hreach) as (HF & _ & Hcov & _).
    apply tick_cases in Htick. by eapply idle_tick.
Qed.

(** X3: on every input the lengths of the segments that carry no process
    id add up to the idle time; every segment of the chart is an idle
    stretch labelled IDLE that ends no later than the latest arrival, or
    carries the pid and the id of one input record and starts no earlier
    than its arrival. *)
Theorem idle_segments_sum_to_idleTime ps :
  ∃ r, runPrioritySimulation ps = Some r ∧
       sumZ idleLen (gantt r) = res_idleTime r ∧
       Forall (segKnown ps) (gantt r).
Proof.
  destruct (run_total ps) as (s & Hrun & Hreach & _).
  destruct (reachable_idleInv _ _ Hreach) as (Hknown & Hsum & _).
  exists (finish s). by split_and!.
Qed.

(** X4: when no record enters with work left (the empty list included) the
    engine returns the list as it came, an empty chart and a total of 0;
    otherwise the last iteration is never idle: some record completes
    exactly at the total time, and the last segment carries its pid and
    ends there. *)
Theorem last_tick_completes_a_process ps :
  (anyRemaining ps = false ∧ runPrioritySimulation ps = Some (mkResult ps [] 0 0)) ∨
  (anyRemaining ps = true ∧
   ∃ r i p x, runPrioritySimulation ps = Some r ∧ 0 < totalTime r ∧
              res_processes r !! i = Some p ∧ remaining p = 0 ∧
              completionTime p = totalTime r ∧
              last (gantt r) = Some x ∧ seg_pid x = pid p ∧ seg_end x = totalTime r).
Proof.
  destruct (anyRemaining ps) eqn:Hany; [right|left]; (split; [done|]).
  - destruct (run_total ps) as (s & Hrun & Hreach & Hdone & Htot).
    pose proof (reachable_inv _ _ Hreach) as (_ & _ & Hcov & _).
    pose proof (reachable_idleInv _ _ Hreach) as (_ & _ & _ & Hlast).
    destruct Hreach as [|s0 s Hreach0 Hany0 Htick];
      [unfold initState, deepCopy in Hdone; simpl in Hdone; congruence|].
    destruct (reachable_inv _ _ Hreach0) as (_ & (_ & Hclock & _) & _).
    pose proof Htick as Hc%tick_cases.
    destruct (tick_processes _ _ Hc) as [Ht [[_ Hps]|(i & p & p1 & Hr & Hp1 & Hps)]];
      [rewrite Hps in Hdone; congruence|].
    pose proof Hr as (Hi & [_ Hw]%isReady_true & _)%runningProcess_spec.
    assert (processes s !! i = Some (execute (currentTime s0 + 1) p1)) as Hi'.
    { rewrite Hps. apply list_lookup_insert_eq. by eapply lookup_lt_Some. }
    assert (remaining p1 = remaining p ∧ pid p1 = pid p) as [Hr1 Hpid1].
    { destruct Hp1 as [->| ->]; [done|]. split; [apply recordStart_remaining|].
      by destruct (recordStart_sameIdentity (currentTime s0) p) as (_ & ? & _). }
    pose proof (proj1 (anyRemaining_false _) Hdone i _ Hi') as Hle.
    rewrite execute_remaining, Hr1 in Hle.
    assert (remaining (execute (currentTime s0 + 1) p1) = 0) as Hz
      by (rewrite execute_remaining; lia).
    assert (lastProcessId s = Some (pid p)) as Hl.
    { destruct Hc as [g Hq Hg ->|i' p' Hrun' Hne ->|i' p' g Hrun' He Hg ->]; simpl;
        [apply runningProcess_None in Hq|..]; congruence. }
    destruct (Hlast _ Hl) as (y & Hy & Hlabel & _).
    pose proof Hy as [g0 Hg0]%last_Some. rewrite Hg0 in Hcov.
    destruct (covers_last _ _ _ Hcov) as [He _].
    exists (finish s), i, (execute (currentTime s0 + 1) p1), y.
    rewrite Htot. simpl. split_and!; [done|lia|done|done| |done| |done].
    + rewrite (execute_completionTime _ _ Hz). lia.
    + destruct (execute_sameIdentity (currentTime s0 + 1) p1) as (_ & -> & _).
      congruence.
  - unfold runPrioritySimulation. rewrite loop_unfold.
    unfold initState, deepCopy. simpl. by rewrite Hany.
Qed.

(** ** The chart and the work of each record *)

(** What an iteration adds to the chart: the segments keep their starts
    and labels, at most one segment is new, it starts at the clock, and
    one unit is added under the label of the tick. *)
Lemma tick_chart ps s s' :
  tickCase s s' → covers 0 (ganttChart s) (currentTime s) → idleInv ps s →
  (∀ x, x ∈ ganttChart s →
        ∃ y, y ∈ ganttChart s' ∧ seg_start y = seg_start x ∧ seg_pid y = seg_pid x) ∧
  (∀ y, y ∈ ganttChart s' →
        (∃ x, x ∈ ganttChart s ∧ seg_start y = seg_start x ∧ seg_pid y = seg_pid x) ∨
        (seg_start y = currentTime s ∧ seg_pid y = tickLabel s)) ∧
  (∀ l, sumZ (runLen l) (ganttChart s') =
        sumZ (runLen l) (ganttChart s) + (if bool_decide (tickLabel s = l) then 1 else 0)).
Proof.
  intros Hcase Hcov (Hknown & _ & Hidle & Hlast).
  assert (Hext : ∀ g e, extendLast (ganttChart s) e = Some g →
    ∃ g0 x, ganttChart s = g0 ++ [x] ∧ g = g0 ++ [set_end e x] ∧
            seg_end x = currentTime s ∧
            (∀ y, y ∈ ganttChart s →
                  ∃ z, z ∈ g ∧ seg_start z = seg_start y ∧ seg_pid z = seg_pid y) ∧
            (∀ z, z ∈ g →
                  ∃ y, y ∈ ganttChart s ∧ seg_start z = seg_start y ∧ seg_pid z = seg_pid y)).
  { intros g e (g0 & x & Hg0 & ->)%extendLast_inv. exists g0, x.
    rewrite Hg0 in Hcov. destruct (covers_last _ _ _ Hcov) as [He _].
    split_and!; [done..| |].
    - intros y Hy. rewrite Hg0 in Hy.
      apply elem_of_app in Hy as [Hy|Hy%list_elem_of_singleton].
      + exists y. split; [|done]. apply elem_of_app. by left.
      + subst y. exists (set_end e x). split; [|done]. apply elem_of_app. right.
        by apply list_elem_of_singleton.
    - intros z Hz. rewrite Hg0.
      apply elem_of_app in Hz as [Hz|Hz%list_elem_of_singleton].
      + exists z. split; [|done]. apply elem_of_app. by left.
      + subst z. exists x. split; [|done]. apply elem_of_app. right.
        by apply list_elem_of_singleton. }
  assert (Hpush : ∀ z, seg_start z = currentTime s → seg_pid z = tickLabel s →
    (∀ x, x ∈ ganttChart s →
          ∃ y, y ∈ ganttChart s ++ [z] ∧ seg_start y = seg_start x ∧ seg_pid y = seg_pid x) ∧
    (∀ y, y ∈ ganttChart s ++ [z] →
          (∃ x, x ∈ ganttChart s ∧ seg_start y = seg_start x ∧ seg_pid y = seg_pid x) ∨
          (seg_start y = currentTime s ∧ seg_pid y = tickLabel s))).
  { intros z Hz1 Hz2. split.
    - intros x Hx. exists x. split; [|done]. apply elem_of_app. by left.
    - intros y [Hy|Hy%list_elem_of_singleton]%elem_of_app; [left; by exists y|].
      subst y. by right. }
  unfold tickLabel in *.
  destruct Hcase as [g Hq Hg ->|i p Hrun Hne ->|i p g Hrun He Hg ->]; simpl.
  - apply runningProcess_None in Hq. rewrite Hq in *.
    unfold chartIdle in Hg. destruct (isIdle s) eqn:Hb.
    + destruct (Hext _ _ Hg) as (g0 & x & Hg0 & -> & He & Hmem & Hrev).
      split_and!; [done|intros y Hy; left; by apply Hrev|].
      intros l. rewrite Hg0, !sumZ_app.
      destruct (Hidle eq_refl) as (y & Hy & Hnone). rewrite Hg0, last_snoc in Hy.
      injection Hy as <-. rewrite Hg0 in Hknown.
      apply Forall_app in Hknown as [_ Hkx]. apply List.Forall_inv in Hkx.
      destruct Hkx as [(_ & Hlabel & _)|(? & _ & _ & ? & _)]; [|congruence].
      unfold runLen. simpl. rewrite Hlabel. case_bool_decide; lia.
    + injection Hg as <-.
      destruct (Hpush (mkSegment "IDLE" (currentTime s) (currentTime s + 1) None))
        as [H1 H2]; [done..|].
      split_and!; [done..|].
      intros l. rewrite sumZ_app. simpl. unfold runLen at 2. simpl.
      case_bool_decide; lia.
  - rewrite Hrun in *.
    destruct (Hpush (mkSegment (pid p) (currentTime s) (currentTime s + 1) (Some (id p))))
      as [H1 H2]; [done..|].
    split_and!; [done..|].
    intros l. rewrite sumZ_app. simpl. unfold runLen at 2. simpl.
    case_bool_decide; lia.
  - rewrite Hrun in *. destruct (Hext _ _ Hg) as (g0 & x & Hg0 & -> & Hend & Hmem & Hrev).
    split_and!; [done|intros y Hy; left; by apply Hrev|].
    intros l. rewrite Hg0, !sumZ_app.
    destruct (Hlast (pid p) (eq_sym He)) as (y & Hy & Hlabel & _).
    rewrite Hg0, last_snoc in Hy. injection Hy as <-.
    simpl. unfold runLen. simpl. rewrite Hlabel. case_bool_decide; lia.
Qed.

Lemma work_tick ps s s' :
  NoDup (pid <$> ps) → noIdleName ps →
  tickCase s s' → Forall2 (tracks (currentTime s)) ps (processes s) →
  covers 0 (ganttChart s) (currentTime s) → idleInv ps s →
  workInv ps s → workInv ps s'.
Proof.
  intros Hnd Hni Hcase Htr Hcov Hidle Hw.
  destruct (tick_chart _ _ _ Hcase Hcov Hidle) as (Hmem & Hrev & Hsum).
  destruct Hidle as (_ & _ & _ & Hlast).
  assert (Hpid : ∀ i j a b, ps !! i = Some a → ps !! j = Some b → pid a = pid b → i = j).
  { intros i j a b Hi Hj Hab. apply (NoDup_lookup (pid <$> ps) i j (pid a)); [done|..];
      rewrite list_lookup_fmap; [by rewrite Hi|rewrite Hj; simpl; by rewrite Hab]. }
  assert (Ht : currentTime s' = currentTime s + 1) by (destruct Hcase; by subst).
  assert (Hkeep : ∀ p0 p, workEntry (ganttChart s) (currentTime s) p0 p →
                          tickLabel s ≠ pid p0 →
                          workEntry (ganttChart s') (currentTime s') p0 p).
  { intros p0 p [Hs He] Hl. split.
    - rewrite Hsum, bool_decide_false by done. lia.
    - destruct He as [[-> Hno]|He]; [left; split; [done|]|right].
      + intros y Hy. destruct (Hrev y Hy) as [(x & Hx & _ & ->)|[_ ->]]; [by apply Hno|done].
      + intros Hst.
        destruct (He Hst) as (t0 & H1 & H2 & H3 & H4 & (x & Hx & Hx1 & Hx2) & H6).
        exists t0. split_and!; [done|done|lia|done| |].
        * destruct (Hmem x Hx) as (y & Hy & ? & ?). exists y. split_and!; [done|congruence..].
        * intros y Hy Hlab.
          destruct (Hrev y Hy) as [(x' & Hx' & -> & Heq)|[_ Heq]]; [|congruence].
          apply H6; congruence. }
  assert (Hrun : (runningProcess s = None ∧ processes s' = processes s) ∨
    ∃ i p p1, runningProcess s = Some (i, p) ∧
      processes s' = <[i := execute (currentTime s + 1) p1]> (processes s) ∧
      ((p1 = recordStart (currentTime s) p ∧
        ∃ x, x ∈ ganttChart s' ∧ seg_start x = currentTime s ∧ seg_pid x = pid p) ∨
       (p1 = p ∧ Some (pid p) = lastProcessId s))).
  { destruct Hcase as [g Hq Hg ->|i p Hr Hne ->|i p g Hr He Hg ->]; simpl.
    - left. by apply runningProcess_None in Hq.
    - right. exists i, p, (recordStart (currentTime s) p). split_and!; [done..|].
      left. split; [done|].
      exists (mkSegment (pid p) (currentTime s) (currentTime s + 1) (Some (id p))).
      split; [|done]. apply elem_of_app. right. by apply list_elem_of_singleton.
    - right. exists i, p, p. split_and!; [done..|]. by right. }
  intros j q0 q Hj0 Hj.
  destruct Hrun as [[Hq Hps]|(i & p & p1 & Hr & Hps & Hp1)]; rewrite Hps in Hj.
  - apply Hkeep; [by eapply Hw|]. unfold tickLabel. rewrite Hq.
    apply (Forall_lookup_1 _ _ _ _ Hni) in Hj0. done.
  - pose proof Hr as (Hi & [Harr Hpos]%isReady_true & _)%runningProcess_spec.
    destruct (Forall2_lookup_r _ _ _ _ _ Htr Hi) as (p0 & Hi0 & (_ & Hpid0 & _) & Htrk).
    assert (tickLabel s = pid p0) as Hlab by (unfold tickLabel; by rewrite Hr).
    destruct (decide (j = i)) as [->|Hne].
    2:{ rewrite list_lookup_insert_ne in Hj by done.
        apply Hkeep; [by eapply Hw|]. rewrite Hlab. intros Heq.
        apply Hne. by eapply Hpid. }
    rewrite list_lookup_insert_eq in Hj by (by eapply lookup_lt_Some).
    injection Hj as <-. assert (q0 = p0) as -> by congruence.
    destruct (Hw i p0 p Hi0 Hi) as [Hs He].
    assert (remaining p ≤ remaining p0) as Hle by (destruct Htrk as [->|?]; lia).
    assert (remaining p1 = remaining p) as Hr1
      by (destruct Hp1 as [[-> _]|[-> _]]; [apply recordStart_remaining|done]).
    split.
    + rewrite Hsum, bool_decide_true, Hs, execute_remaining, Hr1 by done. lia.
    + right. intros Hst.
      assert (∃ t0, startTimes p1 = [t0] ∧ arrival p0 ≤ t0 ∧
                    t0 + (remaining p0 - remaining p) ≤ currentTime s ∧
                    (∃ x, x ∈ ganttChart s' ∧ seg_start x = t0 ∧ seg_pid x = pid p0) ∧
                    (∀ x, x ∈ ganttChart s' → seg_pid x = pid p0 → t0 ≤ seg_start x))
        as (t0 & H1 & H2 & H3 & H5 & H6).
      { destruct He as [[-> Hno]|He].
        - destruct Hp1 as [(-> & x & Hx)|[-> Hl]].
          + exists (currentTime s). split_and!.
            * unfold recordStart. by rewrite Hst.
            * done.
            * lia.
            * by exists x.
            * intros y Hy Hy'. destruct (Hrev y Hy) as [(x' & Hx' & _ & Heq)|[-> _]]; [|lia].
              exfalso. eapply Hno; [exact Hx'|congruence].
          + exfalso. destruct (Hlast _ (eq_sym Hl)) as (y & Hy & Hy' & _).
            apply last_Some in Hy as [g0 Hg0]. eapply (Hno y); [|done].
            rewrite Hg0. apply elem_of_app. right. by apply list_elem_of_singleton.
        - destruct (He Hst) as (t0 & H1 & H2 & H3 & _ & (x & Hx & Hx1 & Hx2) & H6).
          exists t0. assert (p1 = p) as ->.
          { destruct Hp1 as [[-> _]|[-> _]]; [|done]. unfold recordStart. by rewrite H1. }
          split_and!; [done..| |].
          + destruct (Hmem x Hx) as (y & Hy & ? & ?). exists y. split_and!; [done|congruence..].
          + intros y Hy Hy'.
            destruct (Hrev y Hy) as [(x' & Hx' & -> & Heq)|[-> _]]; [|lia].
            apply H6; congruence. }
      exists t0. rewrite execute_startTimes, execute_remaining, Hr1, Ht.
      split_and!; [done|done|lia| |done|done].
      intros Hz. rewrite execute_completionTime by (rewrite execute_remaining; lia). lia.
Qed.

Lemma reachable_workInv ps s :
  NoDup (pid <$> ps) → noIdleName ps → reachable ps s → workInv ps s.
Proof.
  intros Hnd Hni. induction 1 as [|s s' Hreach IH Hany Htick].
  - intros i p0 p Hi0 Hi. unfold initState, deepCopy in *. simpl in *.
    assert (p = p0) as -> by congruence. split; [simpl; lia|].
    left. split; [done|]. intros x Hx. by apply elem_of_nil in Hx.
  - destruct (reachable_inv _ _ Hreach) as (HF & _ & Hcov & _).
    apply tick_cases in Htick.
    eapply work_tick; eauto using reachable_idleInv.
Qed.

(** X5: with pairwise distinct pids, none of them "IDLE", the lengths of
    the segments labelled with the pid of a record add up to the work the
    record entered with (nothing for a record that entered without work),
    whatever its burst says. *)
Theorem chart_time_of_a_record_is_its_work ps i p0 :
  NoDup (pid <$> ps) → noIdleName ps → ps !! i = Some p0 →
  ∃ r, runPrioritySimulation ps = Some r ∧
       sumZ (runLen (pid p0)) (gantt r) = Z.max 0 (remaining p0).
Proof.
  intros Hnd Hni Hp0. destruct (run_total ps) as (s & Hrun & Hreach & Hdone & Htot).
  destruct (reachable_inv _ _ Hreach) as (HF & _).
  destruct (Forall2_lookup_l _ _ _ _ _ HF Hp0) as (p & Hp & _ & Hst).
  pose proof (proj1 (anyRemaining_false _) Hdone i p Hp) as Hle.
  destruct (reachable_workInv _ _ Hnd Hni Hreach i p0 p Hp0 Hp) as [Hsum _].
  exists (finish s). split; [done|]. simpl. rewrite Hsum.
  destruct Hst as [->|(? & _)]; lia.
Qed.

Lemma chart_time_of_P1 :
  ∃ r, runPrioritySimulation initialProcesses = Some r ∧
       sumZ (runLen "P1") (gantt r) = 8.
Proof.
  apply (chart_time_of_a_record_is_its_work initialProcesses 0 P1).
  - apply (bool_decide_unpack _). vm_compute. exact I.
  - apply (bool_decide_unpack _). vm_compute. exact I.
  - reflexivity.
Defined.

(** X6: with pairwise distinct pids, none of them "IDLE", a record that
    enters with work and without start times leaves with exactly one: the
    start of the first segment of the chart labelled with its pid, which
    is not before its arrival and leaves room for all its work before its
    completion. *)
Theorem first_dispatch_is_the_start_time ps i p0 :
  NoDup (pid <$> ps) → noIdleName ps →
  ps !! i = Some p0 → startTimes p0 = [] → 0 < remaining p0 →
  ∃ r p t0 x, runPrioritySimulation ps = Some r ∧ res_processes r !! i = Some p ∧
              startTimes p = [t0] ∧ arrival p0 ≤ t0 ∧
              t0 + remaining p0 ≤ completionTime p ∧
              x ∈ gantt r ∧ seg_start x = t0 ∧ seg_pid x = pid p0 ∧
              ∀ y, y ∈ gantt r → seg_pid y = pid p0 → t0 ≤ seg_start y.
Proof.
  intros Hnd Hni Hp0 Hst Hpos.
  destruct (run_total ps) as (s & Hrun & Hreach & Hdone & Htot).
  destruct (reachable_inv _ _ Hreach) as (HF & _).
  destruct (Forall2_lookup_l _ _ _ _ _ HF Hp0) as (p & Hp & _ & Htr).
  pose proof (proj1 (anyRemaining_false _) Hdone i p Hp) as Hle.
  assert (remaining p = 0) as Hz by (destruct Htr as [->|(? & _)]; lia).
  destruct (reachable_workInv _ _ Hnd Hni Hreach i p0 p Hp0 Hp) as [_ [[-> _]|He]]; [lia|].
  destruct (He Hst) as (t0 & H1 & H2 & _ & H4 & (x & Hx & Hx1 & Hx2) & H6).
  exists (finish s), p, t0, x. split_and!; [done..|auto|done|done|done|done].
Qed.

Lemma first_dispatch_of_P1 :
  ∃ r p t0 x, runPrioritySimulation initialProcesses = Some r ∧
              res_processes r !! 0%nat = Some p ∧
              startTimes p = [t0] ∧ 0 ≤ t0 ∧ t0 + 8 ≤ completionTime p ∧
              x ∈ gantt r ∧ seg_start x = t0 ∧ seg_pid x = "P1" ∧
              ∀ y, y ∈ gantt r → seg_pid y = "P1" → t0 ≤ seg_start y.
Proof.
  apply (first_dispatch_is_the_start_time initialProcesses 0 P1).
  - apply (bool_decide_unpack _). vm_compute. exact I.
  - apply (bool_decide_unpack _). vm_compute. exact I.
  - reflexivity.
  - reflexivity.
  - simpl. lia.
Defined.

(** ** What the schedule does not read *)

Lemma eraseBurst_idemp p : eraseBurst (eraseBurst p) = eraseBurst p.
Proof. done. Qed.

Lemma eraseState_idemp s : eraseState (eraseState s) = eraseState s.
Proof.
  unfold eraseState. simpl. f_equal. rewrite <- list_fmap_compose.
  apply list_fmap_ext. intros ? p _. apply eraseBurst_idemp.
Qed.

Lemma readyQueue_erase ps t :
  readyQueue (eraseBurst <$> ps) t = eraseEntry <$> readyQueue ps t.
Proof.
  unfold readyQueue. rewrite imap_fmap.
  rewrite <- (filter_fmap_equiv (eraseEntry)
                (λ ip : nat * Process, isReady t ip.2)
                (λ ip : nat * Process, isReady t ip.2)) by (by intros [? []]).
  f_equal. rewrite fmap_imap. by apply imap_ext.
Qed.

Lemma runningProcess_erase s :
  runningProcess (eraseState s) = eraseEntry <$> runningProcess s.
Proof.
  unfold runningProcess, eraseState. simpl. rewrite readyQueue_erase.
  rewrite <- (stableSort_fmap (eraseEntry) (λ a b, compareFn a.2 b.2))
    by (by intros [? []] [? []]).
  by rewrite head_fmap_comm.
Qed.

Lemma anyRemaining_erase ps : anyRemaining (eraseBurst <$> ps) = anyRemaining ps.
Proof. unfold anyRemaining. by rewrite existsb_fmap. Qed.

Lemma recordStart_erase t p : recordStart t (eraseBurst p) = eraseBurst (recordStart t p).
Proof. unfold recordStart. simpl. by destruct (length (startTimes p) =? 0)%nat. Qed.

Lemma execute_erase t p : eraseBurst (execute t (eraseBurst p)) = eraseBurst (execute t p).
Proof. unfold execute. simpl. by destruct (remaining p - 1 =? 0). Qed.

Lemma insert_erase (i : nat) (p1 : Process) (ps : list Process) :
  eraseBurst <$> <[i := p1]> (eraseBurst <$> ps) = eraseBurst <$> <[i := p1]> ps.
Proof.
  rewrite !list_fmap_insert. f_equal. rewrite <- list_fmap_compose.
  apply list_fmap_ext. intros ? p _. apply eraseBurst_idemp.
Qed.

(** An iteration on a state without its bursts and waiting times is the
    iteration on the state, without its bursts and waiting times. *)
Lemma tick_erase s : eraseState <$> tick (eraseState s) = eraseState <$> tick s.
Proof.
  unfold tick. rewrite runningProcess_erase.
  change (processes (eraseState s)) with (eraseBurst <$> processes s).
  change (currentTime (eraseState s)) with (currentTime s).
  change (ganttChart (eraseState s)) with (ganttChart s).
  change (isIdle (eraseState s)) with (isIdle s).
  change (idleTime (eraseState s)) with (idleTime s).
  change (lastProcessId (eraseState s)) with (lastProcessId s).
  rewrite readyQueue_erase.
  destruct (readyQueue (processes s) (currentTime s)) as [|x q] eqn:Hq; csimpl.
  - destruct (chartIdle _ _ _); [|done]. simpl. unfold eraseState. simpl.
    do 2 f_equal. rewrite <- list_fmap_compose.
    apply list_fmap_ext. intros ? p _. apply eraseBurst_idemp.
  - destruct (runningProcess s) as [[i p]|]; [|done]. simpl.
    case_bool_decide.
    + simpl. unfold eraseState. simpl. do 2 f_equal.
      rewrite recordStart_erase, <- (insert_erase i (execute _ (recordStart _ p))).
      rewrite !list_fmap_insert. by rewrite !execute_erase.
    + destruct (extendLast _ _); [|done]. simpl. unfold eraseState. simpl. do 2 f_equal.
      rewrite <- (insert_erase i (execute _ p)).
      rewrite !list_fmap_insert. by rewrite !execute_erase.
Qed.

Lemma loop_erase n : ∀ s s',
  eraseState s = eraseState s' → eraseState <$> loop n s = eraseState <$> loop n s'.
Proof.
  induction n as [|n IH]; intros s s' He; rewrite !loop_unfold.
  all: assert (anyRemaining (processes s) = anyRemaining (processes s')) as <-
    by (rewrite <- (anyRemaining_erase (processes s)), <- (anyRemaining_erase (processes s'));
        apply (f_equal processes) in He; simpl in He; by rewrite He).
  all: destruct (anyRemaining (processes s)); [|simpl; by f_equal].
  - done.
  - pose proof (tick_erase s) as H1. pose proof (tick_erase s') as H2.
    rewrite He, H2 in H1.
    destruct (tick s) as [s1|], (tick s') as [s1'|]; simpl in H1; try done.
    cbn [mbind option_bind]. apply IH. congruence.
Qed.

Lemma ticksBound_erase ps t : ticksBound (eraseBurst <$> ps) t = ticksBound ps t.
Proof.
  unfold ticksBound, workLeft.
  assert (maxArrival (eraseBurst <$> ps) = maxArrival ps) as ->
    by (induction ps as [|p ps IH]; [done|]; csimpl; by rewrite IH).
  assert (sumZ (λ p, Z.max 0 (remaining p)) (eraseBurst <$> ps)
          = sumZ (λ p, Z.max 0 (remaining p)) ps) as ->
    by (induction ps as [|p ps IH]; [done|]; csimpl; by rewrite IH).
  done.
Qed.

(** Runs on inputs that agree up to bursts and waiting times end in
    states that agree up to bursts and waiting times. *)
Lemma run_erase ps ps' :
  eraseBurst <$> ps = eraseBurst <$> ps' →
  ∃ s s', runPrioritySimulation ps = Some (finish s) ∧
          runPrioritySimulation ps' = Some (finish s') ∧
          eraseState s = eraseState s'.
Proof.
  intros He.
  destruct (run_total ps) as (s & Hr & _). destruct (run_total ps') as (s' & Hr' & _).
  unfold runPrioritySimulation in *. cbv zeta in *.
  assert (ticksBound (processes (initState ps')) 0 = ticksBound (processes (initState ps)) 0)
    as Hfuel.
  { unfold initState, deepCopy. simpl.
    by rewrite <- (ticksBound_erase ps), <- (ticksBound_erase ps'), He. }
  rewrite Hfuel in *.
  pose proof (loop_erase (ticksBound (processes (initState ps)) 0)
                (initState ps) (initState ps')) as Hl.
  destruct (loop _ (initState ps)) as [s1|]; [|done].
  destruct (loop _ (initState ps')) as [s1'|]; [|done].
  simpl in Hl.
  assert (Some (eraseState s1) = Some (eraseState s1')) as Heq.
  { apply Hl. unfold eraseState, initState, deepCopy. simpl. by rewrite He. }
  exists s1, s1'. split_and!; [done|done|congruence].
Qed.

(** X7: the burst field takes no part in the schedule.  Two inputs that
    agree on everything but the bursts (and the waiting times, which the
    engine overwrites from the burst) get the same chart, the same total
    and idle times, and the same records up to burst and waiting time. *)
Theorem timeline_ignores_burst ps ps' :
  eraseBurst <$> ps = eraseBurst <$> ps' →
  ∃ r r', runPrioritySimulation ps = Some r ∧ runPrioritySimulation ps' = Some r' ∧
          gantt r = gantt r' ∧ totalTime r = totalTime r' ∧
          res_idleTime r = res_idleTime r' ∧
          eraseBurst <$> res_processes r = eraseBurst <$> res_processes r'.
Proof.
  intros (s & s' & Hr & Hr' & Heq)%run_erase.
  injection Heq as H1 H2 H3 H4 H5 H6.
  exists (finish s), (finish s'). simpl. rewrite H3. split_and!; done.
Qed.

(** The form whose first burst was lowered to 3 is scheduled like the
    initial form. *)
Lemma loweredBurst_same_timeline :
  ∃ r r', runPrioritySimulation initialProcesses = Some r ∧
          runPrioritySimulation loweredBurst = Some r' ∧
          gantt r = gantt r' ∧ totalTime r = totalTime r' ∧
          res_idleTime r = res_idleTime r' ∧
          eraseBurst <$> res_processes r = eraseBurst <$> res_processes r'.
Proof. apply (timeline_ignores_burst initialProcesses loweredBurst). reflexivity. Defined.

(** ** Displacement and completion *)

(** X16: there is no displacement without an arrival.  When a process is
    selected at a tick, still has work after it, and another process is
    selected at the next tick, that other process arrives exactly at the
    next tick and has a strictly smaller priority value. *)
Theorem displaced_only_by_an_arrival s s1 i p j q :
  tick s = Some s1 → runningProcess s = Some (i, p) → 1 < remaining p →
  runningProcess s1 = Some (j, q) → j ≠ i →
  arrival q = currentTime s + 1 ∧ priority q < priority p.
Proof.
  intros Htick Hrun Hleft Hrun1 Hji.
  pose proof Htick as Hc%tick_cases.
  destruct (tick_processes _ _ Hc) as [Ht [[? _]|(k & p' & p1 & Hrun' & Hp1 & Hps)]];
    [congruence|].
  rewrite Hrun in Hrun'. injection Hrun' as <- <-.
  pose proof Hrun as (Hi & [Hpa Hpr]%isReady_true & Hmin)%runningProcess_spec.
  pose proof Hrun1 as (Hj & [Hqa Hqr]%isReady_true & Hmin1)%runningProcess_spec.
  rewrite Hps, list_lookup_insert_ne in Hj by done. rewrite Ht in *.
  assert (processes s1 !! i = Some (execute (currentTime s + 1) p1)) as Hi1.
  { rewrite Hps. apply list_lookup_insert_eq. by eapply lookup_lt_Some. }
  assert (sameIdentity p (execute (currentTime s + 1) p1)) as (_ & _ & Ha & _ & Hpri).
  { eapply sameIdentity_trans; [|apply execute_sameIdentity].
    destruct Hp1 as [->| ->]; [apply sameIdentity_refl|apply recordStart_sameIdentity]. }
  assert (remaining p1 = remaining p) as Hr1
    by (destruct Hp1 as [->| ->]; [done|apply recordStart_remaining]).
  destruct (Hmin1 i _ Hi1) as [Hle1 Hfirst1].
  { apply isReady_true. rewrite Ha, execute_remaining, Hr1. lia. }
  unfold keyLe in Hle1, Hfirst1. rewrite Ha, Hpri in Hle1, Hfirst1.
  destruct (Z_lt_le_dec (currentTime s) (arrival q)) as [Hlate|Hearly]; [lia|].
  exfalso. destruct (Hmin j q Hj) as [Hle Hfirst]; [apply isReady_true; lia|].
  unfold keyLe in Hle, Hfirst. apply Hji.
  apply Nat.le_antisymm; [apply Hfirst1|apply Hfirst]; lia.
Qed.

(** In scenario B, P2 displaces P1 at tick 1: it arrives at 1 with the
    smaller priority value. *)
Lemma P2_displaces_P1_on_arrival : arrival P2 = 0 + 1 ∧ priority P2 < priority P1.
Proof.
  apply (displaced_only_by_an_arrival (initState [P1; P2]) preemptionState 0 P1 1 P2).
  - reflexivity.
  - reflexivity.
  - simpl. lia.
  - reflexivity.
  - lia.
Defined.

(** During a run, two records that entered with work and have none left
    were completed at different times. *)
Lemma reachable_completions ps s i j p0 q0 :
  reachable ps s → i ≠ j →
  ps !! i = Some p0 → ps !! j = Some q0 → 0 < remaining p0 → 0 < remaining q0 →
  ∀ p q, processes s !! i = Some p → processes s !! j = Some q →
         remaining p = 0 → remaining q = 0 → completionTime p ≠ completionTime q.
Proof.
  intros Hreach Hij Hp0 Hq0 Hwp Hwq.
  induction Hreach as [|s s' Hreach IH Hany Htick]; intros p q Hp Hq Hzp Hzq.
  { unfold initState, deepCopy in *. simpl in *. simplify_eq. lia. }
  destruct (reachable_inv _ _ Hreach) as (HF & _).
  apply tick_cases in Htick.
  destruct (tick_processes _ _ Htick) as [Ht [[_ Hps]|(k & r & r1 & Hrun & Hr1 & Hps)]];
    rewrite Hps in Hp, Hq; [by apply IH|].
  pose proof Hrun as (Hk & _)%runningProcess_spec.
  pose proof (lookup_lt_Some _ _ _ Hk) as Hlen.
  assert (Hold : ∀ n a0 a, n ≠ k → ps !! n = Some a0 → 0 < remaining a0 →
                           <[k := execute (currentTime s + 1) r1]> (processes s) !! n = Some a →
                           remaining a = 0 →
                           processes s !! n = Some a ∧ completionTime a ≤ currentTime s).
  { intros n a0 a Hn Ha0 Hwa Ha Hza. rewrite list_lookup_insert_ne in Ha by done.
    split; [done|].
    destruct (Forall2_lookup_lr _ _ _ _ _ _ HF Ha0 Ha) as [_ [->|(_ & _ & Hfin)]]; [lia|].
    by destruct (Hfin Hza). }
  destruct (decide (i = k)) as [Hki|Hki]; [|destruct (decide (j = k)) as [Hkj|Hkj]].
  - destruct (Hold j q0 q) as [_ ?]; [congruence|done..|].
    rewrite Hki, list_lookup_insert_eq in Hp by done. injection Hp as <-.
    rewrite (execute_completionTime _ _ Hzp). lia.
  - destruct (Hold i p0 p) as [_ ?]; [done..|].
    rewrite Hkj, list_lookup_insert_eq in Hq by done. injection Hq as <-.
    rewrite (execute_completionTime _ _ Hzq). lia.
  - destruct (Hold i p0 p) as [? _]; [done..|].
    destruct (Hold j q0 q) as [? _]; [done..|]. by apply IH.
Qed.

(** X17: one unit of one process per tick: two records that enter with
    work never complete at the same time. *)
Theorem completion_times_are_distinct ps i j p0 q0 :
  i ≠ j → ps !! i = Some p0 → ps !! j = Some q0 →
  0 < remaining p0 → 0 < remaining q0 →
  ∃ r p q, runPrioritySimulation ps = Some r ∧
           res_processes r !! i = Some p ∧ res_processes r !! j = Some q ∧
           completionTime p ≠ completionTime q.
Proof.
  intros Hij Hp0 Hq0 Hwp Hwq.
  destruct (run_total ps) as (s & Hrun & Hreach & Hdone & _).
  destruct (reachable_inv _ _ Hreach) as (HF & _).
  destruct (Forall2_lookup_l _ _ _ _ _ HF Hp0) as (p & Hp & _ & Hsp).
  destruct (Forall2_lookup_l _ _ _ _ _ HF Hq0) as (q & Hq & _ & Hsq).
  pose proof (proj1 (anyRemaining_false _) Hdone i p Hp).
  pose proof (proj1 (anyRemaining_false _) Hdone j q Hq).
  exists (finish s), p, q. split_and!; [done..|].
  eapply (reachable_completions ps s i j); eauto.
  - destruct Hsp as [->|(? & _)]; lia.
  - destruct Hsq as [->|(? & _)]; lia.
Qed.

(** P1 and P2 of the initial form complete at different times. *)
Lemma P1_P2_complete_apart :
  ∃ r p q, runPrioritySimulation initialProcesses = Some r ∧
           res_processes r !! 0%nat = Some p ∧ res_processes r !! 1%nat = Some q ∧
           completionTime p ≠ completionTime q.
Proof.
  apply (completion_times_are_distinct initialProcesses 0 1 P1 P2);
    [lia|reflexivity|reflexivity|simpl; lia|simpl; lia].
Defined.

(** * The rest of the component *)

(** ** [Array.prototype.sort] with a comparator that subtracts a key *)

Lemma insertBy_Permutation {A} (cmp : A → A → Z) x l : insertBy cmp x l ≡ₚ x :: l.
Proof.
  induction l as [|y l IH]; [done|]. simpl.
  destruct (cmp x y <=? 0); [done|]. rewrite IH. apply Permutation_swap.
Qed.

Lemma stableSort_Permutation {A} (cmp : A → A → Z) l : stableSort cmp l ≡ₚ l.
Proof.
  induction l as [|x l IH]; [done|].
  change (stableSort cmp (x :: l)) with (insertBy cmp x (stableSort cmp l)).
  by rewrite insertBy_Permutation, IH.
Qed.

Lemma stableSort_length {A} (cmp : A → A → Z) l : length (stableSort cmp l) = length l.
Proof. apply Permutation_length, stableSort_Permutation. Qed.

Lemma insertBy_sorted {A} (key : A → Z) x l :
  StronglySorted (λ a b, key a ≤ key b) l →
  StronglySorted (λ a b, key a ≤ key b) (insertBy (λ a b, key a - key b) x l).
Proof.
  induction l as [|y l IH]; intros Hs; simpl.
  - by repeat constructor.
  - apply StronglySorted_inv in Hs as [Hs Hy].
    destruct (Z.leb_spec (key x - key y) 0).
    + constructor; [by constructor|]. constructor; [lia|].
      eapply Forall_impl; [exact Hy|]. simpl. intros; lia.
    + constructor; [by apply IH|].
      rewrite insertBy_Permutation. constructor; [lia|done].
Qed.

Lemma stableSort_sorted {A} (key : A → Z) l :
  StronglySorted (λ a b, key a ≤ key b) (stableSort (λ a b, key a - key b) l).
Proof.
  induction l as [|x l IH]; [constructor|].
  change (stableSort ?c (x :: l)) with (insertBy c x (stableSort c l)).
  by apply insertBy_sorted.
Qed.

Lemma insertBy_stable {A} (key : A → Z) (k : Z) x (l : list A) :
  filter (λ a, key a = k) (insertBy (λ a b, key a - key b) x l)
  = filter (λ a, key a = k) (x :: l).
Proof.
  induction l as [|y l IH]; [done|]. simpl.
  destruct (Z.leb_spec (key x - key y) 0); [done|].
  rewrite (filter_cons _ y), IH, !filter_cons.
  repeat case_decide; done || lia.
Qed.

Lemma stableSort_stable {A} (key : A → Z) (k : Z) (l : list A) :
  filter (λ a, key a = k) (stableSort (λ a b, key a - key b) l)
  = filter (λ a, key a = k) l.
Proof.
  induction l as [|x l IH]; [done|].
  change (stableSort ?c (x :: l)) with (insertBy c x (stableSort c l)).
  by rewrite insertBy_stable, !filter_cons, IH.
Qed.

(** ** [handleSubmit] *)

Lemma find_first {A} (f : A → bool) l p :
  List.find f l = Some p →
  ∃ l1 l2, l = l1 ++ p :: l2 ∧ f p = true ∧ Forall (λ x, f x = false) l1.
Proof.
  induction l as [|x l IH]; [done|]. simpl. destruct (f x) eqn:Hx.
  - intros [= ->]. exists [], l. split_and!; [done|done|constructor].
  - intros (l1 & l2 & -> & Hp & Hl1)%IH. exists (x :: l1), l2.
    split_and!; [done|done|by constructor].
Qed.

(** X8: [handleSubmit] always returns; it reports no error exactly on a
    non-empty form of valid records; an error empties the chart, resets the
    metrics and leaves the result table as it was; the error of an invalid
    form names the first invalid record of the form. *)
Theorem handleSubmit_error_cases ps :
  ∃ u, handleSubmit ps = Some u ∧
       (errorMessage u = "" ↔ ps ≠ [] ∧ validInput ps) ∧
       (errorMessage u ≠ "" →
        resultProcesses u = None ∧ shownGantt u = [] ∧ metrics u = initialMetrics) ∧
       (ps = [] → errorMessage u = "Please add at least one process.") ∧
       (ps ≠ [] → ¬ validInput ps →
        ∃ l1 p l2, ps = l1 ++ p :: l2 ∧ validInput l1 ∧ ¬ validProcess p ∧
                   errorMessage u =
                   "Error in " +:+ pid p +:+
                   ": All values must be valid positive numbers (Burst and Priority >= 1, Arrival >= 0).").
Proof.
  unfold handleSubmit. destruct ps as [|p0 ps]; simpl length; cbn [Nat.eqb].
  { eexists. split; [done|]. simpl.
    split_and!; [split; [done|by intros [? _]]|done|done|congruence]. }
  destruct (List.find invalidProcess (p0 :: ps)) as [p|] eqn:Hf.
  - eexists. split; [done|]. cbn [errorMessage resultProcesses shownGantt metrics].
    pose proof Hf as (l1 & l2 & Hl & Hp & Hl1)%find_first.
    assert (¬ validProcess p) as Hnp by (rewrite validProcess_iff; congruence).
    split_and!; [|done|done|].
    + split; [done|]. intros [_ Hv]. apply find_invalid_None in Hv. congruence.
    + intros _ _. exists l1, p, l2. split_and!; [done| |done|done].
      eapply Forall_impl; [exact Hl1|]. intros x. by rewrite validProcess_iff.
  - destruct (run_total (stableSort (λ a b, arrival a - arrival b) (p0 :: ps)))
      as (s & Hrun & _).
    rewrite Hrun. eexists. split; [done|].
    cbn [errorMessage resultProcesses shownGantt metrics].
    apply find_invalid_None in Hf. split_and!; done.
Qed.

(** ** The handlers of the form *)

Lemma handleProcessChange_lookup index fld v ps i p' :
  handleProcessChange index fld v ps !! i = Some p' →
  ∃ p, ps !! i = Some p ∧ editedOnly fld p p' ∧ (i ≠ index → p' = p) ∧
       (validProcess p → validProcess p').
Proof.
  assert (Hsame : ∀ p, editedOnly fld p p) by (intros p; by repeat split).
  assert (Himap : ∀ ok : bool,
    (ok = true → match fld with FArrival => 0 ≤ v | _ => 1 ≤ v end) →
    (if ok then imap (λ i p, if (i =? index)%nat then set_field fld v p else p) ps else ps)
      !! i = Some p' →
    ∃ p, ps !! i = Some p ∧ editedOnly fld p p' ∧ (i ≠ index → p' = p) ∧
         (validProcess p → validProcess p')).
  { intros [] Hv Hi; [|by exists p'].
    rewrite list_lookup_imap in Hi. destruct (ps !! i) as [p|]; [|done].
    injection Hi as <-. exists p. split; [done|].
    destruct (Nat.eqb_spec i index) as [->|Hne]; [|done].
    specialize (Hv eq_refl). split_and!; [|done|].
    - destruct fld; by repeat split.
    - unfold validProcess. destruct fld; simpl; lia. }
  unfold handleProcessChange. destruct fld.
  - destruct (Z.ltb_spec v 0); [apply (Himap false)|apply (Himap true)]; done.
  - destruct (Z.leb_spec v 0); [apply (Himap false)|apply (Himap true)]; done || lia.
  - destruct (Z.leb_spec v 0); [apply (Himap false)|apply (Himap true)]; done || lia.
Qed.

Lemma handleProcessChange_length index fld v ps :
  length (handleProcessChange index fld v ps) = length ps.
Proof.
  unfold handleProcessChange.
  destruct fld, (v <? 0), (v <=? 0); by rewrite ?length_imap.
Qed.

Lemma createdBurst_pos i : 0 < createdBurst i.
Proof.
  unfold createdBurst, initialProcesses. cbn [List.find id P1 P2 P3 newProcess].
  repeat (destruct (_ =? i); [simpl; lia|]). lia.
Qed.

Lemma createdBurst_new i : 4 ≤ i → createdBurst i = 5.
Proof.
  intros Hi. unfold createdBurst, initialProcesses. cbn [List.find id P1 P2 P3 newProcess].
  destruct (Z.eqb_spec 1 i), (Z.eqb_spec 2 i), (Z.eqb_spec 3 i); done || lia.
Qed.

Lemma formInv_initial : formInv initialForm.
Proof.
  unfold formInv, initialForm. simpl. split_and!; [lia| |].
  - unfold initialProcesses, formRecord, validProcess.
    repeat constructor; simpl; lia.
  - apply (bool_decide_unpack _). vm_compute. exact I.
Qed.

Lemma formInv_add f : formInv f → formInv (addProcess f).
Proof.
  intros (Hc & Hrec & Hnd). unfold formInv, addProcess. simpl. split_and!; [lia| |].
  - apply Forall_app. split.
    + eapply Forall_impl; [exact Hrec|]. intros p (? & ? & ? & ? & ?).
      unfold formRecord. split_and!; first [done|lia].
    + constructor; [|constructor].
      unfold formRecord, validProcess. simpl.
      rewrite createdBurst_new by done.
      destruct (inputProcesses f !! _) as [p|] eqn:Hp;
        [apply (Forall_lookup_1 _ _ _ _ Hrec) in Hp as ((_ & _ & ?) & _)|];
        split_and!; first [done|lia].
  - rewrite fmap_app. apply NoDup_app. split_and!; [done| |apply NoDup_singleton].
    intros x (p & -> & Hp)%list_elem_of_fmap Hx. simpl in Hx.
    apply list_elem_of_singleton in Hx.
    apply (proj1 (Forall_forall _ _) Hrec) in Hp as (_ & _ & ? & _). lia.
Qed.

Lemma formInv_remove i f : formInv f → formInv (removeProcess i f).
Proof.
  intros (Hc & Hrec & Hnd). unfold formInv, removeProcess. simpl. split_and!; [done| |].
  - apply Forall_forall. intros p [_ Hp]%list_elem_of_filter.
    by apply (proj1 (Forall_forall _ _) Hrec).
  - eapply sublist_NoDup; [exact Hnd|]. apply fmap_sublist, sublist_filter.
Qed.

Lemma formInv_change k fld v f : formInv f → formInv (changeProcess k fld v f).
Proof.
  intros (Hc & Hrec & Hnd). unfold formInv, changeProcess. simpl. split_and!; [done| |].
  - apply Forall_lookup. intros i p' Hi.
    destruct (handleProcessChange_lookup _ _ _ _ _ _ Hi)
      as (p & Hp & (E1 & E2 & E3 & _ & _ & _ & E7 & _) & _ & Hv).
    apply (Forall_lookup_1 _ _ _ _ Hrec) in Hp as (? & ? & ? & ? & ?).
    unfold formRecord. rewrite E1, E2, E3, E7. split_and!; auto; lia.
  - assert (id <$> handleProcessChange k fld v (inputProcesses f) = id <$> inputProcesses f)
      as ->; [|done].
    apply list_eq. intros i. rewrite !list_lookup_fmap.
    destruct (handleProcessChange _ _ _ _ !! i) as [p'|] eqn:Hi.
    + destruct (handleProcessChange_lookup _ _ _ _ _ _ Hi) as (p & -> & (E1 & _) & _).
      simpl. by rewrite E1.
    + apply lookup_ge_None in Hi. rewrite handleProcessChange_length in Hi.
      apply lookup_ge_None in Hi. by rewrite Hi.
Qed.

Lemma reachable_formInv f : formReachable f → formInv f.
Proof.
  induction 1; auto using formInv_initial, formInv_add, formInv_remove, formInv_change.
Qed.

Lemma pidOf_inj i j : pidOf i = pidOf j → i = j.
Proof. unfold pidOf. simpl. intros [= H]. by apply pretty_Z_inj in H. Qed.

Lemma formRecords_pids c ps :
  Forall (formRecord c) ps → NoDup (id <$> ps) →
  validInput ps ∧ NoDup (pid <$> ps) ∧ noIdleName ps.
Proof.
  intros Hrec Hnd. split_and!.
  - eapply Forall_impl; [exact Hrec|]. by intros p (? & _).
  - assert (pid <$> ps = pidOf <$> (id <$> ps)) as ->.
    { rewrite <- list_fmap_compose. apply Forall_fmap_ext_1.
      eapply Forall_impl; [exact Hrec|]. by intros p (_ & ? & _). }
    apply NoDup_fmap_2_strong; [|done]. intros ? ? _ _. apply pidOf_inj.
  - eapply Forall_impl; [exact Hrec|]. intros p (_ & -> & _). unfold pidOf. simpl. done.
Qed.

(** X9: whatever sequence of additions, removals and integer edits built
    the form, its records are valid, their ids and their pids are pairwise
    distinct, every pid is the letter P followed by the id (so never
    "IDLE"), the ids are below the counter, no record has a start time, and
    the remaining work of every record is still the burst it was created
    with, whatever its burst field says now. *)
Theorem handlers_keep_the_form_well_formed f :
  formReachable f →
  validInput (inputProcesses f) ∧
  NoDup (id <$> inputProcesses f) ∧ NoDup (pid <$> inputProcesses f) ∧
  noIdleName (inputProcesses f) ∧
  Forall (λ p, pid p = pidOf (id p) ∧ 1 ≤ id p < processCounter f ∧
               remaining p = createdBurst (id p) ∧ startTimes p = [])
         (inputProcesses f).
Proof.
  intros (Hc & Hrec & Hnd)%reachable_formInv.
  destruct (formRecords_pids _ _ Hrec Hnd) as (? & ? & ?).
  split_and!; [done..|].
  eapply Forall_impl; [exact Hrec|]. by intros p (_ & ?).
Qed.

(** The form after a process was added, its burst set to 2, and the first
    process removed. *)
Lemma edited_form_well_formed :
  let f := removeProcess 1 (changeProcess 3 FBurst 2 (addProcess initialForm)) in
  validInput (inputProcesses f) ∧
  NoDup (id <$> inputProcesses f) ∧ NoDup (pid <$> inputProcesses f) ∧
  noIdleName (inputProcesses f) ∧
  Forall (λ p, pid p = pidOf (id p) ∧ 1 ≤ id p < processCounter f ∧
               remaining p = createdBurst (id p) ∧ startTimes p = [])
         (inputProcesses f).
Proof.
  apply (handlers_keep_the_form_well_formed
           (removeProcess 1 (changeProcess 3 FBurst 2 (addProcess initialForm)))).
  apply form_remove, form_change, form_add, form_initial.
Defined.

(** X10: submitting a non-empty form built by the handlers reports no
    error; the chart shown tiles the ticks up to the total time shown, with
    no label repeated by neighbours; every record of the form has a result
    with the same identity and nothing remaining, started once, not before
    its arrival, completed after the burst it was created with has run, and
    that burst is the time the chart gives to its pid. *)
Theorem reachable_form_is_scheduled f :
  formReachable f → inputProcesses f ≠ [] →
  ∃ u rs, handleSubmit (inputProcesses f) = Some u ∧ errorMessage u = "" ∧
          resultProcesses u = Some rs ∧
          tiles (shownGantt u) (metricsTotalTime (metrics u)) ∧
          noRepeat (shownGantt u) ∧
          ∀ p0, p0 ∈ inputProcesses f →
            ∃ p t0, p ∈ rs ∧ sameIdentity p0 p ∧ remaining p = 0 ∧
                    startTimes p = [t0] ∧ arrival p0 ≤ t0 ∧
                    t0 + createdBurst (id p0) ≤ completionTime p ∧
                    completionTime p ≤ metricsTotalTime (metrics u) ∧
                    turnaroundTime p = completionTime p - arrival p0 ∧
                    waitingTime p = turnaroundTime p - burst p0 ∧
                    sumZ (runLen (pid p0)) (shownGantt u) = createdBurst (id p0).
Proof.
  intros (Hc & Hrec & Hnd)%reachable_formInv Hne.
  destruct (formRecords_pids _ _ Hrec Hnd) as (Hvalid & _ & _).
  set (sorted := stableSort (λ a b, arrival a - arrival b) (inputProcesses f)).
  assert (sorted ≡ₚ inputProcesses f) as Hperm by apply stableSort_Permutation.
  assert (Forall (formRecord (processCounter f)) sorted) as Hrec' by by rewrite Hperm.
  assert (NoDup (id <$> sorted)) as Hnd' by by rewrite Hperm.
  destruct (formRecords_pids _ _ Hrec' Hnd') as (_ & Hpids & Hname).
  destruct (run_total sorted) as (s & Hrun & Hreach & Hdone & Htot).
  destruct (reachable_inv _ _ Hreach) as (HF & _ & Hcov & _).
  unfold handleSubmit.
  destruct (inputProcesses f) as [|q0 qs] eqn:Hin; [done|]. simpl length. cbn [Nat.eqb].
  apply find_invalid_None in Hvalid. rewrite Hvalid. fold sorted. rewrite Hrun.
  eexists _, _. split; [done|]. cbn [errorMessage resultProcesses shownGantt metrics
                                     metricsTotalTime finish gantt res_processes].
  split_and!; [done|done| | |].
  - fold (totalTime (finish s)). rewrite Htot. by apply covers_tiles.
  - apply alternating_noRepeat. by destruct (reachable_labels _ _ Hname Hreach).
  - intros p0 Hp0. fold (totalTime (finish s)). rewrite Htot.
    assert (p0 ∈ sorted) as (i & Hi)%list_elem_of_lookup by by rewrite Hperm.
    destruct (Forall2_lookup_l _ _ _ _ _ HF Hi) as (p & Hp & Hsame & Htr).
    pose proof (proj1 (anyRemaining_false _) Hdone i p Hp) as Hle.
    apply (Forall_lookup_1 _ _ _ _ Hrec') in Hi as Hp0rec.
    destruct Hp0rec as (_ & _ & _ & Hrem & Hst).
    pose proof (createdBurst_pos (id p0)) as Hpos. rewrite <- Hrem in *.
    destruct (reachable_workInv _ _ Hpids Hname Hreach i p0 p Hi Hp) as [Hsum Hw].
    destruct Htr as [->|(? & _ & Hc')]; [lia|].
    assert (remaining p = 0) as Hz by lia. destruct (Hc' Hz) as (? & ? & ? & ?).
    destruct Hw as [[-> _]|Hw]; [lia|].
    destruct (Hw Hst) as (t0 & Hs1 & Hs2 & _ & Hs4 & _).
    exists p, t0. split_and!; try done; [by eapply list_elem_of_lookup_2|auto|lia].
Qed.

(** Submitting the form after a process was added and the burst of the
    first was lowered to 3. *)
Lemma edited_form_is_scheduled :
  let f := changeProcess 0 FBurst 3 (addProcess initialForm) in
  ∃ u rs, handleSubmit (inputProcesses f) = Some u ∧ errorMessage u = "" ∧
          resultProcesses u = Some rs ∧
          tiles (shownGantt u) (metricsTotalTime (metrics u)) ∧
          noRepeat (shownGantt u) ∧
          ∀ p0, p0 ∈ inputProcesses f →
            ∃ p t0, p ∈ rs ∧ sameIdentity p0 p ∧ remaining p = 0 ∧
                    startTimes p = [t0] ∧ arrival p0 ≤ t0 ∧
                    t0 + createdBurst (id p0) ≤ completionTime p ∧
                    completionTime p ≤ metricsTotalTime (metrics u) ∧
                    turnaroundTime p = completionTime p - arrival p0 ∧
                    waitingTime p = turnaroundTime p - burst p0 ∧
                    sumZ (runLen (pid p0)) (shownGantt u) = createdBurst (id p0).
Proof.
  apply (reachable_form_is_scheduled (changeProcess 0 FBurst 3 (addProcess initialForm))).
  - apply form_change, form_add, form_initial.
  - vm_compute. discriminate.
Defined.

(** ** Rendering: the colours *)

Lemma getColorClass_pos n :
  1 ≤ n →
  getColorClass (Some n) = COLOR_CLASSES !! Z.to_nat ((n - 1) `mod` 8) ∧
  (Z.to_nat ((n - 1) `mod` 8) < length COLOR_CLASSES)%nat.
Proof.
  intros Hn. unfold getColorClass.
  destruct (Z.eqb_spec n 0); [lia|].
  change (Z.of_nat (length COLOR_CLASSES)) with 8.
  rewrite Z.rem_mod_nonneg by lia.
  pose proof (Z.mod_pos_bound (n - 1) 8 ltac:(lia)).
  destruct (Z.ltb_spec ((n - 1) `mod` 8) 0); [lia|]. split; [done|].
  change (length COLOR_CLASSES) with 8%nat. lia.
Qed.

(** X11: every id from 1 on gets a class of the palette, and two such ids
    get the same class exactly when they differ by a multiple of 8. *)
Theorem getColorClass_repeats_every_8 n m :
  1 ≤ n → 1 ≤ m →
  (∃ c, getColorClass (Some n) = Some c ∧ c ∈ COLOR_CLASSES) ∧
  (getColorClass (Some n) = getColorClass (Some m) ↔ (n - m) `mod` 8 = 0).
Proof.
  intros Hn Hm.
  destruct (getColorClass_pos n Hn) as [-> Hln], (getColorClass_pos m Hm) as [-> Hlm].
  destruct (lookup_lt_is_Some_2 _ _ Hln) as [c Hc]. split.
  - exists c. split; [done|]. by eapply list_elem_of_lookup_2.
  - assert (NoDup COLOR_CLASSES) as Hnd by (apply (bool_decide_unpack _); vm_compute; exact I).
    split.
    + intros Heq. rewrite Hc in Heq.
      pose proof (NoDup_lookup _ _ _ _ Hnd Hc (eq_sym Heq)) as Hk.
      apply Z2Nat.inj in Hk; Z.to_euclidean_division_equations; lia.
    + intros Hmod. do 2 f_equal. Z.to_euclidean_division_equations. lia.
Qed.

(** Ids 2 and 10 share the orange class. *)
Lemma getColorClass_2_10 :
  (∃ c, getColorClass (Some 2) = Some c ∧ c ∈ COLOR_CLASSES) ∧
  (getColorClass (Some 2) = getColorClass (Some 10) ↔ (2 - 10) `mod` 8 = 0).
Proof. apply (getColorClass_repeats_every_8 2 10); lia. Defined.

(** ** Rendering: the chart *)

Lemma sumZ_imap {A B} (f : B → Z) (h : A → Z) (g : nat → A → B) l :
  (∀ i x, f (g i x) = h x) → sumZ f (imap g l) = sumZ h l.
Proof.
  revert g. induction l as [|x l IH]; intros g Hg; [done|].
  simpl. rewrite Hg. f_equal. apply IH. intros i y. apply Hg.
Qed.

Lemma take_imap {A B} (g : nat → A → B) l k : take k (imap g l) = imap g (take k l).
Proof.
  revert g k. induction l as [|x l IH]; intros g [|k]; try done.
  simpl. f_equal. apply IH.
Qed.

Lemma covers_widths g : ∀ a b, covers a g b →
  sumZ (λ x, (seg_end x - seg_start x) * unitWidth) g = (b - a) * unitWidth ∧
  Forall (λ x, unitWidth ≤ (seg_end x - seg_start x) * unitWidth) g.
Proof.
  unfold unitWidth.
  induction g as [|x g IH]; intros a b Hc; simpl in *.
  - subst. split; [lia|constructor].
  - destruct Hc as (Ha & Hlt & Hc). destruct (IH _ _ Hc) as [IH1 IH2].
    split; [lia|]. constructor; [lia|done].
Qed.

Lemma covers_take g : ∀ a b k x,
  covers a g b → g !! k = Some x → covers a (take (S k) g) (seg_end x).
Proof.
  induction g as [|y g IH]; intros a b k x Hc Hk; [done|].
  destruct Hc as (Ha & Hlt & Hc). destruct k as [|k]; simpl in *.
  - injection Hk as ->. done.
  - split_and!; [done..|]. by eapply IH.
Qed.

(** The test of [pushMarker] never finds the end of a segment among the
    markers of the segments before it. *)
Lemma markers_of_cover g : ∀ a b ms,
  covers a g b → Forall (λ m, marker_time m ≤ a) ms →
  foldl pushMarker ms g
  = ms ++ ((λ x, mkMarker (seg_end x) (seg_end x * unitWidth)) <$> g).
Proof.
  induction g as [|x g IH]; intros a b ms Hc Hms; simpl.
  - by rewrite app_nil_r.
  - destruct Hc as (Ha & Hlt & Hc). unfold pushMarker at 2.
    assert (existsb (λ m, marker_time m =? seg_end x) ms = false) as ->.
    { apply not_true_is_false. intros (m & Hm & Heq%Z.eqb_eq)%existsb_exists.
      apply list_elem_of_In in Hm. apply (proj1 (Forall_forall _ _) Hms) in Hm. lia. }
    rewrite (IH (seg_end x) b); [by rewrite <- app_assoc|done|].
    apply Forall_app. split; [|by repeat constructor].
    eapply Forall_impl; [exact Hms|]. simpl. intros; lia.
Qed.

(** What [GanttChart] makes of a timeline that tiles the ticks from 0. *)
Lemma GanttChart_of_cover g total :
  covers 0 g total →
  (g = [] → GanttChart g total = None) ∧
  (g ≠ [] → ∃ c, GanttChart g total = Some c ∧ bars c ≠ [] ∧ alignedChart g total c).
Proof.
  intros Hc. split; [by intros ->|]. intros Hne. unfold GanttChart.
  destruct (Nat.eqb_spec (length g) 0) as [Hl|_]; [by apply nil_length_inv in Hl|].
  eexists. split; [done|]. unfold alignedChart. cbn [bars chartWidth timeMarkers].
  destruct (covers_widths _ _ _ Hc) as [Hsum Hall]. unfold unitWidth in *.
  assert (Hmarks : foldl pushMarker [mkMarker 0 0] g
                   = mkMarker 0 0 :: ((λ x, mkMarker (seg_end x) (seg_end x * 40)) <$> g)).
  { rewrite (markers_of_cover g 0 total); [done|done|]. by repeat constructor. }
  split_and!.
  - intros Hnil. apply (f_equal length) in Hnil. rewrite length_imap in Hnil.
    by apply nil_length_inv in Hnil.
  - done.
  - by rewrite length_imap.
  - intros i x Hx. rewrite list_lookup_imap, Hx. by eexists.
  - apply Forall_lookup. intros i b Hb. rewrite list_lookup_imap in Hb.
    destruct (g !! i) as [x|] eqn:Hx; [|done]. injection Hb as <-. simpl.
    by apply (Forall_lookup_1 _ _ _ _ Hall) in Hx.
  - rewrite (sumZ_imap _ (λ x, (seg_end x - seg_start x) * 40)) by done.
    rewrite Hsum. f_equal. lia.
  - done.
  - intros k m. rewrite Hmarks, take_imap.
    rewrite (sumZ_imap _ (λ x, (seg_end x - seg_start x) * 40)) by done.
    destruct k as [|k]; simpl; [by intros [= <-]|].
    rewrite list_lookup_fmap. destruct (g !! k) as [x|] eqn:Hx; [|done].
    intros [= <-]. simpl.
    destruct (covers_widths _ _ _ (covers_take _ _ _ _ _ Hc Hx)) as [Hw _].
    unfold unitWidth in Hw. rewrite Hw. f_equal. lia.
Qed.

(** The two ways [handleSubmit] goes. *)
Lemma handleSubmit_rejects ps :
  ps = [] ∨ ¬ validInput ps →
  ∃ u, handleSubmit ps = Some u ∧ errorMessage u ≠ "" ∧
       resultProcesses u = None ∧ shownGantt u = [] ∧ metrics u = initialMetrics.
Proof.
  intros Hbad. unfold handleSubmit. destruct ps as [|p0 ps]; [by eexists|].
  simpl length. cbn [Nat.eqb].
  destruct (List.find invalidProcess (p0 :: ps)) as [p|] eqn:Hf; [by eexists|].
  apply find_invalid_None in Hf. by destruct Hbad.
Qed.

Lemma handleSubmit_runs ps :
  ps ≠ [] → validInput ps →
  ∃ u s, handleSubmit ps = Some u ∧
         reachable (stableSort (λ a b, arrival a - arrival b) ps) s ∧
         anyRemaining (processes s) = false ∧
         errorMessage u = "" ∧ resultProcesses u = Some (processes s) ∧
         shownGantt u = ganttChart s ∧ metricsTotalTime (metrics u) = currentTime s.
Proof.
  intros Hne Hvalid. unfold handleSubmit. destruct ps as [|p0 ps]; [done|].
  simpl length. cbn [Nat.eqb].
  apply find_invalid_None in Hvalid. rewrite Hvalid.
  destruct (run_total (stableSort (λ a b, arrival a - arrival b) (p0 :: ps)))
    as (s & Hrun & Hreach & Hdone & Htot).
  rewrite Hrun. eexists _, s. split; [done|]. split_and!; done.
Qed.

Lemma validInput_dec ps : validInput ps ∨ ¬ validInput ps.
Proof.
  destruct (List.find invalidProcess ps) eqn:Hf.
  - right. intros Hv%find_invalid_None. congruence.
  - left. by apply find_invalid_None.
Qed.

Lemma anyRemaining_Permutation l l' : l ≡ₚ l' → anyRemaining l = anyRemaining l'.
Proof.
  intros Hp. unfold anyRemaining. apply eq_true_iff_eq. rewrite !existsb_exists.
  split; intros (p & Hin & ?); exists p; (split; [|done]);
    apply list_elem_of_In; apply list_elem_of_In in Hin.
  - by rewrite <- Hp.
  - by rewrite Hp.
Qed.

(** The chart of a finished run is empty exactly when no record entered
    with work. *)
Lemma final_chart_empty l s :
  reachable l s → anyRemaining (processes s) = false →
  ganttChart s = [] ↔ anyRemaining l = false.
Proof.
  intros Hreach Hdone. split.
  - destruct Hreach as [|s0 s Hreach Hany Htick]; [by intros _|].
    intros Hg. by apply tick_cases, tickCase_chart_nonempty in Htick.
  - intros Hl. assert (s = initState l) as ->; [|done]. clear Hdone.
    induction Hreach as [|s1 s2 Hreach IH Hany Htick]; [done|].
    rewrite IH in Hany. unfold initState, deepCopy in Hany. simpl in Hany. congruence.
Qed.

(** X12: after a submission the chart is empty exactly when the form was
    rejected (empty, or with an invalid record) or none of its records has
    work; the placeholder is drawn exactly when the chart is empty.
    Otherwise the rendered chart is totalTime * 40 wide and has one bar per
    segment, in order, keyed by its index, labelled with the pid of the
    segment and 40 wide per tick of the segment, so at least 40 wide; the
    widths add up to the width of the chart; no time marker is dropped by
    the duplicate test (there is a marker at 0 and one at the end of every
    segment), and every marker sits at the right edge of the bars before
    it. *)
Theorem GanttChart_after_submit ps :
  ∃ u, handleSubmit ps = Some u ∧
       (shownGantt u = [] ↔ ps = [] ∨ ¬ validInput ps ∨ anyRemaining ps = false) ∧
       (shownGantt u = [] →
        GanttChart (shownGantt u) (metricsTotalTime (metrics u)) = None) ∧
       (shownGantt u ≠ [] →
        ∃ c, GanttChart (shownGantt u) (metricsTotalTime (metrics u)) = Some c ∧
             bars c ≠ [] ∧
             alignedChart (shownGantt u) (metricsTotalTime (metrics u)) c).
Proof.
  destruct (decide (ps = [])) as [->|Hne].
  { eexists. split; [done|]. simpl. split_and!; [split; auto|done|done]. }
  destruct (validInput_dec ps) as [Hv|Hv].
  - destruct (handleSubmit_runs ps Hne Hv) as (u & s & Hu & Hreach & Hdone & _ & _ & Hg & Ht).
    exists u. split; [done|]. rewrite Hg, Ht.
    destruct (GanttChart_of_cover (ganttChart s) (currentTime s)) as [Hnone Hsome];
      [apply (reachable_inv _ _ Hreach)|].
    split_and!; [|done..].
    rewrite (final_chart_empty _ _ Hreach Hdone).
    rewrite (anyRemaining_Permutation _ _ (stableSort_Permutation _ ps)).
    split; [auto|]. by intros [?|[?|?]].
  - destruct (handleSubmit_rejects ps (or_intror Hv)) as (u & Hu & _ & _ & Hg & Hm).
    exists u. split; [done|]. rewrite Hg, Hm. split_and!; [split; auto|done|done].
Qed.

(** X13: after a submission of a form built by the handlers, every bar of
    the chart is an idle bar of class color-idle, or carries the pid of a
    record of the form and the palette class of its id. *)
Theorem bars_of_a_form_are_coloured f :
  formReachable f →
  ∃ u, handleSubmit (inputProcesses f) = Some u ∧
       ∀ c, GanttChart (shownGantt u) (metricsTotalTime (metrics u)) = Some c →
            Forall (λ b, (bar_label b = "IDLE" ∧ bar_color b = Some "color-idle") ∨
                         ∃ p0 cl, p0 ∈ inputProcesses f ∧ bar_label b = pid p0 ∧
                                  bar_color b = getColorClass (Some (id p0)) ∧
                                  bar_color b = Some cl ∧ cl ∈ COLOR_CLASSES)
                   (bars c).
Proof.
  intros (Hc & Hrec & Hnd)%reachable_formInv.
  destruct (formRecords_pids _ _ Hrec Hnd) as (Hvalid & _ & Hname).
  destruct (decide (inputProcesses f = [])) as [->|Hne]; [by eexists|].
  destruct (handleSubmit_runs _ Hne Hvalid) as (u & s & Hu & Hreach & _ & _ & _ & Hg & Ht).
  exists u. split; [done|]. rewrite Hg, Ht. intros c. unfold GanttChart.
  destruct (length (ganttChart s) =? 0)%nat; [done|]. intros [= <-]. cbn [bars].
  destruct (reachable_idleInv _ _ Hreach) as (Hknown & _).
  apply Forall_lookup. intros i b Hb. rewrite list_lookup_imap in Hb.
  destruct (ganttChart s !! i) as [x|] eqn:Hx; [|done]. injection Hb as <-.
  cbn [bar_label bar_color].
  apply (Forall_lookup_1 _ _ _ _ Hknown) in Hx.
  destruct Hx as [(_ & Hidle & _)|(p0 & Hp0 & Hpid & Hid & _)].
  - left. split; [done|]. unfold colorClass. by rewrite bool_decide_true.
  - right. apply elem_of_stableSort in Hp0.
    pose proof (proj1 (Forall_forall _ _) Hrec _ Hp0) as (_ & _ & Hid1 & _).
    pose proof (proj1 (Forall_forall _ _) Hname _ Hp0) as Hn.
    destruct (getColorClass_pos (id p0)) as [Hcol Hlt]; [lia|].
    destruct (lookup_lt_is_Some_2 _ _ Hlt) as [cl Hcl].
    exists p0, cl. unfold colorClass. rewrite bool_decide_false by congruence.
    rewrite Hid, Hcol, Hcl. split_and!; try done. by eapply list_elem_of_lookup_2.
Qed.

(** The bars of the initial form after a process was added. *)
Lemma bars_of_added_form_are_coloured :
  let f := addProcess initialForm in
  ∃ u, handleSubmit (inputProcesses f) = Some u ∧
       ∀ c, GanttChart (shownGantt u) (metricsTotalTime (metrics u)) = Some c →
            Forall (λ b, (bar_label b = "IDLE" ∧ bar_color b = Some "color-idle") ∨
                         ∃ p0 cl, p0 ∈ inputProcesses f ∧ bar_label b = pid p0 ∧
                                  bar_color b = getColorClass (Some (id p0)) ∧
                                  bar_color b = Some cl ∧ cl ∈ COLOR_CLASSES)
                   (bars c).
Proof. apply (bars_of_a_form_are_coloured (addProcess initialForm)), form_add, form_initial. Defined.

(** ** Rendering: the table *)

Lemma insertBy_Forall2 {A B} (R : A → B → Prop) (ka : A → Z) (kb : B → Z) x y l k :
  (∀ a b, R a b → ka a = kb b) → R x y → Forall2 R l k →
  Forall2 R (insertBy (λ a b, ka a - ka b) x l) (insertBy (λ a b, kb a - kb b) y k).
Proof.
  intros Hkey Hxy. induction 1 as [|a b l k Hab Hlk IH]; simpl.
  - by repeat constructor.
  - rewrite (Hkey _ _ Hxy), (Hkey _ _ Hab).
    destruct (kb y - kb b <=? 0); by repeat constructor.
Qed.

Lemma stableSort_Forall2 {A B} (R : A → B → Prop) (ka : A → Z) (kb : B → Z) l k :
  (∀ a b, R a b → ka a = kb b) → Forall2 R l k →
  Forall2 R (stableSort (λ a b, ka a - ka b) l) (stableSort (λ a b, kb a - kb b) k).
Proof.
  intros Hkey. induction 1 as [|a b l k Hab Hlk IH]; [constructor|].
  change (stableSort ?c (a :: l)) with (insertBy c a (stableSort c l)).
  change (stableSort ?c (b :: k)) with (insertBy c b (stableSort c k)).
  by apply insertBy_Forall2.
Qed.

Lemma NoDup_fmap_eq {A B} (f : A → B) (l : list A) x y :
  NoDup (f <$> l) → x ∈ l → y ∈ l → f x = f y → x = y.
Proof.
  intros Hnd (i & Hi)%list_elem_of_lookup (j & Hj)%list_elem_of_lookup Hf.
  assert (i = j) as ->; [|congruence].
  apply (NoDup_lookup (f <$> l) i j (f x)); [done|..]; rewrite list_lookup_fmap.
  - by rewrite Hi.
  - rewrite Hj. simpl. by rewrite Hf.
Qed.

(** With pairwise distinct keys the sort forgets the order it started
    from. *)
Lemma stableSort_Permutation_eq {A} (key : A → Z) (l1 l2 : list A) :
  l1 ≡ₚ l2 → NoDup (key <$> l1) →
  stableSort (λ a b, key a - key b) l1 = stableSort (λ a b, key a - key b) l2.
Proof.
  intros Hperm Hnd.
  apply (StronglySorted_unique_strong (λ a b, key a ≤ key b));
    [|apply stableSort_sorted..|by rewrite !stableSort_Permutation].
  intros x1 x2 H1%elem_of_stableSort H2%elem_of_stableSort ? ?.
  rewrite <- Hperm in H2. apply (NoDup_fmap_eq key l1); [done..|lia].
Qed.

(** X14: after a submission of a non-empty form built by the handlers the
    table has one row per record of the form, in the order of the ids
    whatever the order of the arrivals; a row shows the pid, arrival, burst
    and priority of its record on the palette class of its id, a completion
    time and a turnaround time that are numbers, never the dash, the
    turnaround being at least the burst the record was created with; the
    waiting-time cell is the dash when the turnaround equals the burst (a
    waiting time of 0), and the number turnaround - burst otherwise. *)
Theorem ResultsTable_of_a_form f :
  formReachable f → inputProcesses f ≠ [] →
  ∃ u rs, handleSubmit (inputProcesses f) = Some u ∧ resultProcesses u = Some rs ∧
    Forall2 (λ p0 row,
               row_pid row = pid p0 ∧ row_arrival row = arrival p0 ∧
               row_burst row = burst p0 ∧ row_priority row = priority p0 ∧
               row_color row = getColorClass (Some (id p0)) ∧
               ∃ ct tat, row_CT row = Num ct ∧ row_TAT row = Num tat ∧
                         tat = ct - arrival p0 ∧ createdBurst (id p0) ≤ tat ∧
                         (tat = burst p0 → row_WT row = Dash) ∧
                         (tat ≠ burst p0 → row_WT row = Num (tat - burst p0)))
            (stableSort (λ a b, id a - id b) (inputProcesses f))
            (ResultsTable rs).
Proof.
  intros (Hc & Hrec & Hnd)%reachable_formInv Hne.
  destruct (formRecords_pids _ _ Hrec Hnd) as (Hvalid & _ & _).
  destruct (handleSubmit_runs _ Hne Hvalid) as (u & s & Hu & Hreach & Hdone & _ & Hrs & _).
  exists u, (processes s). split_and!; [done..|].
  set (sorted := stableSort (λ a b, arrival a - arrival b) (inputProcesses f)) in *.
  assert (sorted ≡ₚ inputProcesses f) as Hperm by apply stableSort_Permutation.
  assert (Forall (formRecord (processCounter f)) sorted) as Hrec' by by rewrite Hperm.
  assert (NoDup (id <$> sorted)) as Hnd' by by rewrite Hperm.
  destruct (reachable_inv _ _ Hreach) as (HF & _).
  set (Rel := λ p0 p : Process,
    formRecord (processCounter f) p0 ∧ sameIdentity p0 p ∧
    arrival p0 + remaining p0 ≤ completionTime p ∧
    turnaroundTime p = completionTime p - arrival p0 ∧
    waitingTime p = turnaroundTime p - burst p0).
  assert (Forall2 Rel sorted (processes s)) as HR.
  { apply Forall2_same_length_lookup. split; [by eapply Forall2_length|].
    intros i p0 p Hi Hp.
    pose proof (Forall_lookup_1 _ _ _ _ Hrec' Hi) as Hp0.
    pose proof Hp0 as (_ & _ & _ & Hrem & _).
    pose proof (createdBurst_pos (id p0)) as Hpos.
    pose proof (proj1 (anyRemaining_false _) Hdone i p Hp) as Hle.
    destruct (Forall2_lookup_lr _ _ _ _ _ _ HF Hi Hp) as [Hsame [->|(? & _ & Hfin)]]; [lia|].
    destruct Hfin as (_ & ? & ? & ?); [lia|]. by split_and!. }
  apply (stableSort_Forall2 Rel id id) in HR; [|by intros a b (_ & (-> & _) & _)].
  rewrite (stableSort_Permutation_eq id sorted (inputProcesses f)) in HR by done.
  unfold ResultsTable. apply Forall2_fmap_r.
  eapply Forall2_impl; [exact HR|]. clear HR.
  intros p0 p (((_ & _ & Harr) & _ & _ & Hrem & _) & (Hid & Hpid & Ha & Hb & Hpr) & Hct & Htat & Hwt).
  pose proof (createdBurst_pos (id p0)) as Hpos.
  unfold rowOf, compose.
  cbn [row_pid row_arrival row_burst row_priority row_color row_CT row_TAT row_WT].
  rewrite Hid. split_and!; [done..|].
  exists (completionTime p), (turnaroundTime p).
  unfold orDash at 1 2.
  destruct (Z.eqb_spec (completionTime p) 0); [lia|].
  destruct (Z.eqb_spec (turnaroundTime p) 0); [lia|].
  rewrite Hwt. unfold orDash.
  split_and!; [done|done|lia|lia| |];
    intros ?; destruct (Z.eqb_spec (turnaroundTime p - burst p0) 0); done || lia.
Qed.

(** The table of the form after a process was added and the arrival of the
    first was moved to 7. *)
Lemma ResultsTable_of_edited_form :
  let f := changeProcess 0 FArrival 7 (addProcess initialForm) in
  ∃ u rs, handleSubmit (inputProcesses f) = Some u ∧ resultProcesses u = Some rs ∧
    Forall2 (λ p0 row,
               row_pid row = pid p0 ∧ row_arrival row = arrival p0 ∧
               row_burst row = burst p0 ∧ row_priority row = priority p0 ∧
               row_color row = getColorClass (Some (id p0)) ∧
               ∃ ct tat, row_CT row = Num ct ∧ row_TAT row = Num tat ∧
                         tat = ct - arrival p0 ∧ createdBurst (id p0) ≤ tat ∧
                         (tat = burst p0 → row_WT row = Dash) ∧
                         (tat ≠ burst p0 → row_WT row = Num (tat - burst p0)))
            (stableSort (λ a b, id a - id b) (inputProcesses f))
            (ResultsTable rs).
Proof.
  apply (ResultsTable_of_a_form (changeProcess 0 FArrival 7 (addProcess initialForm))).
  - apply form_change, form_add, form_initial.
  - vm_compute. discriminate.
Defined.

(** ** Editing a burst *)

Lemma handleSubmit_result ps :
  ps ≠ [] → validInput ps →
  ∃ u s, handleSubmit ps = Some u ∧
         runPrioritySimulation (stableSort (λ a b, arrival a - arrival b) ps)
         = Some (finish s) ∧
         errorMessage u = "" ∧ resultProcesses u = Some (processes s) ∧
         shownGantt u = ganttChart s ∧
         metricsTotalTime (metrics u) = totalExecutionTime (ganttChart s) ∧
         cpuUtil (metrics u) = cpuUtilization (totalExecutionTime (ganttChart s)) (idleTime s).
Proof.
  intros Hne Hvalid. unfold handleSubmit. destruct ps as [|p0 ps]; [done|].
  simpl length. cbn [Nat.eqb].
  apply find_invalid_None in Hvalid. rewrite Hvalid.
  destruct (run_total (stableSort (λ a b, arrival a - arrival b) (p0 :: ps)))
    as (s & Hrun & _).
  rewrite Hrun. eexists _, s. split; [done|]. split_and!; done.
Qed.

Lemma handleProcessChange_valid index fld v ps :
  validInput ps → validInput (handleProcessChange index fld v ps).
Proof.
  intros Hv. apply Forall_lookup. intros i p' Hi.
  destruct (handleProcessChange_lookup _ _ _ _ _ _ Hi) as (p & Hp & _ & _ & Hvp).
  apply Hvp. by eapply Forall_lookup_1.
Qed.

Lemma handleProcessChange_burst_erase index v ps :
  eraseBurst <$> handleProcessChange index FBurst v ps = eraseBurst <$> ps.
Proof.
  apply list_eq. intros i. rewrite !list_lookup_fmap.
  destruct (handleProcessChange _ _ _ _ !! i) as [p'|] eqn:Hi.
  - destruct (handleProcessChange_lookup _ _ _ _ _ _ Hi)
      as (p & -> & (E1 & E2 & E3 & E4 & E5 & _ & E7 & E8 & _ & E10) & _).
    simpl. unfold eraseBurst. rewrite E1, E2, E3, E4, E5, E7, E8, E10 by done. done.
  - apply lookup_ge_None in Hi. rewrite handleProcessChange_length in Hi.
    apply lookup_ge_None in Hi. by rewrite Hi.
Qed.

(** X15: on a form of valid records, editing the burst of a record, to
    whatever value, changes nothing in what a submission shows of the
    schedule: the same error state, the same chart, the same total time and
    the same utilisation; the records shown agree up to burst and waiting
    time. *)
Theorem burst_edits_never_change_the_chart index v ps :
  validInput ps →
  ∃ u u', handleSubmit ps = Some u ∧
          handleSubmit (handleProcessChange index FBurst v ps) = Some u' ∧
          errorMessage u' = errorMessage u ∧ shownGantt u' = shownGantt u ∧
          metricsTotalTime (metrics u') = metricsTotalTime (metrics u) ∧
          cpuUtil (metrics u') = cpuUtil (metrics u) ∧
          fmap (M := list) eraseBurst <$> resultProcesses u'
          = fmap (M := list) eraseBurst <$> resultProcesses u.
Proof.
  intros Hvalid.
  set (ps' := handleProcessChange index FBurst v ps).
  pose proof (handleProcessChange_burst_erase index v ps) as He. fold ps' in He.
  destruct (decide (ps = [])) as [->|Hne].
  { subst ps'. unfold handleProcessChange. destruct (v <=? 0); by eexists _, _. }
  assert (ps' ≠ []) as Hne'.
  { intros Hnil. apply Hne. apply (f_equal length) in Hnil.
    unfold ps' in Hnil. rewrite handleProcessChange_length in Hnil.
    by apply nil_length_inv. }
  destruct (handleSubmit_result ps Hne Hvalid) as (u & s & Hu & Hr & E1 & E2 & E3 & E4 & E5).
  destruct (handleSubmit_result ps' Hne' (handleProcessChange_valid _ _ _ _ Hvalid))
    as (u' & s' & Hu' & Hr' & E1' & E2' & E3' & E4' & E5').
  destruct (run_erase (stableSort (λ a b, arrival a - arrival b) ps')
                      (stableSort (λ a b, arrival a - arrival b) ps))
    as (t' & t & Ht' & Ht & Heq).
  { rewrite !(stableSort_fmap eraseBurst (λ a b, arrival a - arrival b)
                (λ a b, arrival a - arrival b)) by done.
    by rewrite He. }
  assert (finish t' = finish s') as Hf' by congruence.
  assert (finish t = finish s) as Hf by congruence.
  unfold finish in Hf, Hf'. injection Hf as F1 F2 _ F4. injection Hf' as F1' F2' _ F4'.
  injection Heq as H1 H2 H3 H4 H5 H6.
  exists u, u'. rewrite E1, E1', E2, E2', E3, E3', E4, E4', E5, E5'.
  rewrite <- F1, <- F1', <- F2, <- F2', <- F4, <- F4', H3, H4. simpl.
  split_and!; try done. by rewrite H1.
Qed.

(** Raising the burst of P1 from 8 to 20 in the initial form. *)
Lemma raised_burst_same_chart :
  ∃ u u', handleSubmit initialProcesses = Some u ∧
          handleSubmit (handleProcessChange 0 FBurst 20 initialProcesses) = Some u' ∧
          errorMessage u' = errorMessage u ∧ shownGantt u' = shownGantt u ∧
          metricsTotalTime (metrics u') = metricsTotalTime (metrics u) ∧
          cpuUtil (metrics u') = cpuUtil (metrics u) ∧
          fmap (M := list) eraseBurst <$> resultProcesses u'
          = fmap (M := list) eraseBurst <$> resultProcesses u.
Proof.
  apply (burst_edits_never_change_the_chart 0 20 initialProcesses).
  repeat constructor; simpl; lia.
Defined.

(** * The order of the records *)

Lemma tr_invol k i : tr k (tr k i) = i.
Proof. unfold tr. repeat case_decide; lia. Qed.

Lemma tr_lt k i n : (S k < n)%nat → (i < n)%nat → (tr k i < n)%nat.
Proof. unfold tr. repeat case_decide; lia. Qed.

Lemma swapAt_length k l : length (swapAt k l) = length l.
Proof.
  unfold swapAt. destruct (l !! k), (l !! S k); by rewrite ?length_insert.
Qed.

Lemma swapAt_lookup k l i : (S k < length l)%nat → swapAt k l !! i = l !! tr k i.
Proof.
  intros Hlen.
  destruct (lookup_lt_is_Some_2 l k) as [a Ha]; [lia|].
  destruct (lookup_lt_is_Some_2 l (S k)) as [b Hb]; [lia|].
  unfold swapAt, tr. rewrite Ha, Hb. repeat case_decide; subst.
  - rewrite list_lookup_insert_eq by (rewrite length_insert; lia). done.
  - rewrite list_lookup_insert_ne, list_lookup_insert_eq by lia. done.
  - by rewrite !list_lookup_insert_ne by lia.
Qed.

Lemma swapAt_insert k l i x :
  (S k < length l)%nat → (i < length l)%nat →
  swapAt k (<[i := x]> l) = <[tr k i := x]> (swapAt k l).
Proof.
  intros Hlen Hi. apply list_eq. intros n.
  rewrite swapAt_lookup by (rewrite length_insert; lia).
  destruct (decide (i = tr k n)) as [->|Hne].
  - rewrite tr_invol, !list_lookup_insert_eq; [done|rewrite swapAt_length|];
      pose proof (tr_lt k n (length l)); unfold tr in *; repeat case_decide; lia.
  - rewrite !list_lookup_insert_ne, swapAt_lookup; [done|done| |done].
    intros <-. by rewrite tr_invol in Hne.
Qed.

Lemma swapAt_cons x k l : swapAt (S k) (x :: l) = x :: swapAt k l.
Proof. unfold swapAt. simpl. by destruct (l !! k), (l !! S k). Qed.

Lemma swapAt_Permutation k : ∀ l, swapAt k l ≡ₚ l.
Proof.
  induction k as [|k IH]; intros [|x l]; try done.
  - destruct l as [|y l]; [done|]. apply Permutation_swap.
  - by rewrite swapAt_cons, IH.
Qed.

Lemma maxArrival_Permutation l l' : l ≡ₚ l' → maxArrival l = maxArrival l'.
Proof. induction 1; simpl in *; lia. Qed.

Lemma sumZ_Permutation {A} (f : A → Z) l l' : l ≡ₚ l' → sumZ f l = sumZ f l'.
Proof. induction 1; simpl in *; lia. Qed.

Lemma anyRemaining_swap k l : anyRemaining (swapAt k l) = anyRemaining l.
Proof.
  unfold anyRemaining. apply eq_true_iff_eq. rewrite !existsb_exists.
  split; intros (p & Hp & ?); exists p; (split; [|done]);
    apply list_elem_of_In; apply list_elem_of_In in Hp.
  - by rewrite <- (swapAt_Permutation k l).
  - by rewrite (swapAt_Permutation k l).
Qed.

(** The exchange moves the selected process with its record. *)
Lemma runningProcess_swap k s :
  swappable k (processes s) →
  runningProcess (swapState k s) = (λ ip, (tr k ip.1, ip.2)) <$> runningProcess s.
Proof.
  intros [Hlen Hun].
  pose proof (λ i, swapAt_lookup k (processes s) i Hlen) as L.
  destruct (runningProcess s) as [[i p]|] eqn:Hr; simpl.
  2:{ apply runningProcess_None in Hr. apply runningProcess_None. simpl.
      apply readyQueue_nil. intros i p Hi. rewrite L in Hi.
      by eapply (proj1 (readyQueue_nil _ _)). }
  pose proof Hr as (Hi & Hready & Hmin)%runningProcess_spec.
  destruct (runningProcess (swapState k s)) as [[i' p']|] eqn:Hr'.
  2:{ exfalso. apply runningProcess_None, readyQueue_nil with (i := tr k i) (p := p) in Hr'.
      - simpl in Hr'. congruence.
      - simpl. by rewrite L, tr_invol. }
  pose proof Hr' as (Hi' & Hready' & Hmin')%runningProcess_spec.
  simpl in Hi', Hready', Hmin'. rewrite L in Hi'.
  destruct (Hmin _ _ Hi' Hready') as [Hle Hfirst].
  destruct (Hmin' (tr k i) p) as [Hle' Hfirst']; [by rewrite L, tr_invol|done|].
  specialize (Hfirst Hle'). specialize (Hfirst' Hle).
  destruct (decide (i' = tr k i)) as [->|Hne].
  { rewrite tr_invol in Hi'. congruence. }
  exfalso. assert (i = k ∧ i' = k) as [-> ->]
    by (unfold tr in *; repeat case_decide; lia).
  apply (Hun p p'); [done|by unfold tr in Hi'; rewrite decide_True in Hi'|].
  unfold keyLe in *. unfold tiedKey. lia.
Qed.

Lemma tick_swap k s s1 :
  swappable k (processes s) → tickCase s s1 → tickCase (swapState k s) (swapState k s1).
Proof.
  intros Hsw Hcase. pose proof (runningProcess_swap k s Hsw) as Hrun.
  destruct Hsw as [Hlen _].
  destruct Hcase as [g Hq Hg ->|i p Hr Hne ->|i p g Hr He Hg ->].
  - apply (case_idle _ _ g); [|done..].
    apply runningProcess_None in Hq. rewrite Hq in Hrun.
    by apply runningProcess_None in Hrun.
  - rewrite Hr in Hrun. apply (case_switch _ _ (tr k i) p); [done..|].
    unfold swapState. simpl. f_equal. apply swapAt_insert; [done|].
    apply runningProcess_spec in Hr as (Hi & _). by eapply lookup_lt_Some.
  - rewrite Hr in Hrun. apply (case_continue _ _ (tr k i) p g); [done..|].
    unfold swapState. simpl. f_equal. apply swapAt_insert; [done|].
    apply runningProcess_spec in Hr as (Hi & _). by eapply lookup_lt_Some.
Qed.

Lemma swappable_tick k s s1 :
  swappable k (processes s) → tickCase s s1 → swappable k (processes s1).
Proof.
  intros [Hlen Hun] Hcase.
  assert (length (processes s1) = length (processes s) ∧
          ∀ n x', processes s1 !! n = Some x' →
                  ∃ x, processes s !! n = Some x ∧
                       priority x' = priority x ∧ arrival x' = arrival x) as [Hl Hsame].
  { destruct (tick_processes _ _ Hcase) as [_ [[_ ->]|(i & p & p1 & Hr & Hp1 & ->)]].
    - split; [done|]. intros n x' Hn. by exists x'.
    - apply runningProcess_spec in Hr as (Hi & _).
      split; [by rewrite length_insert|]. intros n x' Hn.
      destruct (decide (n = i)) as [->|Hni].
      + rewrite list_lookup_insert_eq in Hn by by eapply lookup_lt_Some.
        injection Hn as <-. exists p. split; [done|].
        assert (sameIdentity p (execute (currentTime s + 1) p1)) as (_ & _ & ? & _ & ?).
        { eapply sameIdentity_trans; [|apply execute_sameIdentity].
          destruct Hp1 as [->| ->]; [apply sameIdentity_refl|apply recordStart_sameIdentity]. }
        done.
      + rewrite list_lookup_insert_ne in Hn by done. by exists x'. }
  split; [lia|]. intros a' b' Ha' Hb'.
  destruct (Hsame _ _ Ha') as (a & Ha & Ha1 & Ha2), (Hsame _ _ Hb') as (b & Hb & Hb1 & Hb2).
  pose proof (Hun a b Ha Hb). unfold tiedKey in *. lia.
Qed.

Lemma loop_swap k n : ∀ s s1,
  swappable k (processes s) → loop n s = Some s1 →
  loop n (swapState k s) = Some (swapState k s1).
Proof.
  induction n as [|n IH]; intros s s1 Hsw; rewrite !loop_unfold;
    change (processes (swapState k s)) with (swapAt k (processes s));
    rewrite anyRemaining_swap; destruct (anyRemaining (processes s)); try done.
  - by intros [= ->].
  - destruct (tick s) as [s2|] eqn:Ht; [|done]. cbn [mbind option_bind].
    apply tick_cases in Ht. pose proof (tick_swap k s s2 Hsw Ht) as Ht'%tick_cases.
    rewrite Ht'. cbn [mbind option_bind]. apply IH. by eapply swappable_tick.
  - by intros [= ->].
Qed.

Lemma run_swap k ps r :
  swappable k ps → runPrioritySimulation ps = Some r →
  runPrioritySimulation (swapAt k ps)
  = Some (mkResult (swapAt k (res_processes r)) (gantt r) (totalTime r) (res_idleTime r)).
Proof.
  intros Hsw. unfold runPrioritySimulation. cbv zeta.
  change (initState (swapAt k ps)) with (swapState k (initState ps)).
  change (processes (swapState k (initState ps))) with (swapAt k (processes (initState ps))).
  assert (ticksBound (swapAt k (processes (initState ps))) 0
          = ticksBound (processes (initState ps)) 0) as ->.
  { unfold ticksBound, workLeft.
    by rewrite (maxArrival_Permutation _ _ (swapAt_Permutation k _)),
               (sumZ_Permutation _ _ _ (swapAt_Permutation k _)). }
  destruct (loop _ (initState ps)) as [s|] eqn:Hl; [|done].
  rewrite (loop_swap k _ (initState ps) s Hsw Hl). simpl. by intros [= <-].
Qed.

Lemma reorders_run ps ps' :
  reorders ps ps' → ∀ r, runPrioritySimulation ps = Some r →
  ∃ r', runPrioritySimulation ps' = Some r' ∧ gantt r' = gantt r ∧
        totalTime r' = totalTime r ∧ res_idleTime r' = res_idleTime r ∧
        res_processes r' ≡ₚ res_processes r.
Proof.
  induction 1 as [l|k l l' Hsw Hre IH]; intros r Hr.
  - by exists r.
  - destruct (IH _ (run_swap k l r Hsw Hr)) as (r' & Hr' & H1 & H2 & H3 & H4).
    exists r'. simpl in *. split_and!; [done..|]. by rewrite H4, swapAt_Permutation.
Qed.

Lemma reorders_trans l1 l2 l3 : reorders l1 l2 → reorders l2 l3 → reorders l1 l3.
Proof. induction 1; [done|]. intros. eapply reorders_step; eauto. Qed.

Lemma reorders_cons x l l' : reorders l l' → reorders (x :: l) (x :: l').
Proof.
  induction 1 as [l|k l l' [Hlen Hun] Hre IH]; [constructor|].
  apply (reorders_step (S k)); [|by rewrite swapAt_cons].
  split; [simpl; lia|]. intros a b Ha Hb. by apply Hun.
Qed.

Lemma insertBy_reorders x l :
  reorders (x :: l) (insertBy (λ a b, arrival a - arrival b) x l).
Proof.
  induction l as [|y l IH]; simpl; [constructor|].
  destruct (Z.leb_spec (arrival x - arrival y) 0); [constructor|].
  apply (reorders_step 0).
  - split; [simpl; lia|]. intros a b [= <-] [= <-]. unfold tiedKey. lia.
  - by apply reorders_cons.
Qed.

Lemma stableSort_reorders l : reorders l (stableSort (λ a b, arrival a - arrival b) l).
Proof.
  induction l as [|x l IH]; [constructor|].
  change (stableSort ?c (x :: l)) with (insertBy c x (stableSort c l)).
  eapply reorders_trans; [by apply reorders_cons|apply insertBy_reorders].
Qed.

(** X18: the chart does not depend on the order of the records, as long
    as the records that tie on priority and arrival keep their order: the
    engine returns the same chart, the same total and idle times, and the
    same records up to their order. *)
Theorem order_of_the_records_is_immaterial ps ps' r :
  reorders ps ps' → runPrioritySimulation ps = Some r →
  ∃ r', runPrioritySimulation ps' = Some r' ∧ gantt r' = gantt r ∧
        totalTime r' = totalTime r ∧ res_idleTime r' = res_idleTime r ∧
        res_processes r' ≡ₚ res_processes r.
Proof. intros Hre. by apply reorders_run. Qed.

(** The initial form with its rows in the opposite order. *)
Lemma reversed_form_same_chart :
  ∃ r r', runPrioritySimulation initialProcesses = Some r ∧
          runPrioritySimulation [P3; P2; P1] = Some r' ∧ gantt r' = gantt r ∧
          totalTime r' = totalTime r ∧ res_idleTime r' = res_idleTime r ∧
          res_processes r' ≡ₚ res_processes r.
Proof.
  assert (∀ k l, (S k < length l)%nat →
                 (∀ a b, l !! k = Some a → l !! S k = Some b → priority a ≠ priority b) →
                 swappable k l) as Hsw.
  { intros k l Hlen Hp. split; [exact Hlen|]. intros a b Ha Hb [Ht _]. exact (Hp a b Ha Hb Ht). }
  assert (reorders initialProcesses [P3; P2; P1]) as Hre.
  { apply (reorders_step 0); [apply Hsw; [simpl; lia|intros a b [= <-] [= <-]; discriminate]|].
    apply (reorders_step 1); [apply Hsw; [simpl; lia|intros a b [= <-] [= <-]; discriminate]|].
    apply (reorders_step 0); [apply Hsw; [simpl; lia|intros a b [= <-] [= <-]; discriminate]|].
    apply reorders_refl. }
  assert (∃ r, runPrioritySimulation initialProcesses = Some r) as [r Hr]
    by (eexists; vm_compute; reflexivity).
  destruct (order_of_the_records_is_immaterial initialProcesses [P3; P2; P1] r Hre Hr)
    as (r' & Hr').
  exists r, r'. split; [exact Hr|exact Hr'].
Defined.

(** X19: the sort by arrival in [handleSubmit] changes nothing in the
    schedule: on every form the engine returns for the sorted records the
    chart, the total time and the idle time that it returns for the form
    as it stands, and the same records up to their order. *)
Theorem presort_is_immaterial ps :
  ∃ r r', runPrioritySimulation ps = Some r ∧
          runPrioritySimulation (stableSort (λ a b, arrival a - arrival b) ps) = Some r' ∧
          gantt r' = gantt r ∧ totalTime r' = totalTime r ∧
          res_idleTime r' = res_idleTime r ∧ res_processes r' ≡ₚ res_processes r.
Proof.
  destruct (run_total ps) as (s & Hrun & _).
  destruct (reorders_run _ _ (stableSort_reorders ps) _ Hrun) as (r' & ?).
  by exists (finish s), r'.
Qed.

(** * The chart against the schedule *)

(** An iteration keeps what the chart shows and adds the label of the
    tick at the clock. *)
Lemma tick_shows ps s s' :
  tickCase s s' → covers 0 (ganttChart s) (currentTime s) → idleInv ps s →
  (∀ u l, shows (ganttChart s) u l → shows (ganttChart s') u l) ∧
  shows (ganttChart s') (currentTime s) (tickLabel s).
Proof.
  intros Hcase Hcov (Hknown & _ & Hidle & Hlast).
  assert (Hext : ∀ g, extendLast (ganttChart s) (currentTime s + 1) = Some g →
    ∃ x, last (ganttChart s) = Some x ∧
         (∀ u l, shows (ganttChart s) u l → shows g u l) ∧
         shows g (currentTime s) (seg_pid x)).
  { intros g (g0 & x & Hg0 & ->)%extendLast_inv. exists x.
    rewrite Hg0 in Hcov. destruct (covers_last _ _ _ Hcov) as [He Hs].
    split_and!.
    - by rewrite Hg0, last_snoc.
    - intros u l (y & Hy & Hin & Hl). rewrite Hg0 in Hy.
      apply elem_of_app in Hy as [Hy|Hy%list_elem_of_singleton].
      + exists y. split_and!; [|done..]. apply elem_of_app. by left.
      + subst y. exists (set_end (currentTime s + 1) x). split_and!; [| |done].
        * apply elem_of_app. right. by apply list_elem_of_singleton.
        * unfold inSegment in *. simpl. lia.
    - exists (set_end (currentTime s + 1) x). split_and!; [| |done].
      + apply elem_of_app. right. by apply list_elem_of_singleton.
      + unfold inSegment. simpl. lia. }
  assert (Hpush : ∀ z, seg_start z = currentTime s → seg_end z = currentTime s + 1 →
    (∀ u l, shows (ganttChart s) u l → shows (ganttChart s ++ [z]) u l) ∧
    shows (ganttChart s ++ [z]) (currentTime s) (seg_pid z)).
  { intros z Hz1 Hz2. split.
    - intros u l (y & Hy & ?). exists y. split; [|done]. apply elem_of_app. by left.
    - exists z. split_and!; [| |done].
      + apply elem_of_app. right. by apply list_elem_of_singleton.
      + unfold inSegment. lia. }
  unfold tickLabel.
  destruct Hcase as [g Hq Hg ->|i p Hrun Hne ->|i p g Hrun He Hg ->]; simpl.
  - apply runningProcess_None in Hq. rewrite Hq.
    unfold chartIdle in Hg. destruct (isIdle s) eqn:Hb.
    + destruct (Hext _ Hg) as (x & Hx & Hkeep & Hnew). split; [done|].
      destruct (Hidle eq_refl) as (y & Hy & Hnone).
      assert (y = x) as -> by congruence.
      apply last_Some in Hx as [g0 Hg0]. rewrite Hg0 in Hknown.
      apply Forall_app in Hknown as [_ Hkx]. apply List.Forall_inv in Hkx.
      destruct Hkx as [(_ & Hlabel & _)|(? & _ & _ & ? & _)]; [|congruence].
      by rewrite <- Hlabel.
    + injection Hg as <-.
      by apply (Hpush (mkSegment "IDLE" (currentTime s) (currentTime s + 1) None)).
  - rewrite Hrun.
    by apply (Hpush (mkSegment (pid p) (currentTime s) (currentTime s + 1) (Some (id p)))).
  - rewrite Hrun. destruct (Hext _ Hg) as (x & Hx & Hkeep & Hnew). split; [done|].
    destruct (Hlast (pid p) (eq_sym He)) as (y & Hy & Hlabel & _).
    assert (y = x) as -> by congruence. by rewrite <- Hlabel.
Qed.

Lemma trace_shows ps n : ∀ s sf,
  reachable ps s → loop n s = Some sf →
  (∀ u l, shows (ganttChart s) u l → shows (ganttChart sf) u l) ∧
  ∀ k o, trace n s !! k = Some o →
         shows (ganttChart sf) (currentTime s + Z.of_nat k) (default "IDLE" o).
Proof.
  induction n as [|n IH]; intros s sf Hreach; rewrite loop_unfold, trace_unfold;
    destruct (anyRemaining (processes s)) eqn:Hany; try done;
    try (intros [= <-]; split; [done|by intros []]).
  destruct (tick s) as [s1|] eqn:Ht; [|done]. cbn [mbind option_bind]. intros Hloop.
  pose proof Ht as Hc%tick_cases.
  destruct (reachable_inv _ _ Hreach) as (_ & _ & Hcov & _).
  destruct (tick_shows ps s s1 Hc Hcov (reachable_idleInv _ _ Hreach)) as [Hkeep Hnew].
  destruct (IH s1 sf (reach_tick _ _ _ Hreach Hany Ht) Hloop) as [Hkeep1 Htrace1].
  destruct (tick_processes _ _ Hc) as [Htime _].
  split; [by auto|]. intros [|k] o Hk; simpl in Hk.
  - injection Hk as <-. rewrite Z.add_0_r. apply Hkeep1.
    unfold tickLabel in Hnew. by destruct (runningProcess s) as [[i p]|].
  - apply Htrace1 in Hk. rewrite Htime in Hk.
    by replace (currentTime s + Z.of_nat (S k)) with (currentTime s + 1 + Z.of_nat k) by lia.
Qed.

(** X20: the chart shows the schedule.  At every tick below the total
    time the loop selects a process or idles, and the chart has a segment
    over that tick labelled with the pid of the selected process, or IDLE
    when the loop idles. *)
Theorem chart_shows_the_schedule ps :
  ∃ r, runPrioritySimulation ps = Some r ∧
       ∀ t, 0 ≤ t < totalTime r →
            ∃ o x, schedule ps !! Z.to_nat t = Some o ∧
                   x ∈ gantt r ∧ inSegment t x ∧ seg_pid x = default "IDLE" o.
Proof.
  destruct (loop_total ps (ticksBound (processes (initState ps)) 0) (initState ps))
    as (s & Hloop & Hreach & Hdone); [constructor|done|].
  destruct (trace_length ps (ticksBound (processes (initState ps)) 0) (initState ps))
    as (s' & Hloop' & _ & _ & Hlen & _); [constructor|done|].
  rewrite Hloop in Hloop'. injection Hloop' as <-.
  destruct (trace_shows ps _ _ _ (reach_init ps) Hloop) as [_ Hshows].
  destruct (reachable_inv _ _ Hreach) as (_ & _ & Hcov & _).
  exists (finish s). unfold runPrioritySimulation. cbv zeta. rewrite Hloop. simpl.
  rewrite (totalExecutionTime_covers _ _ Hcov). split; [done|]. intros t Ht.
  change (currentTime (initState ps)) with 0 in Hlen.
  destruct (lookup_lt_is_Some_2 (schedule ps) (Z.to_nat t)) as [o Ho].
  { unfold schedule. cbv zeta. rewrite Hlen. lia. }
  destruct (Hshows _ _ Ho) as (x & Hx & Hin & Hl).
  exists o, x. split_and!; [done|done| |done].
  change (currentTime (initState ps)) with 0 in Hin. by rewrite Z2Nat.id in Hin by lia.
Qed.
